(** * Call timeline analysis: overlaps, silences and metrics

    A shallow embedding of [CallAnalyzer] from [Q3/call_analysis_viz.py],
    with the properties of its construction and of its three operations.

    Times are exact rationals ([Q]): the JSON transcripts carry numbers, and
    every decision the analyzer takes is a comparison, a [max]/[min] or a
    subtraction of two of them.  Binary rounding is not modelled; the special
    values a numpy division can produce ([nan], [inf]) are. *)

From Stdlib Require Import Ascii String QArith Qround Qabs Qpower Qminmax Lqa Bool Arith Lia.
From Stdlib Require Import List Sorted Permutation.
Import ListNotations.
Open Scope Q_scope.

(** ** Python and numpy numbers *)

Definition Qltb (a b : Q) : bool := negb (Qle_bool b a).

(** Python's builtin [max(a, b)] keeps [a] unless [b > a]; [min(a, b)]
    keeps [a] unless [b < a]. *)
Definition py_max (a b : Q) : Q := if Qltb a b then b else a.
Definition py_min (a b : Q) : Q := if Qltb b a then b else a.

(** The sum of a list of numbers. *)
Definition Qsum (l : list Q) : Q := fold_right Qplus 0 l.

(** A numpy scalar: a finite number, or one of the three special values. *)
Inductive npfloat : Type :=
| Fin (q : Q)
| NaN
| PInf
| NInf.

(** *** float64

    A float64 operation gives the value of the type that is nearest to the
    exact result, the one with an even significand when two are as near:
    53 bits of significand, exponents down to -1022 with the subnormal
    numbers below, and an infinity for what rounds to [2^1024] or beyond. *)

(** The nearest integer, the even one of two. *)
Definition round_half_even (q : Q) : Z :=
  let f := Qfloor q in
  match Qcompare (q - inject_Z f) (1 # 2) with
  | Lt => f
  | Gt => (f + 1)%Z
  | Eq => if Z.even f then f else (f + 1)%Z
  end.

(** The exponent [e] of a positive number: [2^e <= q < 2^(e+1)]. *)
Definition Qlog2 (q : Q) : Z :=
  let e := (Z.log2 (Qnum q) - Z.log2 (Zpos (Qden q)))%Z in
  if Qltb q (2 ^ e) then (e - 1)%Z else e.

Definition binary64 (q : Q) : npfloat :=
  let q := Qred q in
  if Qeq_bool q 0 then Fin 0
  else
    let a := Qabs q in
    let ulp := 2 ^ (Z.max (Qlog2 a) (-1022) - 52) in
    let v := Qred (inject_Z (round_half_even (a / ulp)) * ulp) in
    if Qle_bool (2 ^ 1024) v then (if Qltb 0 q then PInf else NInf)
    else Fin (if Qltb 0 q then v else - v).

(** A scalar as a float64: an int64 is converted, by rounding. *)
Definition to_float64 (x : npfloat) : npfloat :=
  match x with
  | Fin q => binary64 q
  | special => special
  end.

(** numpy's true division [x / d] of two scalars is the division of
    float64, whatever their type.  A zero divisor raises nothing: it gives
    [nan] for [0 / 0] and a signed infinity otherwise. *)
Definition np_truediv (x d : npfloat) : npfloat :=
  match to_float64 x, to_float64 d with
  | Fin a, Fin b =>
      if Qeq_bool b 0
      then (if Qeq_bool a 0 then NaN else if Qltb 0 a then PInf else NInf)
      else binary64 (a / b)
  | NaN, _ | _, NaN => NaN
  | Fin _, (PInf | NInf) => Fin 0
  | PInf, Fin b => if Qltb b 0 then NInf else PInf
  | NInf, Fin b => if Qltb b 0 then PInf else NInf
  | (PInf | NInf), (PInf | NInf) => NaN
  end.

(** [v * 100]: a float64 product; [k] is a whole number. *)
Definition np_times (v : npfloat) (k : Q) : npfloat :=
  match v with
  | Fin x => binary64 (x * k)
  | NaN => NaN
  | PInf => if Qeq_bool k 0 then NaN else if Qltb 0 k then PInf else NInf
  | NInf => if Qeq_bool k 0 then NaN else if Qltb 0 k then NInf else PInf
  end.

(** *** The type of a column

    The times of a call are numbers of one numpy type, int64 when the file
    gives whole numbers and float64 otherwise, and every value of either
    type is a rational.  A sum is formed in the type: the sum of int64
    wraps around at 64 bits, the sum of float64 is rounded at each
    addition.  What both types have in common is that a sum is exact when
    the numbers added up so far, in whatever order, are always a value of
    the type.  The difference of two times, which gives a duration, is
    taken as it is: it is exact for whole numbers of seconds. *)

(** [chosen] holds some of the elements of a list, in their order. *)
Inductive sublist {A : Type} : list A -> list A -> Prop :=
| sublist_nil : sublist [] []
| sublist_skip (x : A) (chosen l : list A) : sublist chosen l -> sublist chosen (x :: l)
| sublist_take (x : A) (chosen l : list A) :
    sublist chosen l -> sublist (x :: chosen) (x :: l).

Class Dtype : Type := {
  (** the values of the type *)
  representable : Q -> Prop;
  (** [a + b] on two scalars *)
  np_add : npfloat -> npfloat -> npfloat;
  (** [Series.sum()] on a column *)
  Series_sum : list Q -> npfloat;
  representable_Qeq : forall a b, a == b -> representable a -> representable b;
  representable_integer :
    forall z : Z, (Z.abs z <= 2 ^ 53)%Z -> representable (inject_Z z);
  np_add_exact :
    forall a b, representable (a + b) ->
                exists v, np_add (Fin a) (Fin b) = Fin v /\ v == a + b;
  Series_sum_exact :
    forall values,
      (forall chosen, sublist chosen values -> representable (Qsum chosen)) ->
      exists v, Series_sum values = Fin v /\ v == Qsum values
}.

(** Python's [sum]: left to right, starting from [0]; the additions are
    those of the numpy scalars in the list. *)
Definition py_sum {dtype : Dtype} (l : list Q) : npfloat :=
  fold_left (fun total x => np_add total (Fin x)) l (Fin 0).

(** ** Exceptions *)

Inductive exn : Type :=
| KeyError (key : string)
| IndexError.

Inductive result (A : Type) : Type :=
| Ok (a : A)
| Raise (e : exn).
Arguments Ok {A} a.
Arguments Raise {A} e.

Definition bind {A B : Type} (m : result A) (k : A -> result B) : result B :=
  match m with
  | Ok a => k a
  | Raise e => Raise e
  end.

Notation "x <- m ;; k" := (bind m (fun x => k))
  (at level 61, m at next level, right associativity).

(** A [for i in range(...)] loop whose body appends to one list. *)
Fixpoint for_range {A : Type} (body : nat -> result (list A)) (range : list nat)
  : result (list A) :=
  match range with
  | [] => Ok []
  | i :: rest =>
      appended <- body i;;
      later <- for_range body rest;;
      Ok (appended ++ later)
  end.

(** List indexing [l[i]]. *)
Definition getitem {A : Type} (l : list A) (i : nat) : result A :=
  match nth_error l i with
  | Some a => Ok a
  | None => Raise IndexError
  end.

(** ** Data *)

(** One element of [conversation_data], with the keys of the JSON file. *)
Record Segment : Type := mkSegment {
  speaker : string;
  text : string;
  stime : Q;
  etime : Q
}.

(** One row of [timeline_data]. *)
Record Row : Type := mkRow {
  row_speaker : string;
  row_text : string;
  start_time : Q;
  end_time : Q;
  duration : Q
}.

Record Overlap : Type := mkOverlap {
  o_start_time : Q;
  o_end_time : Q;
  o_duration : Q;
  speakers : list string
}.

Record Silence : Type := mkSilence {
  s_start_time : Q;
  s_end_time : Q;
  s_duration : Q
}.

(** ** pandas *)

(** A frame built from a list of row dictionaries takes its columns from the
    rows: with no rows it has no columns at all. *)
Record DataFrame : Type := mkDataFrame {
  columns : list string;
  rows : list Row
}.

Definition row_keys : list string :=
  ["speaker"; "text"; "start_time"; "end_time"; "duration"]%string.

Definition pd_DataFrame (timeline_rows : list Row) : DataFrame :=
  {| columns := match timeline_rows with [] => [] | _ :: _ => row_keys end;
     rows := timeline_rows |}.

Definition has_column (name : string) (df : DataFrame) : bool :=
  existsb (String.eqb name) (columns df).

(** [df[name]]: the values of a column, [KeyError] when it does not exist. *)
Definition column {A : Type} (name : string) (field : Row -> A) (df : DataFrame)
  : result (list A) :=
  if has_column name df then Ok (map field (rows df)) else Raise (KeyError name).

(** [Series.min()] and [Series.max()]: [nan] on an empty column. *)
Definition Series_min (values : list Q) : npfloat :=
  match values with
  | [] => NaN
  | v :: rest => Fin (fold_left py_min rest v)
  end.

Definition Series_max (values : list Q) : npfloat :=
  match values with
  | [] => NaN
  | v :: rest => Fin (fold_left py_max rest v)
  end.

(** [sort_values] is called with its default [kind]; what it is relied on for
    is that the rows come back reordered, ascending in the key column.  The
    order it leaves between rows of equal key is the sorting kind's own. *)
Class SortKind : Type := {
  reorder : list Row -> list Row;
  reorder_perm : forall l, Permutation l (reorder l);
  reorder_sorted :
    forall l, StronglySorted (fun a b => start_time a <= start_time b) (reorder l)
}.

(** ** Stable sorting

    Python's [list.sort()] is stable, and a stable sort has one possible
    result: it is given here by insertion.  An element goes in front of the
    first one that is not smaller than it, and the elements to its right
    were placed before it. *)

Section StableSort.

Context {A : Type} (lt : A -> A -> bool).

Fixpoint insert_sorted (x : A) (l : list A) : list A :=
  match l with
  | [] => [x]
  | y :: rest => if lt y x then y :: insert_sorted x rest else x :: l
  end.

Definition stable_sort (l : list A) : list A :=
  fold_right insert_sorted [] l.

End StableSort.

Definition interval : Type := (Q * Q)%type.

(** Tuples compare lexicographically: the first components decide unless
    they are equal. *)
Definition tuple_lt (a b : interval) : bool :=
  if Qeq_bool (fst a) (fst b) then Qltb (snd a) (snd b) else Qltb (fst a) (fst b).

(** [speech_intervals.sort()] *)
Definition list_sort (l : list interval) : list interval :=
  stable_sort tuple_lt l.

(** ** The analyzer *)

Record CallAnalyzer : Type := mkCallAnalyzer {
  conversation_data : list Segment;
  timeline_data : DataFrame
}.

Definition timeline_row (segment : Segment) : Row :=
  {| row_speaker := speaker segment;
     row_text := text segment;
     start_time := stime segment;
     end_time := etime segment;
     duration := etime segment - stime segment |}.

Definition _create_timeline (conversation : list Segment) : DataFrame :=
  pd_DataFrame (map timeline_row conversation).

(** [CallAnalyzer.__init__]: there is no path on which it raises. *)
Definition CallAnalyzer_init (conversation : list Segment) : result CallAnalyzer :=
  Ok {| conversation_data := conversation;
        timeline_data := _create_timeline conversation |}.

(** The body of the loop of [detect_overlaps] for one pair of rows: what it
    appends to [overlaps]. *)
Definition overlap_of (current next_segment : Row) : list Overlap :=
  if Qltb (start_time next_segment) (end_time current) then
    let overlap_start := py_max (start_time current) (start_time next_segment) in
    let overlap_end := py_min (end_time current) (end_time next_segment) in
    let overlap_duration := overlap_end - overlap_start in
    if Qltb 0 overlap_duration then
      [ {| o_start_time := overlap_start;
           o_end_time := overlap_end;
           o_duration := overlap_duration;
           speakers := [row_speaker current; row_speaker next_segment] |} ]
    else []
  else [].

(** One merging step of [detect_silences]: [merged_intervals[-1]] is
    replaced, or the interval is appended. *)
Definition merge_step (merged_intervals : list interval) (iv : interval)
  : list interval :=
  match rev merged_intervals with
  | last_iv :: front =>
      if Qle_bool (fst iv) (snd last_iv)
      then rev front ++ [(fst last_iv, py_max (snd last_iv) (snd iv))]
      else merged_intervals ++ [iv]
  | [] => merged_intervals ++ [iv]
  end.

Definition merge_intervals (speech_intervals : list interval) : list interval :=
  fold_left merge_step speech_intervals [].

Definition gap (from to : Q) : Silence :=
  {| s_start_time := from; s_end_time := to; s_duration := to - from |}.

(** The three checks of [detect_silences]; a comparison with [nan] is false. *)
Definition silence_before (call_start : npfloat) (merged_intervals : list interval)
  : list Silence :=
  match merged_intervals, call_start with
  | first_iv :: _, Fin c =>
      if Qltb c (fst first_iv) then [gap c (fst first_iv)] else []
  | _, _ => []
  end.

Definition silence_between (merged_intervals : list interval) (i : nat)
  : result (list Silence) :=
  current_iv <- getitem merged_intervals i;;
  next_iv <- getitem merged_intervals (i + 1);;
  let current_end := snd current_iv in
  let next_start := fst next_iv in
  Ok (if Qltb current_end next_start then [gap current_end next_start] else []).

Definition silence_after (merged_intervals : list interval) (call_end : npfloat)
  : list Silence :=
  match rev merged_intervals, call_end with
  | last_iv :: _, Fin c =>
      if Qltb (snd last_iv) c then [gap (snd last_iv) c] else []
  | _, _ => []
  end.

Record Metrics : Type := mkMetrics {
  total_duration : npfloat;
  total_overlap_time : npfloat;
  total_silence_time : npfloat;
  overlap_percentage : npfloat;
  silence_percentage : npfloat;
  agent_speaking_time : npfloat;
  customer_speaking_time : npfloat;
  agent_talk_percentage : npfloat;
  customer_talk_percentage : npfloat;
  overlaps : list Overlap;
  silences : list Silence;
  num_overlaps : nat;
  num_silences : nat
}.

Section Analyzer.

Context {kind : SortKind} {dtype : Dtype}.

(** [df.sort_values("start_time")] *)
Definition sort_values_start_time (df : DataFrame) : result DataFrame :=
  if has_column "start_time" df
  then Ok {| columns := columns df; rows := reorder (rows df) |}
  else Raise (KeyError "start_time").

Definition detect_overlaps (self : CallAnalyzer) : result (list Overlap) :=
  df <- sort_values_start_time (timeline_data self);;
  for_range
    (fun i =>
       current <- getitem (rows df) i;;
       next_segment <- getitem (rows df) (i + 1);;
       Ok (overlap_of current next_segment))
    (seq 0 (length (rows df) - 1)).

Definition detect_silences (self : CallAnalyzer) : result (list Silence) :=
  df <- sort_values_start_time (timeline_data self);;
  starts <- column "start_time" start_time df;;
  let call_start := Series_min starts in
  ends <- column "end_time" end_time df;;
  let call_end := Series_max ends in
  let speech_intervals := map (fun segment => (start_time segment, end_time segment)) (rows df) in
  let speech_intervals := list_sort speech_intervals in
  let merged_intervals := merge_intervals speech_intervals in
  between <- for_range (silence_between merged_intervals)
               (seq 0 (length merged_intervals - 1));;
  Ok (silence_before call_start merged_intervals
        ++ between
        ++ silence_after merged_intervals call_end).

(** [self.timeline_data[self.timeline_data["speaker"] == name]["duration"].sum()] *)
Definition speaking_time (name : string) (df : DataFrame) : result npfloat :=
  who <- column "speaker" row_speaker df;;
  let selected := filter (fun r => String.eqb (row_speaker r) name) (rows df) in
  durations <- column "duration" duration {| columns := columns df; rows := selected |};;
  Ok (Series_sum durations).

Definition calculate_metrics (self : CallAnalyzer) : result Metrics :=
  overlaps <- detect_overlaps self;;
  silences <- detect_silences self;;
  ends <- column "end_time" end_time (timeline_data self);;
  let total_call_duration := Series_max ends in
  let total_overlap_time := py_sum (map o_duration overlaps) in
  let total_silence_time := py_sum (map s_duration silences) in
  agent_time <- speaking_time "Agent" (timeline_data self);;
  customer_time <- speaking_time "Customer" (timeline_data self);;
  Ok {| total_duration := total_call_duration;
        total_overlap_time := total_overlap_time;
        total_silence_time := total_silence_time;
        overlap_percentage := np_times (np_truediv total_overlap_time total_call_duration) 100;
        silence_percentage := np_times (np_truediv total_silence_time total_call_duration) 100;
        agent_speaking_time := agent_time;
        customer_speaking_time := customer_time;
        agent_talk_percentage := np_times (np_truediv agent_time total_call_duration) 100;
        customer_talk_percentage := np_times (np_truediv customer_time total_call_duration) 100;
        overlaps := overlaps;
        silences := silences;
        num_overlaps := length overlaps;
        num_silences := length silences |}.

End Analyzer.

(** * Vocabulary of the properties *)

(** Rows compared by their [start_time]. *)
Definition start_lt (a b : Row) : bool := Qltb (start_time a) (start_time b).
Definition start_le (a b : Row) : Prop := start_time a <= start_time b.
Definition start_leb (a b : Row) : bool := Qle_bool (start_time a) (start_time b).

(** What a loop over [range(len(l) - 1)] that reads [l[i]] and [l[i + 1]]
    appends, by recursion on the list. *)
Fixpoint adjacent {A B : Type} (f : A -> A -> list B) (l : list A) : list B :=
  match l with
  | [] => []
  | a :: rest =>
      match rest with
      | [] => []
      | b :: _ => f a b ++ adjacent f rest
      end
  end.

(** Position [i] of [l] holds [a], and position [i + 1] holds [b]. *)
Definition consecutive {A : Type} (l : list A) (a b : A) : Prop :=
  exists i, nth_error l i = Some a /\ nth_error l (S i) = Some b.

(** The overlap that a pair of rows gives rise to, as a relation. *)
Definition overlap_between (current next_segment : Row) (o : Overlap) : Prop :=
  end_time current > start_time next_segment /\
  o_duration o > 0 /\
  o = {| o_start_time := py_max (start_time current) (start_time next_segment);
         o_end_time := py_min (end_time current) (end_time next_segment);
         o_duration := py_min (end_time current) (end_time next_segment)
                       - py_max (start_time current) (start_time next_segment);
         speakers := [row_speaker current; row_speaker next_segment] |}.

(** [o] was appended when the loop stood at the rows [current] and
    [next_segment] of the sorted frame. *)
Definition contributes (df : list Row) (current next_segment : Row) (o : Overlap)
  : Prop :=
  consecutive df current next_segment /\ In o (overlap_of current next_segment).

Definition overlap_le (o1 o2 : Overlap) : Prop := o_start_time o1 <= o_start_time o2.

(** The merging loop, by recursion on the intervals still to come, the
    running interval being [merged_intervals[-1]]. *)
Fixpoint merge_from (running : interval) (l : list interval) : list interval :=
  match l with
  | [] => [running]
  | iv :: rest =>
      if Qle_bool (fst iv) (snd running)
      then merge_from (fst running, py_max (snd running) (snd iv)) rest
      else running :: merge_from iv rest
  end.

(** The same as a relation: an interval is taken into the running one
    exactly when it starts no later than the running one ends. *)
Inductive merges : interval -> list interval -> list interval -> Prop :=
| merges_end running :
    merges running [] [running]
| merges_coalesce running iv rest out :
    fst iv <= snd running ->
    merges (fst running, py_max (snd running) (snd iv)) rest out ->
    merges running (iv :: rest) out
| merges_open running iv rest out :
    snd running < fst iv ->
    merges iv rest out ->
    merges running (iv :: rest) (running :: out).

Definition inside (iv : interval) (t : Q) : Prop := fst iv <= t /\ t <= snd iv.

(** Somebody speaks at [t]: [t] lies in one of the (closed) intervals. *)
Definition speaking (ivs : list interval) (t : Q) : Prop :=
  exists iv, In iv ivs /\ inside iv t.

(** [t] lies in one of the silences, the open gap between two stretches of
    speech. *)
Definition silent (found : list Silence) (t : Q) : Prop :=
  exists s, In s found /\ s_start_time s < t /\ t < s_end_time s.

Definition separated (a b : interval) : Prop := snd a < fst b.
Definition fst_le (a b : interval) : Prop := fst a <= fst b.
Definition well_formed (iv : interval) : Prop := fst iv <= snd iv.

Definition is_min (x : Q) (l : list Q) : Prop := In x l /\ forall y, In y l -> x <= y.
Definition is_max (x : Q) (l : list Q) : Prop := In x l /\ forall y, In y l -> y <= x.

(** What the loop over the merged intervals appends for one pair. *)
Definition gap_between (current_iv next_iv : interval) : list Silence :=
  if Qltb (snd current_iv) (fst next_iv)
  then [gap (snd current_iv) (fst next_iv)]
  else [].

Definition segment_interval (s : Segment) : interval := (stime s, etime s).
Definition row_interval (segment : Row) : interval :=
  (start_time segment, end_time segment).

(** The silences of the specification: the gap before the first merged
    interval, the gaps between consecutive ones, and the gap after the last. *)
Inductive reported (call_start call_end : Q) (merged : list interval)
  : Silence -> Prop :=
| reported_before first_iv rest :
    merged = first_iv :: rest ->
    fst first_iv > call_start ->
    reported call_start call_end merged (gap call_start (fst first_iv))
| reported_between current_iv next_iv :
    consecutive merged current_iv next_iv ->
    fst next_iv > snd current_iv ->
    reported call_start call_end merged (gap (snd current_iv) (fst next_iv))
| reported_after front last_iv :
    merged = front ++ [last_iv] ->
    snd last_iv < call_end ->
    reported call_start call_end merged (gap (snd last_iv) call_end).

(** The length of an interval. *)
Definition length_of (iv : interval) : Q := snd iv - fst iv.

(** The invariant of a call: no segment ends before it starts. *)
Definition ends_after_start (conversation : list Segment) : Prop :=
  forall s, In s conversation -> stime s <= etime s.

(** A whole number. *)
Definition whole (q : Q) : Prop := exists z : Z, q == inject_Z z.

(** The times of the call are whole numbers of seconds, from 0 to below
    [2^53]: values of int64 and of float64 alike. *)
Definition whole_seconds (conversation : list Segment) : Prop :=
  forall s, In s conversation ->
    exists a b : Z,
      (0 <= a)%Z /\ (b < 2 ^ 53)%Z /\ stime s == inject_Z a /\ etime s == inject_Z b.

(** The scalar [x] is the number [q]. *)
Definition is_number (x : npfloat) (q : Q) : Prop := exists v, x = Fin v /\ v == q.

(** [q] is a value of float64: rounding leaves it as it is. *)
Definition float64 (q : Q) : Prop := is_number (binary64 q) q.

(** No sum of some of the numbers of [l] falls outside the type. *)
Definition sums_exact {dtype : Dtype} (l : list Q) : Prop :=
  forall chosen, sublist chosen l -> representable (Qsum chosen).



(** The sum of two int64 is their sum modulo [2^64], taken between
    [-2^63] and [2^63 - 1]; so is the sum of a column. *)
Definition wrap64 (z : Z) : Z := ((z + 2 ^ 63) mod 2 ^ 64 - 2 ^ 63)%Z.

Definition int64_value (q : Q) : Prop :=
  exists z : Z, (- 2 ^ 63 <= z < 2 ^ 63)%Z /\ q == inject_Z z.

Definition int64_add (a b : npfloat) : npfloat :=
  match a, b with
  | Fin x, Fin y => Fin (inject_Z (wrap64 (Qfloor (x + y))))
  | _, _ => NaN
  end.

Definition int64_sum (values : list Q) : npfloat :=
  Fin (inject_Z (wrap64 (Qfloor (Qsum values)))).

Definition spoken_by (name : string) (s : Segment) : bool :=
  String.eqb (speaker s) name.

(** The call of the single segment [(Agent, 0, 0)]. *)
Definition degenerate_call : list Segment := [mkSegment "Agent" "" 0 0].

(** The analyzer that [CallAnalyzer.__init__] builds. *)
Definition analyzer_of (conversation : list Segment) : CallAnalyzer :=
  {| conversation_data := conversation;
     timeline_data := _create_timeline conversation |}.

(** The scenarios of the specification. *)
Definition scenario_A : list Segment :=
  [mkSegment "Agent" "" 0 5; mkSegment "Customer" "" 5 10].
Definition scenario_B : list Segment :=
  [mkSegment "Agent" "" 0 6; mkSegment "Customer" "" 4 10].
Definition scenario_C : list Segment :=
  [mkSegment "Agent" "" 0 3; mkSegment "Customer" "" 7 10].



(** Two segments that start together. *)
Definition tied_call : list Segment :=
  [mkSegment "Agent" "" 0 6; mkSegment "Customer" "" 0 10].

Section Frames.

Context {kind : SortKind}.

(** The rows of the frame that [sort_values] hands to the loops. *)
Definition sorted_rows (conversation : list Segment) : list Row :=
  reorder (map timeline_row conversation).

(** [speech_intervals] after [speech_intervals.sort()], and
    [merged_intervals] at the end of the merging loop. *)
Definition speech_intervals (conversation : list Segment) : list interval :=
  list_sort (map row_interval (sorted_rows conversation)).

Definition merged_speech (conversation : list Segment) : list interval :=
  merge_intervals (speech_intervals conversation).

End Frames.

(** * Properties *)

(** ** Comparisons *)

Lemma Qltb_lt (a b : Q) : Qltb a b = true <-> a < b.
Proof.
  unfold Qltb. rewrite negb_true_iff.
  split; intro H.
  - apply Qnot_le_lt. intro Hle. apply Qle_bool_iff in Hle. congruence.
  - destruct (Qle_bool b a) eqn:E; [|reflexivity].
    apply Qle_bool_iff in E. lra.
Qed.

Lemma Qltb_ge (a b : Q) : Qltb a b = false <-> b <= a.
Proof.
  unfold Qltb. rewrite negb_false_iff. apply Qle_bool_iff.
Qed.

Lemma Qle_bool_gt (a b : Q) : Qle_bool a b = false <-> b < a.
Proof.
  rewrite <- Qltb_lt. unfold Qltb.
  destruct (Qle_bool a b); simpl; split; congruence.
Qed.

Lemma Qeq_bool_false (a b : Q) : Qeq_bool a b = false <-> ~ a == b.
Proof.
  split.
  - intros H Heq. apply Qeq_bool_iff in Heq. congruence.
  - intro H. destruct (Qeq_bool a b) eqn:E; [|reflexivity].
    apply Qeq_bool_iff in E. contradiction.
Qed.

(** Turns every test of the code that occurs in the goal or in a hypothesis
    into the order fact it decides. *)
Ltac by_cases :=
  repeat match goal with
    | |- context [Qltb ?a ?b] =>
        let E := fresh "E" in
        destruct (Qltb a b) eqn:E;
        [apply Qltb_lt in E | apply Qltb_ge in E]
    | H : context [Qltb ?a ?b] |- _ =>
        let E := fresh "E" in
        destruct (Qltb a b) eqn:E;
        [apply Qltb_lt in E | apply Qltb_ge in E]
    | |- context [Qle_bool ?a ?b] =>
        let E := fresh "E" in
        destruct (Qle_bool a b) eqn:E;
        [apply Qle_bool_iff in E | apply Qle_bool_gt in E]
    | H : context [Qle_bool ?a ?b] |- _ =>
        let E := fresh "E" in
        destruct (Qle_bool a b) eqn:E;
        [apply Qle_bool_iff in E | apply Qle_bool_gt in E]
    | |- context [Qeq_bool ?a ?b] =>
        let E := fresh "E" in
        destruct (Qeq_bool a b) eqn:E;
        [apply Qeq_bool_iff in E | apply Qeq_bool_false in E]
    | H : context [Qeq_bool ?a ?b] |- _ =>
        let E := fresh "E" in
        destruct (Qeq_bool a b) eqn:E;
        [apply Qeq_bool_iff in E | apply Qeq_bool_false in E]
    end.

Lemma py_max_spec (a b : Q) :
  (a < b /\ py_max a b = b) \/ (b <= a /\ py_max a b = a).
Proof. unfold py_max. by_cases; [left | right]; split; auto. Qed.

Lemma py_min_spec (a b : Q) :
  (b < a /\ py_min a b = b) \/ (a <= b /\ py_min a b = a).
Proof. unfold py_min. by_cases; [left | right]; split; auto. Qed.

Lemma py_max_ub (a b : Q) : a <= py_max a b /\ b <= py_max a b.
Proof. destruct (py_max_spec a b) as [[H ->] | [H ->]]; lra. Qed.

Lemma py_min_lb (a b : Q) : py_min a b <= a /\ py_min a b <= b.
Proof. destruct (py_min_spec a b) as [[H ->] | [H ->]]; lra. Qed.

(** ** The stable sort orders and permutes *)

Section StableSortFacts.

Context {A : Type} (lt : A -> A -> bool) (le : A -> A -> Prop).
Hypothesis le_trans : forall a b c, le a b -> le b c -> le a c.
Hypothesis lt_le : forall a b, lt a b = true -> le a b.
Hypothesis not_lt_le : forall a b, lt a b = false -> le b a.

Lemma insert_sorted_perm (x : A) (l : list A) :
  Permutation (x :: l) (insert_sorted lt x l).
Proof.
  induction l as [|y rest IH]; simpl; [reflexivity|].
  destruct (lt y x); [|reflexivity].
  rewrite perm_swap. now constructor.
Qed.

Lemma stable_sort_perm (l : list A) : Permutation l (stable_sort lt l).
Proof.
  induction l as [|x l IH]; simpl; [constructor|].
  rewrite <- insert_sorted_perm. now constructor.
Qed.

Lemma insert_sorted_sorted (x : A) (l : list A) :
  StronglySorted le l -> StronglySorted le (insert_sorted lt x l).
Proof.
  induction l as [|y rest IH]; intro Hs; simpl.
  - repeat constructor.
  - inversion Hs as [|? ? Hrest Hy]; subst.
    destruct (lt y x) eqn:E.
    + constructor; [now apply IH|].
      rewrite <- insert_sorted_perm. constructor; auto.
    + constructor; [assumption|].
      constructor; [now apply not_lt_le|].
      eapply Forall_impl; [|exact Hy].
      intros z Hz. eapply le_trans; [|exact Hz]. now apply not_lt_le.
Qed.

Lemma stable_sort_sorted (l : list A) : StronglySorted le (stable_sort lt l).
Proof.
  induction l as [|x l IH]; simpl; [constructor|].
  now apply insert_sorted_sorted.
Qed.

End StableSortFacts.

(** ** Numbers of a column *)

Lemma binary64_comp (a b : Q) : a == b -> binary64 a = binary64 b.
Proof. intro H. unfold binary64. now rewrite (Qred_complete a b H). Qed.

Lemma sublist_refl {A : Type} (l : list A) : sublist l l.
Proof. induction l; constructor; assumption. Qed.

Lemma sublist_nil_l {A : Type} (l : list A) : sublist [] l.
Proof. induction l; constructor; assumption. Qed.

Lemma sublist_firstn {A : Type} (n : nat) (l : list A) : sublist (firstn n l) l.
Proof.
  revert n. induction l as [|x l IH]; intros [|n]; simpl.
  - constructor.
  - constructor.
  - apply sublist_nil_l.
  - apply sublist_take, IH.
Qed.

Lemma fold_np_add {dtype : Dtype} (l : list Q) (acc : Q) :
  (forall n, representable (acc + Qsum (firstn n l))) ->
  is_number (fold_left (fun total x => np_add total (Fin x)) l (Fin acc)) (acc + Qsum l).
Proof.
  revert acc. induction l as [|x l IH]; intros acc Hrep.
  - exists acc. split; [reflexivity|]. unfold Qsum. simpl. lra.
  - cbn [fold_left].
    destruct (np_add_exact acc x) as (v & Ev & Hv).
    { apply (representable_Qeq (acc + Qsum (firstn 1 (x :: l)))); [|apply Hrep].
      unfold Qsum. simpl. lra. }
    rewrite Ev. destruct (IH v) as (w & Ew & Hw).
    + intro n. apply (representable_Qeq (acc + Qsum (firstn (S n) (x :: l))));
        [|apply Hrep].
      unfold Qsum in *. simpl. rewrite Hv. lra.
    + exists w. split; [exact Ew|]. unfold Qsum in *. simpl. rewrite Hw, Hv. lra.
Qed.

Lemma py_sum_exact {dtype : Dtype} (l : list Q) :
  sums_exact l -> is_number (py_sum l) (Qsum l).
Proof.
  intro Hrep. destruct (fold_np_add l 0) as (v & Ev & Hv).
  - intro n. apply (representable_Qeq (Qsum (firstn n l))); [lra|].
    apply Hrep, sublist_firstn.
  - exists v. split; [exact Ev | lra].
Qed.

Lemma np_truediv_zero (x : npfloat) : is_number x 0 -> np_truediv x (Fin 0) = NaN.
Proof.
  intros (v & -> & Hv). unfold np_truediv, to_float64.
  rewrite (binary64_comp v 0 Hv). reflexivity.
Qed.


(** ** Rounding and whole numbers *)

Lemma round_half_even_le (x : Q) (n : Z) :
  x <= inject_Z n -> (round_half_even x <= n)%Z.
Proof.
  intro H. unfold round_half_even.
  pose proof (Qfloor_le x) as Hf.
  assert (Hfn : (Qfloor x <= n)%Z).
  { rewrite <- (Qfloor_Z n). now apply Qfloor_resp_le. }
  assert (Hup : 1 # 2 <= x - inject_Z (Qfloor x) -> (Qfloor x + 1 <= n)%Z).
  { intro Hhalf. destruct (Z.lt_ge_cases (Qfloor x) n) as [Hlt | Hge]; [lia|].
    exfalso. rewrite Zle_Qle in Hge. lra. }
  destruct (Qcompare_spec (x - inject_Z (Qfloor x)) (1 # 2)) as [E | E | E].
  - destruct (Z.even (Qfloor x)); [exact Hfn|]. apply Hup. rewrite E. lra.
  - exact Hfn.
  - apply Hup. lra.
Qed.

Lemma round_half_even_ge (x : Q) (n : Z) :
  inject_Z n <= x -> (n <= round_half_even x)%Z.
Proof.
  intro H. unfold round_half_even.
  assert (Hfn : (n <= Qfloor x)%Z).
  { rewrite <- (Qfloor_Z n). now apply Qfloor_resp_le. }
  destruct (Qcompare (x - inject_Z (Qfloor x)) (1 # 2));
    [destruct (Z.even (Qfloor x))| |]; lia.
Qed.

Lemma Qpower_2_pos (z : Z) : 0 < 2 ^ z.
Proof. apply Qpower_0_lt. reflexivity. Qed.

Lemma Qpower_2_Z (k : Z) : (0 <= k)%Z -> 2 ^ k == inject_Z (2 ^ k).
Proof. intro H. now rewrite (Zpower_Qpower 2 k H). Qed.

(** The exponent found for a positive number is not above it. *)
Lemma Qlog2_le (a : Q) : 0 < a -> 2 ^ Qlog2 a <= a.
Proof.
  intro Ha. unfold Qlog2.
  set (e := (Z.log2 (Qnum a) - Z.log2 (Z.pos (Qden a)))%Z).
  destruct (Qltb a (2 ^ e)) eqn:E.
  - destruct a as [n d]. cbn [Qnum Qden] in e.
    assert (Hn : (0 < n)%Z).
    { unfold Qlt in Ha. simpl in Ha. lia. }
    destruct (Z.log2_spec n Hn) as [Hn1 _].
    destruct (Z.log2_spec (Z.pos d) (Pos2Z.is_pos d)) as [_ Hd2].
    pose proof (Z.log2_nonneg n) as Hln.
    pose proof (Z.log2_nonneg (Z.pos d)) as Hld.
    replace (e - 1)%Z with (Z.log2 n - Z.succ (Z.log2 (Z.pos d)))%Z by (unfold e; lia).
    rewrite Qpower_minus by discriminate.
    rewrite (Qpower_2_Z _ Hln), (Qpower_2_Z (Z.succ _)) by lia.
    rewrite (Qmake_Qdiv n d).
    assert (Hpd : 0 < inject_Z (Z.pos d)) by reflexivity.
    assert (H2d : 0 < inject_Z (2 ^ Z.succ (Z.log2 (Z.pos d)))).
    { change 0 with (inject_Z 0). rewrite <- Zlt_Qlt. lia. }
    apply Qle_shift_div_l; [exact Hpd|].
    unfold Qdiv. rewrite <- Qmult_assoc, (Qmult_comm (/ _)), Qmult_assoc.
    apply Qle_shift_div_r; [exact H2d|].
    rewrite <- !inject_Z_mult, <- Zle_Qle. nia.
  - now apply Qltb_ge in E.
Qed.

(** A number between two whole numbers below [2^53] is rounded to a value
    between them: every whole number below [2^53] is a float64. *)
Lemma binary64_bounds (q : Q) (lo hi : Z) :
  (0 <= lo)%Z -> (hi < 2 ^ 53)%Z ->
  inject_Z lo <= q -> q <= inject_Z hi ->
  exists v, binary64 q = Fin v /\ inject_Z lo <= v /\ v <= inject_Z hi.
Proof.
  intros Hlo Hhi Hlq Hqh.
  assert (H0lo : 0 <= inject_Z lo).
  { change 0 with (inject_Z 0). now rewrite <- Zle_Qle. }
  unfold binary64.
  pose proof (Qred_correct q) as Hred. set (q' := Qred q) in *.
  destruct (Qeq_bool q' 0) eqn:Ez.
  - apply Qeq_bool_iff in Ez. exists 0. split; [reflexivity|]. lra.
  - apply Qeq_bool_neq in Ez.
    assert (Hpos : 0 < q') by lra.
    assert (Ha : Qabs q' == q') by (apply Qabs_pos; lra).
    set (a := Qabs q') in *.
    assert (Hapos : 0 < a) by lra.
    pose proof (Qlog2_le a Hapos) as Hlog.
    assert (Hh53 : inject_Z hi < 2 ^ 53).
    { change (2 ^ 53) with (inject_Z (2 ^ 53)). now rewrite <- Zlt_Qlt. }
    assert (He : (Qlog2 a <= 52)%Z).
    { destruct (Z.le_gt_cases (Qlog2 a) 52) as [H | H]; [exact H|]. exfalso.
      assert (2 ^ 53 <= 2 ^ Qlog2 a) by (apply Qpower_le_compat_l; [lia | lra]).
      lra. }
    set (u := (Z.max (Qlog2 a) (-1022) - 52)%Z).
    assert (Hu : (u <= 0)%Z) by (unfold u; lia).
    set (k := (- u)%Z).
    assert (Hk : (0 <= k)%Z) by (unfold k; lia).
    set (S := (2 ^ k)%Z).
    assert (HS : (0 < S)%Z) by (unfold S; apply Z.pow_pos_nonneg; lia).
    assert (HSq : 0 < inject_Z S).
    { change 0 with (inject_Z 0). now rewrite <- Zlt_Qlt. }
    assert (Hulp : 2 ^ u == / inject_Z S).
    { replace u with (- k)%Z by (unfold k; lia).
      rewrite Qpower_opp, (Qpower_2_Z k Hk). reflexivity. }
    set (x := a / 2 ^ u).
    assert (Hx : x == a * inject_Z S).
    { unfold x. rewrite Hulp. field. lra. }
    set (m := round_half_even x).
    assert (Hm1 : (lo * S <= m)%Z).
    { apply round_half_even_ge. rewrite Hx, inject_Z_mult.
      apply Qmult_le_compat_r; lra. }
    assert (Hm2 : (m <= hi * S)%Z).
    { apply round_half_even_le. rewrite Hx, inject_Z_mult.
      apply Qmult_le_compat_r; lra. }
    rewrite Zle_Qle, inject_Z_mult in Hm1, Hm2.
    set (v := Qred (inject_Z m * 2 ^ u)).
    assert (Hv : v == inject_Z m / inject_Z S).
    { unfold v. rewrite Qred_correct, Hulp. reflexivity. }
    assert (Hv1 : inject_Z lo <= v).
    { rewrite Hv. apply Qle_shift_div_l; assumption. }
    assert (Hv2 : v <= inject_Z hi).
    { rewrite Hv. apply Qle_shift_div_r; assumption. }
    assert (Hbig : Qle_bool (2 ^ 1024) v = false).
    { destruct (Qle_bool (2 ^ 1024) v) eqn:E; [|reflexivity].
      apply Qle_bool_iff in E.
      assert (2 ^ 53 <= 2 ^ 1024) by (apply Qpower_le_compat_l; [lia | lra]).
      lra. }
    rewrite Hbig.
    assert (Hsign : Qltb 0 q' = true) by (now apply Qltb_lt).
    rewrite Hsign. exists v. auto.
Qed.

Lemma binary64_whole (q : Q) (z : Z) :
  (0 <= z < 2 ^ 53)%Z -> q == inject_Z z -> float64 q.
Proof.
  intros [Hz1 Hz2] Hq.
  destruct (binary64_bounds q z z Hz1 Hz2) as (v & Ev & Hv1 & Hv2); try lra.
  exists v. split; [exact Ev | lra].
Qed.

(** ** int64 meets what is asked of a type *)

Lemma wrap64_small (z : Z) : (- 2 ^ 63 <= z < 2 ^ 63)%Z -> wrap64 z = z.
Proof. intro H. unfold wrap64. rewrite Z.mod_small; lia. Qed.

Lemma int64_exact (q : Q) :
  int64_value q -> inject_Z (wrap64 (Qfloor q)) == q.
Proof.
  intros (z & Hz & Hq). rewrite (Qfloor_comp _ _ Hq), Qfloor_Z, wrap64_small by exact Hz.
  now symmetry.
Qed.

Definition int64 : Dtype.
Proof.
  refine {| representable := int64_value;
            np_add := int64_add;
            Series_sum := int64_sum |}.
  - intros a b Hab (z & Hz & Ha). exists z. split; [exact Hz|]. now rewrite <- Hab.
  - intros z Hz. exists z. split; [lia | reflexivity].
  - intros a b Hrep. eexists. split; [reflexivity|]. now apply int64_exact.
  - intros values Hrep. eexists. split; [reflexivity|].
    apply int64_exact, Hrep, sublist_refl.
Defined.

(** ** Sorting kinds that meet the contract of [sort_values] *)

Lemma start_le_trans (a b c : Row) : start_le a b -> start_le b c -> start_le a c.
Proof. unfold start_le. intros. lra. Qed.

(** [kind="stable"]: rows of equal [start_time] keep their order. *)
Definition stable_kind : SortKind.
Proof.
  refine {| reorder := stable_sort start_lt |}.
  - apply stable_sort_perm.
  - apply (stable_sort_sorted start_lt start_le start_le_trans);
      unfold start_lt, start_le; intros a b H; by_cases; try discriminate; lra.
Defined.

(** A kind that is as good for the contract and turns rows of equal
    [start_time] around. *)
Definition reversing_kind : SortKind.
Proof.
  refine {| reorder := stable_sort start_leb |}.
  - apply stable_sort_perm.
  - apply (stable_sort_sorted start_leb start_le start_le_trans);
      unfold start_leb, start_le; intros a b H; by_cases; try discriminate; lra.
Defined.

(** ** Loops over adjacent positions *)

Lemma getitem_app_here {A : Type} (pre : list A) (a : A) (post : list A) :
  getitem (pre ++ a :: post) (length pre) = Ok a.
Proof.
  unfold getitem. rewrite nth_error_app2 by lia.
  rewrite Nat.sub_diag. reflexivity.
Qed.

Lemma getitem_app_next {A : Type} (pre : list A) (a b : A) (post : list A) :
  getitem (pre ++ a :: b :: post) (length pre + 1) = Ok b.
Proof.
  unfold getitem. rewrite nth_error_app2 by lia.
  replace (length pre + 1 - length pre)%nat with 1%nat by lia. reflexivity.
Qed.

Lemma pairs_loop_from {A B : Type} (f : A -> A -> list B) (l pre : list A) :
  for_range
    (fun i =>
       current <- getitem (pre ++ l) i;;
       next_one <- getitem (pre ++ l) (i + 1);;
       Ok (f current next_one))
    (seq (length pre) (length l - 1))
  = Ok (adjacent f l).
Proof.
  revert pre. induction l as [|a rest IH]; intro pre; [reflexivity|].
  destruct rest as [|b rest]; [reflexivity|].
  replace (length (a :: b :: rest) - 1)%nat with (S (length rest)) by (simpl; lia).
  cbn [seq for_range].
  rewrite getitem_app_here, getitem_app_next. cbn [bind].
  specialize (IH (pre ++ [a])).
  rewrite <- app_assoc, length_app in IH. cbn [app length] in IH.
  replace (length pre + 1)%nat with (S (length pre)) in IH by lia.
  replace (S (length rest) - 1)%nat with (length rest)%nat in IH by lia.
  rewrite IH. reflexivity.
Qed.

Lemma pairs_loop {A B : Type} (f : A -> A -> list B) (l : list A) :
  for_range
    (fun i =>
       current <- getitem l i;;
       next_one <- getitem l (i + 1);;
       Ok (f current next_one))
    (seq 0 (length l - 1))
  = Ok (adjacent f l).
Proof. exact (pairs_loop_from f l []). Qed.

Lemma consecutive_cons {A : Type} (x : A) (l : list A) (a b : A) :
  consecutive l a b -> consecutive (x :: l) a b.
Proof. intros [i [Ha Hb]]. exists (S i). auto. Qed.

Lemma consecutive_inv {A : Type} (x y : A) (l : list A) (a b : A) :
  consecutive (x :: y :: l) a b ->
  (a = x /\ b = y) \/ consecutive (y :: l) a b.
Proof.
  intros [[|i] [Ha Hb]]; simpl in *.
  - left. split; congruence.
  - right. exists i. auto.
Qed.

Lemma consecutive_In {A : Type} (l : list A) (a b : A) :
  consecutive l a b -> In a l /\ In b l.
Proof. intros [i [Ha Hb]]. split; eapply nth_error_In; eassumption. Qed.

Lemma in_adjacent {A B : Type} (f : A -> A -> list B) (l : list A) (y : B) :
  In y (adjacent f l) <-> exists a b, consecutive l a b /\ In y (f a b).
Proof.
  induction l as [|x rest IH]; simpl.
  - split; [intros []|]. intros (a & b & [[|i] [Ha _]] & _); discriminate.
  - destruct rest as [|x' rest].
    + split; [intros []|]. intros (a & b & [[|[|i]] [Ha Hb]] & _); discriminate.
    + rewrite in_app_iff, IH. split.
      * intros [H | (a & b & Hc & H)].
        -- exists x, x'. split; [exists 0%nat; auto | exact H].
        -- exists a, b. split; [now apply consecutive_cons | exact H].
      * intros (a & b & Hc & H).
        destruct (consecutive_inv _ _ _ _ _ Hc) as [[-> ->] | Hc']; [now left|].
        right. exists a, b. auto.
Qed.

(** ** Overlaps *)

Lemma overlap_of_spec (current next_segment : Row) (o : Overlap) :
  In o (overlap_of current next_segment) <-> overlap_between current next_segment o.
Proof.
  unfold overlap_of, overlap_between. cbv zeta.
  destruct (Qltb (start_time next_segment) (end_time current)) eqn:E1.
  - apply Qltb_lt in E1.
    destruct (Qltb 0 _) eqn:E2.
    + apply Qltb_lt in E2. split.
      * intros [<- | []]. simpl. auto.
      * intros (_ & _ & ->). now left.
    + apply Qltb_ge in E2. split; [intros []|].
      intros (_ & H2 & ->). simpl in H2. lra.
  - apply Qltb_ge in E1. split; [intros []|].
    intros (H1 & _). lra.
Qed.

Lemma overlap_crosses (current next_segment : Row) (o : Overlap) :
  In o (overlap_of current next_segment) ->
  start_time next_segment < end_time current /\
  start_time current < end_time next_segment.
Proof.
  intro H. apply overlap_of_spec in H. destruct H as (H1 & H2 & ->). simpl in H2.
  pose proof (py_max_ub (start_time current) (start_time next_segment)).
  pose proof (py_min_lb (end_time current) (end_time next_segment)).
  lra.
Qed.

Lemma overlap_shorter (current next_segment : Row) (o : Overlap) :
  In o (overlap_of current next_segment) ->
  o_duration o <= end_time current - start_time current /\
  o_duration o <= end_time next_segment - start_time next_segment.
Proof.
  intro H. apply overlap_of_spec in H. destruct H as (H1 & H2 & ->). simpl.
  pose proof (py_max_ub (start_time current) (start_time next_segment)).
  pose proof (py_min_lb (end_time current) (end_time next_segment)).
  lra.
Qed.

Lemma overlap_starts_with_next (current next_segment : Row) (o : Overlap) :
  start_le current next_segment ->
  In o (overlap_of current next_segment) ->
  o_start_time o == start_time next_segment.
Proof.
  unfold start_le. intros Hle H.
  apply overlap_of_spec in H. destruct H as (_ & _ & ->). simpl.
  destruct (py_max_spec (start_time current) (start_time next_segment))
    as [[? ->] | [? ->]]; lra.
Qed.

Lemma overlap_of_at_most_one (current next_segment : Row) :
  overlap_of current next_segment = [] \/
  exists o, overlap_of current next_segment = [o].
Proof.
  unfold overlap_of. cbv zeta.
  destruct (Qltb _ _); [|now left].
  destruct (Qltb _ _); [right; eexists; reflexivity | now left].
Qed.

Lemma adjacent_overlaps_after (a : Row) (l : list Row) (o : Overlap) :
  StronglySorted start_le (a :: l) ->
  In o (adjacent overlap_of (a :: l)) ->
  start_time a <= o_start_time o.
Proof.
  revert a. induction l as [|b rest IH]; intros a Hs Hin; [destruct Hin|].
  inversion Hs as [|? ? Hrest Hall]; subst.
  inversion Hall as [|? ? Hab _]; subst. unfold start_le in Hab.
  cbn [adjacent] in Hin. apply in_app_iff in Hin. destruct Hin as [Hin | Hin].
  - rewrite (overlap_starts_with_next a b o Hab Hin). exact Hab.
  - specialize (IH b Hrest Hin). lra.
Qed.

Lemma adjacent_overlaps_ascending (l : list Row) :
  StronglySorted start_le l -> StronglySorted overlap_le (adjacent overlap_of l).
Proof.
  induction l as [|a rest IH]; intro Hs; [constructor|].
  destruct rest as [|b rest]; [constructor|].
  inversion Hs as [|? ? Hrest Hall]; subst.
  inversion Hall as [|? ? Hab _]; subst.
  cbn [adjacent].
  destruct (overlap_of_at_most_one a b) as [E | [o E]].
  - rewrite E. now apply IH.
  - rewrite E. cbn [app]. constructor; [now apply IH|].
    apply Forall_forall. intros o' Hin. unfold overlap_le.
    assert (Ho : In o (overlap_of a b)) by (rewrite E; now left).
    rewrite (overlap_starts_with_next a b o Hab Ho).
    now apply adjacent_overlaps_after with (l := rest).
Qed.

Section AnalyzerFacts.

Context {kind : SortKind}.

Lemma sort_values_found (conversation : list Segment) :
  conversation <> [] ->
  sort_values_start_time (_create_timeline conversation)
  = Ok {| columns := row_keys; rows := sorted_rows conversation |}.
Proof. destruct conversation; [congruence | reflexivity]. Qed.

Lemma sort_values_missing :
  sort_values_start_time (_create_timeline []) = Raise (KeyError "start_time").
Proof. reflexivity. Qed.

Lemma detect_overlaps_found (conversation : list Segment) (self : CallAnalyzer) :
  conversation <> [] ->
  CallAnalyzer_init conversation = Ok self ->
  detect_overlaps self = Ok (adjacent overlap_of (sorted_rows conversation)).
Proof.
  intros Hne Hinit. injection Hinit as <-.
  unfold detect_overlaps. cbn [timeline_data].
  rewrite (sort_values_found conversation Hne). cbn [bind rows].
  apply pairs_loop.
Qed.

Lemma sorted_rows_perm (conversation : list Segment) :
  Permutation (map timeline_row conversation) (sorted_rows conversation).
Proof. apply reorder_perm. Qed.

Lemma sorted_rows_sorted (conversation : list Segment) :
  StronglySorted start_le (sorted_rows conversation).
Proof. apply reorder_sorted. Qed.

Lemma sorted_rows_In (conversation : list Segment) (r : Row) :
  In r (sorted_rows conversation) <->
  exists s, In s conversation /\ r = timeline_row s.
Proof.
  split.
  - intro H. apply (Permutation_in _ (Permutation_sym (sorted_rows_perm conversation))) in H.
    apply in_map_iff in H. destruct H as (s & <- & Hs). eauto.
  - intros (s & Hs & ->).
    apply (Permutation_in _ (sorted_rows_perm conversation)).
    now apply in_map.
Qed.

End AnalyzerFacts.

(** ** Merging the speech intervals *)

Lemma merge_fold (l done : list interval) (running : interval) :
  fold_left merge_step l (done ++ [running]) = done ++ merge_from running l.
Proof.
  revert done running. induction l as [|iv rest IH]; intros done running; [reflexivity|].
  cbn [fold_left merge_from]. unfold merge_step at 2.
  rewrite rev_app_distr. cbn [rev app].
  destruct (Qle_bool (fst iv) (snd running)).
  - rewrite rev_involutive. apply IH.
  - rewrite IH, <- app_assoc. reflexivity.
Qed.

Lemma merge_intervals_cons (x : interval) (l : list interval) :
  merge_intervals (x :: l) = merge_from x l.
Proof. exact (merge_fold l [] x). Qed.

Lemma merge_from_merges (running : interval) (l : list interval) :
  merges running l (merge_from running l).
Proof.
  revert running. induction l as [|iv rest IH]; intro running; cbn [merge_from].
  - constructor.
  - destruct (Qle_bool (fst iv) (snd running)) eqn:E.
    + apply merges_coalesce; [now apply Qle_bool_iff | apply IH].
    + apply merges_open; [now apply Qle_bool_gt | apply IH].
Qed.

Lemma merges_unique (running : interval) (l out1 out2 : list interval) :
  merges running l out1 -> merges running l out2 -> out1 = out2.
Proof.
  intro H. revert out2. induction H; intros out2 H2; inversion H2; subst;
    try reflexivity; try lra; auto.
  f_equal. auto.
Qed.

Lemma merges_head (running : interval) (l out : list interval) :
  merges running l out ->
  exists e rest, out = (fst running, e) :: rest.
Proof.
  induction 1 as [running | running iv rest out Hle H IH | running iv rest out Hlt H IH].
  - exists (snd running), []. now destruct running.
  - exact IH.
  - exists (snd running), out. now destruct running.
Qed.

(** Every merged interval starts where one of the intervals starts, and ends
    where one of them ends. *)
Lemma merges_endpoints (running : interval) (l out : list interval) :
  merges running l out ->
  forall m, In m out ->
    In (fst m) (map fst (running :: l)) /\ In (snd m) (map snd (running :: l)).
Proof.
  induction 1 as [running | running iv rest out Hle H IH | running iv rest out Hlt H IH];
    intros m Hm.
  - destruct Hm as [<- | []]. simpl. auto.
  - destruct (IH m Hm) as [Hf Hs]. cbn [map fst snd In] in *. split.
    + tauto.
    + destruct Hs as [Hs | Hs]; [|tauto].
      rewrite <- Hs.
      destruct (py_max_spec (snd running) (snd iv)) as [[_ ->] | [_ ->]]; auto.
  - destruct Hm as [<- | Hm]; [simpl; auto|].
    destruct (IH m Hm) as [Hf Hs]. cbn [map In] in *. tauto.
Qed.

Lemma merges_starts (running : interval) (l out : list interval) :
  StronglySorted fst_le (running :: l) ->
  merges running l out ->
  Forall (fst_le running) out.
Proof.
  intros Hs H. apply Forall_forall. intros m Hm.
  destruct (merges_endpoints _ _ _ H m Hm) as [Hf _].
  inversion Hs as [|? ? _ Hall]; subst.
  cbn [map In] in Hf. destruct Hf as [Hf | Hf].
  - unfold fst_le. rewrite <- Hf. apply Qle_refl.
  - apply in_map_iff in Hf. destruct Hf as (iv & E & Hiv).
    rewrite Forall_forall in Hall. specialize (Hall iv Hiv).
    unfold fst_le in *. rewrite <- E. exact Hall.
Qed.

Lemma sorted_coalesce (running iv : interval) (e : Q) (rest : list interval) :
  StronglySorted fst_le (running :: iv :: rest) ->
  StronglySorted fst_le ((fst running, e) :: rest).
Proof.
  intro Hs. inversion Hs as [|? ? Hrest Hall]; subst.
  inversion Hrest; subst. inversion Hall; subst.
  constructor; assumption.
Qed.

(** Merged intervals are strictly apart, each from all the later ones. *)
Lemma merges_separated (running : interval) (l out : list interval) :
  StronglySorted fst_le (running :: l) ->
  merges running l out ->
  StronglySorted separated out.
Proof.
  intros Hs H. revert Hs.
  induction H as [running | running iv rest out Hle H IH | running iv rest out Hlt H IH];
    intro Hs.
  - repeat constructor.
  - apply IH. eapply sorted_coalesce; eassumption.
  - inversion Hs as [|? ? Hrest _]; subst.
    constructor; [now apply IH|].
    eapply Forall_impl; [|exact (merges_starts _ _ _ Hrest H)].
    unfold fst_le, separated. intros m Hm. lra.
Qed.

(** The merged intervals cover exactly the moments of speech. *)
Lemma merges_covers (running : interval) (l out : list interval) :
  StronglySorted fst_le (running :: l) ->
  merges running l out ->
  forall t, speaking (running :: l) t <-> speaking out t.
Proof.
  intros Hs H. revert Hs.
  induction H as [running | running iv rest out Hle H IH | running iv rest out Hlt H IH];
    intros Hs t.
  - reflexivity.
  - rewrite <- (IH (sorted_coalesce _ _ _ _ Hs)).
    inversion Hs as [|? ? _ Hall]; subst. inversion Hall as [|? ? Hri _]; subst.
    unfold fst_le in Hri.
    pose proof (py_max_ub (snd running) (snd iv)) as [Hub1 Hub2].
    unfold speaking, inside. split.
    + intros (x & [<- | [<- | Hx]] & Hin).
      * eexists. split; [left; reflexivity|]. simpl. lra.
      * eexists. split; [left; reflexivity|]. simpl. lra.
      * exists x. split; [now right | exact Hin].
    + intros (x & [<- | Hx] & Hin).
      * simpl in Hin.
        destruct (py_max_spec (snd running) (snd iv)) as [[Hlt E] | [Hge E]];
          rewrite E in Hin.
        -- destruct (Qlt_le_dec (snd running) t).
           ++ exists iv. split; [right; now left | lra].
           ++ exists running. split; [now left | lra].
        -- exists running. split; [now left | lra].
      * exists x. split; [right; now right | exact Hin].
  - inversion Hs as [|? ? Hrest _]; subst.
    specialize (IH Hrest t).
    unfold speaking in *. split.
    + intros (x & [<- | Hx] & Hin).
      * exists running. split; [now left | exact Hin].
      * destruct (proj1 IH (ex_intro _ x (conj Hx Hin))) as (m & Hm & Hmin).
        exists m. split; [now right | exact Hmin].
    + intros (m & [<- | Hm] & Hin).
      * exists running. split; [now left | exact Hin].
      * destruct (proj2 IH (ex_intro _ m (conj Hm Hin))) as (x & Hx & Hxin).
        exists x. split; [now right | exact Hxin].
Qed.

Lemma merges_well_formed (running : interval) (l out : list interval) :
  Forall well_formed (running :: l) ->
  merges running l out ->
  Forall well_formed out.
Proof.
  intros Hwf H. revert Hwf.
  induction H as [running | running iv rest out Hle H IH | running iv rest out Hlt H IH];
    intro Hwf.
  - exact Hwf.
  - apply IH. inversion Hwf as [|? ? Hr Hl]; subst. inversion Hl; subst.
    constructor; [|assumption].
    unfold well_formed in *. simpl.
    pose proof (py_max_ub (snd running) (snd iv)). lra.
  - inversion Hwf as [|? ? Hr Hl]; subst.
    constructor; [assumption | now apply IH].
Qed.

(** ** [list.sort()] orders the intervals by their start *)

Lemma tuple_lt_fst_le (a b : interval) : tuple_lt a b = true -> fst_le a b.
Proof. unfold tuple_lt, fst_le. intro H. by_cases; try discriminate; lra. Qed.

Lemma tuple_not_lt_fst_le (a b : interval) : tuple_lt a b = false -> fst_le b a.
Proof. unfold tuple_lt, fst_le. intro H. by_cases; try discriminate; lra. Qed.

Lemma fst_le_trans (a b c : interval) : fst_le a b -> fst_le b c -> fst_le a c.
Proof. unfold fst_le. intros. lra. Qed.

Lemma list_sort_perm (l : list interval) : Permutation l (list_sort l).
Proof. apply stable_sort_perm. Qed.

Lemma list_sort_sorted (l : list interval) : StronglySorted fst_le (list_sort l).
Proof.
  apply (stable_sort_sorted tuple_lt fst_le fst_le_trans
           tuple_lt_fst_le tuple_not_lt_fst_le).
Qed.

(** ** Minimum and maximum of a column *)

Lemma fold_py_min (rest : list Q) (v : Q) : is_min (fold_left py_min rest v) (v :: rest).
Proof.
  revert v. induction rest as [|a rest IH]; intro v; cbn [fold_left].
  - split; [now left|]. intros y [<- | []]. apply Qle_refl.
  - destruct (IH (py_min v a)) as [Hin Hle]. split.
    + destruct Hin as [Hin | Hin]; [|right; now right].
      rewrite <- Hin. destruct (py_min_spec v a) as [[_ ->] | [_ ->]]; simpl; auto.
    + intros y Hy. pose proof (py_min_lb v a) as [Hv Ha].
      pose proof (Hle (py_min v a) (or_introl eq_refl)) as Hm.
      destruct Hy as [<- | [<- | Hy]]; [lra | lra |].
      apply Hle. now right.
Qed.

Lemma fold_py_max (rest : list Q) (v : Q) : is_max (fold_left py_max rest v) (v :: rest).
Proof.
  revert v. induction rest as [|a rest IH]; intro v; cbn [fold_left].
  - split; [now left|]. intros y [<- | []]. apply Qle_refl.
  - destruct (IH (py_max v a)) as [Hin Hle]. split.
    + destruct Hin as [Hin | Hin]; [|right; now right].
      rewrite <- Hin. destruct (py_max_spec v a) as [[_ ->] | [_ ->]]; simpl; auto.
    + intros y Hy. pose proof (py_max_ub v a) as [Hv Ha].
      pose proof (Hle (py_max v a) (or_introl eq_refl)) as Hm.
      destruct Hy as [<- | [<- | Hy]]; [lra | lra |].
      apply Hle. now right.
Qed.

Lemma is_min_perm (x : Q) (l l' : list Q) :
  Permutation l l' -> is_min x l -> is_min x l'.
Proof.
  intros Hp [Hin Hle]. split.
  - eapply Permutation_in; eassumption.
  - intros y Hy. apply Hle. eapply Permutation_in; [symmetry|]; eassumption.
Qed.

Lemma is_max_perm (x : Q) (l l' : list Q) :
  Permutation l l' -> is_max x l -> is_max x l'.
Proof.
  intros Hp [Hin Hle]. split.
  - eapply Permutation_in; eassumption.
  - intros y Hy. apply Hle. eapply Permutation_in; [symmetry|]; eassumption.
Qed.

Lemma Series_min_found (values : list Q) :
  values <> [] -> exists c, Series_min values = Fin c /\ is_min c values.
Proof.
  destruct values as [|v rest]; [congruence|]. intros _.
  eexists. split; [reflexivity | apply fold_py_min].
Qed.

Lemma Series_max_found (values : list Q) :
  values <> [] -> exists c, Series_max values = Fin c /\ is_max c values.
Proof.
  destruct values as [|v rest]; [congruence|]. intros _.
  eexists. split; [reflexivity | apply fold_py_max].
Qed.

(** ** Gaps between merged intervals *)

Lemma gaps_loop (merged_intervals : list interval) :
  for_range (silence_between merged_intervals)
    (seq 0 (length merged_intervals - 1))
  = Ok (adjacent gap_between merged_intervals).
Proof. exact (pairs_loop gap_between merged_intervals). Qed.

Lemma in_gaps (l : list interval) (s : Silence) :
  In s (adjacent gap_between l) <->
  exists a b, consecutive l a b /\ snd a < fst b /\ s = gap (snd a) (fst b).
Proof.
  rewrite in_adjacent. unfold gap_between.
  split; intros (a & b & Hc & H); exists a, b; (split; [exact Hc|]).
  - destruct (Qltb (snd a) (fst b)) eqn:E; [|destruct H].
    apply Qltb_lt in E. destruct H as [<- | []]. auto.
  - destruct H as [Hlt ->]. apply Qltb_lt in Hlt. rewrite Hlt. now left.
Qed.

Lemma last_cons {A : Type} (rest : list A) (x y : A) :
  last (y :: rest) x = last rest y.
Proof.
  revert x y. induction rest as [|z rest IH]; intros x y; [reflexivity|].
  change (last (y :: z :: rest) x) with (last (z :: rest) x).
  rewrite (IH x z). symmetry. apply IH.
Qed.

Lemma last_In {A : Type} (rest : list A) (x : A) : In (last rest x) (x :: rest).
Proof.
  revert x. induction rest as [|y rest IH]; intro x; [now left|].
  rewrite last_cons. right. apply IH.
Qed.

Lemma chain_bounds (x : interval) (rest : list interval) :
  StronglySorted separated (x :: rest) ->
  Forall well_formed (x :: rest) ->
  forall m, In m (x :: rest) -> fst x <= fst m /\ snd m <= snd (last rest x).
Proof.
  revert x. induction rest as [|y rest IH]; intros x Hs Hwf m Hm.
  - destruct Hm as [<- | []]. simpl. lra.
  - inversion Hs as [|? ? Hrest Hall]; subst.
    inversion Hwf as [|? ? Hx Hwfr]; subst.
    inversion Hall as [|? ? Hxy _]; subst.
    assert (Hy : fst y <= fst y /\ snd y <= snd (last rest y))
      by (apply IH; auto; now left).
    unfold separated, well_formed in *.
    rewrite last_cons.
    destruct Hm as [<- | Hm].
    + inversion Hwfr; subst. unfold well_formed in *. lra.
    + destruct (IH y Hrest Hwfr m Hm). lra.
Qed.

(** Between the start of the first merged interval and the end of the last,
    every moment is one of speech or lies in a gap. *)
Lemma chain_cover (x : interval) (rest : list interval) (t : Q) :
  fst x <= t -> t <= snd (last rest x) ->
  speaking (x :: rest) t \/ silent (adjacent gap_between (x :: rest)) t.
Proof.
  revert x. induction rest as [|y rest IH]; intros x Hlo Hhi.
  - left. exists x. split; [now left | split; assumption].
  - rewrite last_cons in Hhi.
    destruct (Qlt_le_dec (snd x) t) as [Hout | Hin].
    + destruct (Qlt_le_dec t (fst y)) as [Hbefore | Hafter].
      * right. exists (gap (snd x) (fst y)). split; [|simpl; auto].
        apply in_gaps. exists x, y. split; [exists 0%nat; auto|].
        split; [lra | reflexivity].
      * destruct (IH y Hafter Hhi) as [(m & Hm & Hmin) | (s & Hs & Hsin)].
        -- left. exists m. split; [now right | exact Hmin].
        -- right. exists s. split; [|exact Hsin].
           cbn [adjacent]. apply in_app_iff. now right.
    + left. exists x. split; [now left | split; assumption].
Qed.

(** The lengths of the merged intervals and of the gaps between them add up
    to the distance from the start of the first to the end of the last. *)
Lemma chain_measure (x : interval) (rest : list interval) :
  StronglySorted separated (x :: rest) ->
  Qsum (map length_of (x :: rest))
  + Qsum (map s_duration (adjacent gap_between (x :: rest)))
  == snd (last rest x) - fst x.
Proof.
  revert x. induction rest as [|y rest IH]; intros x Hs.
  - unfold length_of, Qsum. cbn [map fold_right adjacent last]. lra.
  - inversion Hs as [|? ? Hrest Hall]; subst.
    inversion Hall as [|? ? Hxy _]; subst. unfold separated in Hxy.
    specialize (IH y Hrest). rewrite last_cons.
    change (adjacent gap_between (x :: y :: rest))
      with (gap_between x y ++ adjacent gap_between (y :: rest)).
    unfold gap_between at 1.
    apply Qltb_lt in Hxy. rewrite Hxy. cbn [app].
    change (Qsum (map length_of (x :: y :: rest)))
      with (length_of x + Qsum (map length_of (y :: rest))).
    change (Qsum (map s_duration (gap (snd x) (fst y) :: adjacent gap_between (y :: rest))))
      with ((fst y - snd x) + Qsum (map s_duration (adjacent gap_between (y :: rest)))).
    unfold length_of at 1. lra.
Qed.

(** No moment of speech lies in a gap. *)
Lemma chain_exclusive (l : list interval) (t : Q) (m a b : interval) :
  StronglySorted separated l ->
  Forall well_formed l ->
  In m l -> inside m t ->
  consecutive l a b -> snd a < t -> t < fst b ->
  False.
Proof.
  intros Hs Hwf Hm [Hm1 Hm2] Hc Ha Hb.
  induction l as [|x rest IH]; [destruct Hm|].
  inversion Hs as [|? ? Hrest Hall]; subst.
  inversion Hwf as [|? ? Hx Hwfr]; subst.
  rewrite Forall_forall in Hall, Hwfr.
  destruct rest as [|y rest].
  - destruct Hc as [[|[|i]] [_ Hc]]; discriminate.
  - destruct (consecutive_inv _ _ _ _ _ Hc) as [[-> ->] | Hc'].
    + destruct Hm as [<- | [<- | Hm]]; [lra | lra |].
      inversion Hrest as [|? ? _ Hally]; subst. rewrite Forall_forall in Hally.
      specialize (Hally m Hm). specialize (Hwfr y (or_introl eq_refl)).
      unfold separated, well_formed in *. lra.
    + destruct Hm as [<- | Hm].
      * destruct (consecutive_In _ _ _ Hc') as [Hina _].
        specialize (Hall a Hina). specialize (Hwfr a Hina).
        unfold separated, well_formed in *. lra.
      * apply IH; auto. apply Forall_forall. exact Hwfr.
Qed.

(** ** Silences *)

Lemma in_silence_before (c : Q) (merged : list interval) (s : Silence) :
  In s (silence_before (Fin c) merged) <->
  exists first_iv rest,
    merged = first_iv :: rest /\ c < fst first_iv /\ s = gap c (fst first_iv).
Proof.
  unfold silence_before. destruct merged as [|first_iv rest].
  - split; [intros [] | intros (? & ? & ? & _); discriminate].
  - destruct (Qltb c (fst first_iv)) eqn:E.
    + apply Qltb_lt in E. split.
      * intros [<- | []]. eauto.
      * intros (f & r & Heq & _ & ->). injection Heq as <- <-. now left.
    + apply Qltb_ge in E. split; [intros []|].
      intros (f & r & Heq & Hlt & _). injection Heq as <- <-. lra.
Qed.

Lemma rev_cons_inv {A : Type} (l front : list A) (x : A) :
  rev l = x :: front <-> l = rev front ++ [x].
Proof.
  split; intro H.
  - rewrite <- (rev_involutive l), H. reflexivity.
  - rewrite H, rev_app_distr, rev_involutive. reflexivity.
Qed.

Lemma in_silence_after (c : Q) (merged : list interval) (s : Silence) :
  In s (silence_after merged (Fin c)) <->
  exists front last_iv,
    merged = front ++ [last_iv] /\ snd last_iv < c /\ s = gap (snd last_iv) c.
Proof.
  unfold silence_after. destruct (rev merged) as [|last_iv front] eqn:Hrev.
  - split; [intros []|]. intros (f & x & -> & _).
    rewrite rev_app_distr in Hrev. discriminate.
  - apply rev_cons_inv in Hrev.
    destruct (Qltb (snd last_iv) c) eqn:E.
    + apply Qltb_lt in E. split.
      * intros [<- | []]. eauto.
      * intros (f & x & Heq & _ & ->). rewrite Hrev in Heq.
        apply app_inj_tail in Heq. destruct Heq as [_ <-]. now left.
    + apply Qltb_ge in E. split; [intros []|].
      intros (f & x & Heq & Hlt & _). rewrite Hrev in Heq.
      apply app_inj_tail in Heq. destruct Heq as [_ <-]. lra.
Qed.

Lemma in_reported (call_start call_end : Q) (merged : list interval) (s : Silence) :
  In s (silence_before (Fin call_start) merged
          ++ adjacent gap_between merged
          ++ silence_after merged (Fin call_end))
  <-> reported call_start call_end merged s.
Proof.
  rewrite !in_app_iff, in_silence_before, in_gaps, in_silence_after. split.
  - intros [(f & r & Hm & Hlt & ->) | [(a & b & Hc & Hlt & ->) | (f & x & Hm & Hlt & ->)]].
    + eapply reported_before; eassumption.
    + now apply reported_between.
    + eapply reported_after; eassumption.
  - intros [f r Hm Hlt | a b Hc Hlt | f x Hm Hlt].
    + left. eauto.
    + right. left. eauto.
    + right. right. eauto.
Qed.



Section SilenceFacts.

Context {kind : SortKind}.

Lemma row_intervals_perm (conversation : list Segment) :
  Permutation (map segment_interval conversation)
    (map row_interval (sorted_rows conversation)).
Proof.
  replace (map segment_interval conversation)
    with (map row_interval (map timeline_row conversation))
    by (rewrite map_map; reflexivity).
  apply Permutation_map, sorted_rows_perm.
Qed.

Lemma speech_intervals_perm (conversation : list Segment) :
  Permutation (map segment_interval conversation) (speech_intervals conversation).
Proof.
  etransitivity; [apply row_intervals_perm | apply list_sort_perm].
Qed.

Lemma speech_intervals_cons (conversation : list Segment) :
  conversation <> [] ->
  exists first_iv others, speech_intervals conversation = first_iv :: others.
Proof.
  intro Hne. destruct (speech_intervals conversation) as [|x l] eqn:E; [|eauto].
  pose proof (speech_intervals_perm conversation) as Hp. rewrite E in Hp.
  apply Permutation_sym, Permutation_nil, map_eq_nil in Hp. contradiction.
Qed.

Lemma starts_perm (conversation : list Segment) :
  Permutation (map stime conversation) (map start_time (sorted_rows conversation)).
Proof.
  replace (map stime conversation)
    with (map start_time (map timeline_row conversation))
    by (rewrite map_map; reflexivity).
  apply Permutation_map, sorted_rows_perm.
Qed.

Lemma ends_perm (conversation : list Segment) :
  Permutation (map etime conversation) (map end_time (sorted_rows conversation)).
Proof.
  replace (map etime conversation)
    with (map end_time (map timeline_row conversation))
    by (rewrite map_map; reflexivity).
  apply Permutation_map, sorted_rows_perm.
Qed.

Lemma sorted_rows_nonempty (conversation : list Segment) :
  conversation <> [] -> sorted_rows conversation <> [].
Proof.
  intros Hne E. pose proof (sorted_rows_perm conversation) as Hp. rewrite E in Hp.
  apply Permutation_sym, Permutation_nil, map_eq_nil in Hp. contradiction.
Qed.

Lemma call_start_found (conversation : list Segment) :
  conversation <> [] ->
  exists c, Series_min (map start_time (sorted_rows conversation)) = Fin c
            /\ is_min c (map stime conversation).
Proof.
  intro Hne.
  destruct (Series_min_found (map start_time (sorted_rows conversation))) as (c & E & Hc).
  - intro H. apply map_eq_nil in H. now apply sorted_rows_nonempty in H.
  - exists c. split; [exact E|].
    eapply is_min_perm; [symmetry; apply starts_perm | exact Hc].
Qed.

Lemma call_end_found (conversation : list Segment) :
  conversation <> [] ->
  exists c, Series_max (map end_time (sorted_rows conversation)) = Fin c
            /\ is_max c (map etime conversation).
Proof.
  intro Hne.
  destruct (Series_max_found (map end_time (sorted_rows conversation))) as (c & E & Hc).
  - intro H. apply map_eq_nil in H. now apply sorted_rows_nonempty in H.
  - exists c. split; [exact E|].
    eapply is_max_perm; [symmetry; apply ends_perm | exact Hc].
Qed.

Lemma detect_silences_found (conversation : list Segment) (self : CallAnalyzer) :
  conversation <> [] ->
  CallAnalyzer_init conversation = Ok self ->
  detect_silences self
  = Ok (silence_before (Series_min (map start_time (sorted_rows conversation)))
          (merged_speech conversation)
        ++ adjacent gap_between (merged_speech conversation)
        ++ silence_after (merged_speech conversation)
             (Series_max (map end_time (sorted_rows conversation)))).
Proof.
  intros Hne Hinit. injection Hinit as <-.
  unfold detect_silences. cbn [timeline_data].
  rewrite (sort_values_found conversation Hne). cbn [bind].
  change (column "start_time" start_time
            {| columns := row_keys; rows := sorted_rows conversation |})
    with (Ok (map start_time (sorted_rows conversation))).
  change (column "end_time" end_time
            {| columns := row_keys; rows := sorted_rows conversation |})
    with (Ok (map end_time (sorted_rows conversation))).
  cbn [bind rows]. fold row_interval.
  change (merge_intervals (list_sort (map row_interval (sorted_rows conversation))))
    with (merged_speech conversation).
  rewrite gaps_loop. reflexivity.
Qed.

(** The facts about the merged intervals that hold for every call. *)
Lemma merged_speech_facts (conversation : list Segment) :
  conversation <> [] ->
  exists first_iv others,
    speech_intervals conversation = first_iv :: others /\
    StronglySorted fst_le (first_iv :: others) /\
    merges first_iv others (merged_speech conversation) /\
    StronglySorted separated (merged_speech conversation) /\
    (forall t, speaking (map segment_interval conversation) t
               <-> speaking (merged_speech conversation) t).
Proof.
  intro Hne. destruct (speech_intervals_cons conversation Hne) as (x & l & E).
  exists x, l. split; [exact E|].
  assert (Hs : StronglySorted fst_le (x :: l))
    by (rewrite <- E; apply list_sort_sorted).
  assert (Hm : merges x l (merged_speech conversation)).
  { unfold merged_speech. rewrite E, merge_intervals_cons. apply merge_from_merges. }
  repeat split; auto.
  - eapply merges_separated; eassumption.
  - intros (iv & Hin & Hi). apply (merges_covers _ _ _ Hs Hm).
    exists iv. split; [|exact Hi]. rewrite <- E.
    eapply Permutation_in; [apply speech_intervals_perm | exact Hin].
  - intro H. apply (merges_covers _ _ _ Hs Hm) in H.
    destruct H as (iv & Hin & Hi). exists iv. split; [|exact Hi].
    eapply Permutation_in; [symmetry; apply speech_intervals_perm|].
    rewrite E. exact Hin.
Qed.

End SilenceFacts.

Section ValidCalls.

Context {kind : SortKind}.

Lemma speech_intervals_well_formed (conversation : list Segment) :
  ends_after_start conversation ->
  Forall well_formed (speech_intervals conversation).
Proof.
  intro Hv. apply Forall_forall. intros iv Hin.
  apply (Permutation_in _ (Permutation_sym (speech_intervals_perm conversation))) in Hin.
  apply in_map_iff in Hin. destruct Hin as (s & <- & Hs).
  exact (Hv s Hs).
Qed.

Lemma merged_speech_well_formed (conversation : list Segment) :
  conversation <> [] ->
  ends_after_start conversation ->
  Forall well_formed (merged_speech conversation).
Proof.
  intros Hne Hv.
  destruct (merged_speech_facts conversation Hne) as (x & l & E & _ & Hm & _).
  eapply merges_well_formed; [|exact Hm].
  rewrite <- E. now apply speech_intervals_well_formed.
Qed.

Lemma merged_speech_starts (conversation : list Segment) (c : Q) :
  conversation <> [] ->
  is_min c (map stime conversation) ->
  exists x rest, merged_speech conversation = x :: rest /\ fst x <= c.
Proof.
  intros Hne [Hin _].
  destruct (merged_speech_facts conversation Hne) as (f & l & E & Hs & Hm & _).
  destruct (merges_head _ _ _ Hm) as (e & rest & Hh).
  exists (fst f, e), rest. split; [exact Hh|]. simpl.
  apply in_map_iff in Hin. destruct Hin as (s & <- & Hs').
  assert (Hiv : In (segment_interval s) (f :: l)).
  { rewrite <- E. eapply Permutation_in; [apply speech_intervals_perm|].
    now apply in_map. }
  inversion Hs as [|? ? _ Hall]; subst. rewrite Forall_forall in Hall.
  destruct Hiv as [Hf | Hiv]; [rewrite Hf; apply Qle_refl|].
  exact (Hall _ Hiv).
Qed.

(** The first merged interval starts with the call: the check for a silence
    before it never succeeds. *)
Lemma no_silence_before (conversation : list Segment) (c : Q) :
  conversation <> [] ->
  is_min c (map stime conversation) ->
  silence_before (Fin c) (merged_speech conversation) = [].
Proof.
  intros Hne Hc.
  destruct (merged_speech_starts conversation c Hne Hc) as (x & rest & E & Hle).
  rewrite E. unfold silence_before.
  destruct (Qltb c (fst x)) eqn:Hlt; [|reflexivity].
  apply Qltb_lt in Hlt. lra.
Qed.

Lemma merged_speech_ends (conversation : list Segment) (c : Q) (x : interval)
      (rest : list interval) :
  conversation <> [] ->
  ends_after_start conversation ->
  is_max c (map etime conversation) ->
  merged_speech conversation = x :: rest ->
  c <= snd (last rest x).
Proof.
  intros Hne Hv [Hin _] E.
  destruct (merged_speech_facts conversation Hne) as (f & l & _ & _ & _ & Hsep & Hcov).
  pose proof (merged_speech_well_formed conversation Hne Hv) as Hwf.
  apply in_map_iff in Hin. destruct Hin as (s & <- & Hs).
  assert (Hsp : speaking (map segment_interval conversation) (etime s)).
  { exists (segment_interval s). split; [now apply in_map|].
    split; [exact (Hv s Hs) | apply Qle_refl]. }
  apply Hcov in Hsp. destruct Hsp as (m & Hm & _ & Hhi).
  rewrite E in Hsep, Hwf, Hm.
  destruct (chain_bounds x rest Hsep Hwf m Hm) as [_ Hlast]. lra.
Qed.

(** When no segment ends before it starts, the last merged interval ends
    with the call: the check for a silence after it does not succeed. *)
Lemma no_silence_after (conversation : list Segment) (c : Q) :
  conversation <> [] ->
  ends_after_start conversation ->
  is_max c (map etime conversation) ->
  silence_after (merged_speech conversation) (Fin c) = [].
Proof.
  intros Hne Hv Hc.
  destruct (silence_after (merged_speech conversation) (Fin c)) as [|s found] eqn:E;
    [reflexivity|].
  assert (Hin : In s (silence_after (merged_speech conversation) (Fin c)))
    by (rewrite E; now left).
  apply in_silence_after in Hin. destruct Hin as (front & last_iv & Hm & Hlt & _).
  destruct (merged_speech conversation) as [|x rest] eqn:Em.
  - destruct front; discriminate.
  - pose proof (merged_speech_ends conversation c x rest Hne Hv Hc Em) as Hle.
    rewrite <- (last_cons rest x x), Hm, last_last in Hle. lra.
Qed.

Lemma detect_silences_valid (conversation : list Segment) (self : CallAnalyzer) :
  conversation <> [] ->
  ends_after_start conversation ->
  CallAnalyzer_init conversation = Ok self ->
  detect_silences self = Ok (adjacent gap_between (merged_speech conversation)).
Proof.
  intros Hne Hv Hinit.
  rewrite (detect_silences_found conversation self Hne Hinit).
  destruct (call_start_found conversation Hne) as (cs & -> & Hcs).
  destruct (call_end_found conversation Hne) as (ce & -> & Hce).
  rewrite (no_silence_before conversation cs Hne Hcs).
  rewrite (no_silence_after conversation ce Hne Hv Hce).
  rewrite app_nil_r. reflexivity.
Qed.

End ValidCalls.

(** * The operations of the analyzer *)

Section Claims.

Context {kind : SortKind} {dtype : Dtype}.

(** ** Construction *)

(** C1, as the code has it: [CallAnalyzer.__init__] validates nothing.  For
    every sequence of segments, the empty one and those with a segment that
    ends before it starts included, construction succeeds; the analyzer
    holds the input and a timeline with one row per segment, in the order
    of the input, whose duration is [end - start]. *)
Theorem construction_never_fails (conversation : list Segment) :
  exists self,
    CallAnalyzer_init conversation = Ok self /\
    conversation_data self = conversation /\
    rows (timeline_data self) = map timeline_row conversation /\
    Forall (fun r => duration r = end_time r - start_time r)
      (rows (timeline_data self)).
Proof.
  eexists. split; [reflexivity|]. cbn. repeat split.
  apply Forall_forall. intros r Hr.
  apply in_map_iff in Hr. destruct Hr as (s & <- & _). reflexivity.
Qed.

(** C1, as stated, fails: an empty call and a call with a segment that ends
    before it starts are both accepted. *)
Lemma construction_accepts_invalid_calls :
  CallAnalyzer_init []
  = Ok {| conversation_data := [];
          timeline_data := {| columns := []; rows := [] |} |}
  /\ etime (mkSegment "Agent" "hello" 5 3) < stime (mkSegment "Agent" "hello" 5 3)
  /\ CallAnalyzer_init [mkSegment "Agent" "hello" 5 3]
     = Ok {| conversation_data := [mkSegment "Agent" "hello" 5 3];
             timeline_data :=
               {| columns := row_keys;
                  rows := [mkRow "Agent" "hello" 5 3 (3 - 5)] |} |}.
Proof. repeat split. Qed.

(** ** Overlaps *)

(** C2: on a call with at least one segment, [detect_overlaps] returns the
    overlaps of the consecutive pairs of the rows sorted by [start_time], in
    the order of the pairs.  A pair [(current, next)] gives an overlap exactly
    when [current.end > next.start] and the duration
    [min(current.end, next.end) - max(current.start, next.start)] is strictly
    positive, and the overlap is then this range with the two speakers; the
    result is ascending in [start_time]. *)
Theorem detect_overlaps_scans_adjacent_pairs
        (conversation : list Segment) (self : CallAnalyzer) :
  conversation <> [] ->
  CallAnalyzer_init conversation = Ok self ->
  exists df found,
    Permutation (map timeline_row conversation) df /\
    StronglySorted start_le df /\
    detect_overlaps self = Ok found /\
    found = adjacent overlap_of df /\
    (forall o, In o found <->
               exists current next_segment,
                 consecutive df current next_segment /\
                 overlap_between current next_segment o) /\
    StronglySorted overlap_le found.
Proof.
  intros Hne Hinit.
  exists (sorted_rows conversation), (adjacent overlap_of (sorted_rows conversation)).
  split; [apply sorted_rows_perm|].
  split; [apply sorted_rows_sorted|].
  split; [now apply detect_overlaps_found|].
  split; [reflexivity|].
  split.
  - intro o. rewrite in_adjacent.
    split; intros (c & n & Hc & H); exists c, n; (split; [exact Hc|]);
      now apply overlap_of_spec.
  - apply adjacent_overlaps_ascending, sorted_rows_sorted.
Qed.

(** C7: two segments of a call of which the first ends no later than the
    second starts contribute no overlap, whichever of the two the sorted
    order puts first; and every overlap that is returned is contributed by a
    consecutive pair of the sorted rows. *)
Theorem no_false_overlaps
        (conversation : list Segment) (self : CallAnalyzer) (s1 s2 : Segment) :
  CallAnalyzer_init conversation = Ok self ->
  In s1 conversation ->
  In s2 conversation ->
  etime s1 <= stime s2 ->
  exists found,
    detect_overlaps self = Ok found /\
    (forall o, In o found ->
               exists current next_segment,
                 contributes (sorted_rows conversation) current next_segment o) /\
    (forall o, ~ contributes (sorted_rows conversation)
                   (timeline_row s1) (timeline_row s2) o) /\
    (forall o, ~ contributes (sorted_rows conversation)
                   (timeline_row s2) (timeline_row s1) o).
Proof.
  intros Hinit H1 H2 Hle.
  assert (Hne : conversation <> []) by (intros ->; destruct H1).
  exists (adjacent overlap_of (sorted_rows conversation)).
  split; [now apply detect_overlaps_found|].
  split.
  - intros o Ho. apply in_adjacent in Ho. destruct Ho as (c & n & Hc & Hin).
    exists c, n. split; assumption.
  - split; intros o [_ Hin]; apply overlap_crosses in Hin; simpl in Hin; lra.
Qed.

(** C8: every overlap that [detect_overlaps] returns is contributed by two
    segments of the call, and it lasts no longer than either of the two
    segments that contribute it. *)
Theorem overlap_duration_bound
        (conversation : list Segment) (self : CallAnalyzer)
        (found : list Overlap) (o : Overlap) :
  CallAnalyzer_init conversation = Ok self ->
  detect_overlaps self = Ok found ->
  In o found ->
  (exists s1 s2,
      In s1 conversation /\ In s2 conversation /\
      contributes (sorted_rows conversation) (timeline_row s1) (timeline_row s2) o) /\
  (forall s1 s2,
      contributes (sorted_rows conversation) (timeline_row s1) (timeline_row s2) o ->
      o_duration o <= etime s1 - stime s1 /\
      o_duration o <= etime s2 - stime s2 /\
      o_duration o <= duration (timeline_row s1) /\
      o_duration o <= duration (timeline_row s2)).
Proof.
  intros Hinit Hfound Ho.
  assert (Hne : conversation <> []).
  { intros ->. injection Hinit as <-. discriminate Hfound. }
  rewrite (detect_overlaps_found conversation self Hne Hinit) in Hfound.
  injection Hfound as <-. split.
  - apply in_adjacent in Ho. destruct Ho as (c & n & Hc & Hin).
    destruct (consecutive_In _ _ _ Hc) as [Hc1 Hc2].
    apply sorted_rows_In in Hc1, Hc2.
    destruct Hc1 as (s1 & Hs1 & ->). destruct Hc2 as (s2 & Hs2 & ->).
    exists s1, s2. repeat split; assumption.
  - intros s1 s2 [_ Hin]. apply overlap_shorter in Hin. simpl in *. tauto.
Qed.

(** C10, at the empty call: construction succeeds, and then all three
    operations raise [KeyError], because the frame built from no rows has no
    [start_time] column for [sort_values] to find. *)
Theorem empty_call_raises_key_error :
  exists self,
    CallAnalyzer_init [] = Ok self /\
    detect_overlaps self = Raise (KeyError "start_time") /\
    detect_silences self = Raise (KeyError "start_time") /\
    calculate_metrics self = Raise (KeyError "start_time").
Proof. eexists. repeat split. Qed.

(** ** Silences *)

Lemma merged_within_span (conversation : list Segment) (call_start call_end : Q) :
  conversation <> [] ->
  is_min call_start (map stime conversation) ->
  is_max call_end (map etime conversation) ->
  forall m, In m (merged_speech conversation) ->
    call_start <= fst m /\ snd m <= call_end.
Proof.
  intros Hne [_ Hmin] [_ Hmax] m Hm.
  destruct (merged_speech_facts conversation Hne) as (f & l & E & _ & Hmerges & _).
  destruct (merges_endpoints _ _ _ Hmerges m Hm) as [Hf Hs].
  rewrite <- E in Hf, Hs.
  pose proof (Permutation_sym (speech_intervals_perm conversation)) as Hp.
  apply (Permutation_in _ (Permutation_map fst Hp)) in Hf.
  apply (Permutation_in _ (Permutation_map snd Hp)) in Hs.
  rewrite map_map in Hf, Hs. split; [now apply Hmin | now apply Hmax].
Qed.


(** C4: on a call with at least one segment in which no segment ends before
    it starts, the merged speech intervals of [detect_silences] and the
    silences it returns cover the span from [call_start] to [call_end] and
    nothing else, and no moment lies both in a merged interval and in a
    silence.  A merged interval is taken with its two ends, a silence as the
    open gap between two of them; and the lengths of the merged intervals and
    the durations of the silences add up to [call_end - call_start]. *)
Theorem silence_speech_partition
        (conversation : list Segment) (self : CallAnalyzer) :
  conversation <> [] ->
  ends_after_start conversation ->
  CallAnalyzer_init conversation = Ok self ->
  exists call_start call_end found,
    is_min call_start (map stime conversation) /\
    is_max call_end (map etime conversation) /\
    detect_silences self = Ok found /\
    (forall t, speaking (merged_speech conversation) t \/ silent found t
               <-> call_start <= t /\ t <= call_end) /\
    (forall t, ~ (speaking (merged_speech conversation) t /\ silent found t)) /\
    Qsum (map length_of (merged_speech conversation)) + Qsum (map s_duration found)
    == call_end - call_start.
Proof.
  intros Hne Hv Hinit.
  destruct (call_start_found conversation Hne) as (cs & _ & Hcs).
  destruct (call_end_found conversation Hne) as (ce & _ & Hce).
  destruct (merged_speech_facts conversation Hne) as (f & l & _ & _ & _ & Hsep & _).
  pose proof (merged_speech_well_formed conversation Hne Hv) as Hwf.
  pose proof (merged_within_span conversation cs ce Hne Hcs Hce) as Hspan.
  exists cs, ce, (adjacent gap_between (merged_speech conversation)).
  split; [exact Hcs|]. split; [exact Hce|].
  split; [now apply detect_silences_valid|].
  rewrite Forall_forall in Hwf. split; [|split].
  - intro t. split.
    + intros [(m & Hm & Hlo & Hhi) | (s & Hs & Hlo & Hhi)].
      * destruct (Hspan m Hm). lra.
      * apply in_gaps in Hs. destruct Hs as (a & b & Hc & _ & ->). simpl in Hlo, Hhi.
        destruct (consecutive_In _ _ _ Hc) as [Ha Hb].
        destruct (Hspan a Ha), (Hspan b Hb).
        pose proof (Hwf a Ha). pose proof (Hwf b Hb).
        unfold well_formed in *. lra.
    + intros [Hlo Hhi].
      destruct (merged_speech_starts conversation cs Hne Hcs) as (x & rest & E & Hx).
      pose proof (merged_speech_ends conversation ce x rest Hne Hv Hce E) as Hlast.
      rewrite E. apply chain_cover; lra.
  - intros t [(m & Hm & Hin) (s & Hs & Hlo & Hhi)].
    apply in_gaps in Hs. destruct Hs as (a & b & Hc & _ & ->). simpl in Hlo, Hhi.
    eapply (chain_exclusive (merged_speech conversation) t m a b); eauto.
    now apply Forall_forall.
  - destruct (merged_speech_starts conversation cs Hne Hcs) as (x & rest & E & Hx).
    pose proof (merged_speech_ends conversation ce x rest Hne Hv Hce E) as Hlast.
    rewrite E in Hsep, Hspan |- *.
    rewrite (chain_measure x rest Hsep).
    destruct (Hspan x (or_introl eq_refl)) as [Hlo _].
    pose proof (last_In rest x) as Hin.
    destruct (Hspan _ Hin) as [_ Hhi]. lra.
Qed.

(** ** Metrics *)

Lemma durations_of_speaker (name : string) (conversation : list Segment) :
  map duration
    (filter (fun r => String.eqb (row_speaker r) name) (map timeline_row conversation))
  = map (fun s => etime s - stime s) (filter (spoken_by name) conversation).
Proof.
  induction conversation as [|s rest IH]; [reflexivity|].
  cbn [map filter]. unfold spoken_by at 1. cbn [timeline_row row_speaker].
  destruct (String.eqb (speaker s) name); cbn [map]; rewrite IH; reflexivity.
Qed.

Lemma speaking_time_found (name : string) (conversation : list Segment) :
  conversation <> [] ->
  speaking_time name (_create_timeline conversation)
  = Ok (Series_sum (map (fun s => etime s - stime s)
                      (filter (spoken_by name) conversation))).
Proof.
  intro Hne. destruct conversation as [|s rest]; [congruence|].
  unfold speaking_time.
  change (column "speaker" row_speaker (_create_timeline (s :: rest)))
    with (Ok (map row_speaker (map timeline_row (s :: rest)))).
  cbn [bind].
  change (columns (_create_timeline (s :: rest))) with row_keys.
  change (rows (_create_timeline (s :: rest))) with (map timeline_row (s :: rest)).
  unfold column.
  change (has_column "duration" _) with true. cbv iota. cbn [rows bind].
  rewrite durations_of_speaker. reflexivity.
Qed.

Lemma calculate_metrics_found (conversation : list Segment) (self : CallAnalyzer)
      (found_overlaps : list Overlap) (found_silences : list Silence) :
  conversation <> [] ->
  CallAnalyzer_init conversation = Ok self ->
  detect_overlaps self = Ok found_overlaps ->
  detect_silences self = Ok found_silences ->
  let total := Series_max (map etime conversation) in
  let overlap_time := py_sum (map o_duration found_overlaps) in
  let silence_time := py_sum (map s_duration found_silences) in
  let agent_time :=
    Series_sum (map (fun s => etime s - stime s)
                  (filter (spoken_by "Agent") conversation)) in
  let customer_time :=
    Series_sum (map (fun s => etime s - stime s)
                  (filter (spoken_by "Customer") conversation)) in
  calculate_metrics self
  = Ok {| total_duration := total;
          total_overlap_time := overlap_time;
          total_silence_time := silence_time;
          overlap_percentage := np_times (np_truediv overlap_time total) 100;
          silence_percentage := np_times (np_truediv silence_time total) 100;
          agent_speaking_time := agent_time;
          customer_speaking_time := customer_time;
          agent_talk_percentage := np_times (np_truediv agent_time total) 100;
          customer_talk_percentage := np_times (np_truediv customer_time total) 100;
          overlaps := found_overlaps;
          silences := found_silences;
          num_overlaps := length found_overlaps;
          num_silences := length found_silences |}.
Proof.
  intros Hne Hinit Ho Hs. cbv zeta.
  unfold calculate_metrics. rewrite Ho, Hs. cbn [bind].
  injection Hinit as <-. cbn [timeline_data].
  rewrite !(speaking_time_found _ conversation Hne).
  destruct conversation as [|s rest]; [congruence|].
  change (column "end_time" end_time (_create_timeline (s :: rest)))
    with (Ok (map end_time (map timeline_row (s :: rest)))).
  cbn [bind]. rewrite map_map. reflexivity.
Qed.


(** ** A call of no duration *)

Lemma sorted_rows_singleton (s : Segment) : sorted_rows [s] = [timeline_row s].
Proof. apply Permutation_length_1_inv. exact (sorted_rows_perm [s]). Qed.

(** C6, at the call [(Agent, 0, 0)]: [calculate_metrics] raises nothing and
    returns [total_duration = 0] with [nan], the result of [0 / 0], in each
    of the four percentage fields. *)
Theorem zero_duration_gives_nan :
  exists self m,
    CallAnalyzer_init degenerate_call = Ok self /\
    calculate_metrics self = Ok m /\
    total_duration m = Fin 0 /\
    overlap_percentage m = NaN /\
    silence_percentage m = NaN /\
    agent_talk_percentage m = NaN /\
    customer_talk_percentage m = NaN.
Proof.
  assert (Hne : degenerate_call <> []) by discriminate.
  eexists. eexists. split; [reflexivity|].
  split.
  - eapply calculate_metrics_found; [exact Hne | reflexivity | |].
    + apply detect_overlaps_found; [exact Hne | reflexivity].
    + apply detect_silences_found; [exact Hne | reflexivity].
  - unfold merged_speech, speech_intervals, degenerate_call.
    rewrite sorted_rows_singleton.
    cbn [overlap_percentage silence_percentage agent_talk_percentage
         customer_talk_percentage total_duration].
    assert (Hagent : is_number (Series_sum [0 - 0]) 0).
    { destruct (Series_sum_exact [0 - 0]) as (v & Ev & Hv).
      - intros chosen Hc. apply (representable_Qeq (inject_Z 0)).
        + inversion Hc as [|? ? ? Hc'|? ? ? Hc']; subst;
            inversion Hc'; subst; reflexivity.
        + apply representable_integer. discriminate.
      - exists v. split; [exact Ev|]. rewrite Hv. reflexivity. }
    assert (Hcustomer : is_number (Series_sum []) 0).
    { destruct (Series_sum_exact []) as (v & Ev & Hv).
      - intros chosen Hc. inversion Hc; subst.
        apply (representable_integer 0). discriminate.
      - exists v. split; [exact Ev | exact Hv]. }
    assert (Hnone : is_number (Fin 0) 0) by (exists 0; split; reflexivity).
    split; [reflexivity|].
    split; [exact (f_equal (fun v => np_times v 100) (np_truediv_zero _ Hnone))|].
    split; [exact (f_equal (fun v => np_times v 100) (np_truediv_zero _ Hnone))|].
    split; [exact (f_equal (fun v => np_times v 100) (np_truediv_zero _ Hagent))|].
    exact (f_equal (fun v => np_times v 100) (np_truediv_zero _ Hcustomer)).
Qed.

End Claims.

(** * The analyzer at work *)

Example scenario_A_analysis :
  detect_overlaps (kind := stable_kind) (analyzer_of scenario_A) = Ok [] /\
  detect_silences (kind := stable_kind) (analyzer_of scenario_A) = Ok [].
Proof. split; reflexivity. Qed.

Example scenario_B_overlap :
  detect_overlaps (kind := stable_kind) (analyzer_of scenario_B)
  = Ok [mkOverlap 4 6 2 ["Agent"; "Customer"]%string] /\
  detect_silences (kind := stable_kind) (analyzer_of scenario_B) = Ok [].
Proof. split; reflexivity. Qed.

Example scenario_C_silence :
  detect_overlaps (kind := stable_kind) (analyzer_of scenario_C) = Ok [] /\
  detect_silences (kind := stable_kind) (analyzer_of scenario_C)
  = Ok [mkSilence 3 7 4].
Proof. split; reflexivity. Qed.

(** A segment that ends before it starts brings the silences out of order,
    and puts one of them over a moment of speech. *)
Example inverted_segment_silences :
  detect_silences (kind := stable_kind)
    (analyzer_of [mkSegment "Agent" "" 0 10; mkSegment "Customer" "" 20 5])
  = Ok [mkSilence 10 20 10; mkSilence 5 10 5].
Proof. reflexivity. Qed.

(** Which speaker of two segments that start together comes first in
    [speakers] is decided by the sorting kind: both outcomes are within the
    contract of [sort_values]. *)
Example tied_speakers_follow_the_kind :
  detect_overlaps (kind := stable_kind) (analyzer_of tied_call)
  = Ok [mkOverlap 0 6 6 ["Agent"; "Customer"]%string] /\
  detect_overlaps (kind := reversing_kind) (analyzer_of tied_call)
  = Ok [mkOverlap 0 6 6 ["Customer"; "Agent"]%string].
Proof. split; reflexivity. Qed.

(** * The theorems at the scenarios *)

Lemma detect_overlaps_scans_adjacent_pairs_witness :
  exists df found,
    Permutation (map timeline_row scenario_B) df /\
    StronglySorted start_le df /\
    detect_overlaps (kind := stable_kind) (analyzer_of scenario_B) = Ok found /\
    found = adjacent overlap_of df /\
    (forall o, In o found <->
               exists current next_segment,
                 consecutive df current next_segment /\
                 overlap_between current next_segment o) /\
    StronglySorted overlap_le found.
Proof.
  apply (detect_overlaps_scans_adjacent_pairs (kind := stable_kind)
           scenario_B (analyzer_of scenario_B)).
  - discriminate.
  - reflexivity.
Defined.

Lemma no_false_overlaps_witness :
  exists found,
    detect_overlaps (kind := stable_kind) (analyzer_of scenario_A) = Ok found /\
    (forall o, In o found ->
               exists current next_segment,
                 contributes (sorted_rows (kind := stable_kind) scenario_A)
                   current next_segment o) /\
    (forall o, ~ contributes (sorted_rows (kind := stable_kind) scenario_A)
                   (timeline_row (mkSegment "Agent" "" 0 5))
                   (timeline_row (mkSegment "Customer" "" 5 10)) o) /\
    (forall o, ~ contributes (sorted_rows (kind := stable_kind) scenario_A)
                   (timeline_row (mkSegment "Customer" "" 5 10))
                   (timeline_row (mkSegment "Agent" "" 0 5)) o).
Proof.
  apply (no_false_overlaps (kind := stable_kind) scenario_A (analyzer_of scenario_A)
           (mkSegment "Agent" "" 0 5) (mkSegment "Customer" "" 5 10)).
  - reflexivity.
  - simpl. auto.
  - simpl. auto.
  - simpl. lra.
Defined.

Lemma overlap_duration_bound_witness :
  (exists s1 s2,
      In s1 scenario_B /\ In s2 scenario_B /\
      contributes (sorted_rows (kind := stable_kind) scenario_B)
        (timeline_row s1) (timeline_row s2)
        (mkOverlap 4 6 2 ["Agent"; "Customer"]%string)) /\
  (forall s1 s2,
      contributes (sorted_rows (kind := stable_kind) scenario_B)
        (timeline_row s1) (timeline_row s2)
        (mkOverlap 4 6 2 ["Agent"; "Customer"]%string) ->
      2 <= etime s1 - stime s1 /\
      2 <= etime s2 - stime s2 /\
      2 <= duration (timeline_row s1) /\
      2 <= duration (timeline_row s2)).
Proof.
  apply (overlap_duration_bound (kind := stable_kind) scenario_B
           (analyzer_of scenario_B)
           [mkOverlap 4 6 2 ["Agent"; "Customer"]%string]
           (mkOverlap 4 6 2 ["Agent"; "Customer"]%string)).
  - reflexivity.
  - reflexivity.
  - simpl. auto.
Defined.

Lemma scenario_C_ends_after_start : ends_after_start scenario_C.
Proof. intros s [<- | [<- | []]]; simpl; lra. Defined.


Lemma silence_speech_partition_witness :
  exists call_start call_end found,
    is_min call_start (map stime scenario_C) /\
    is_max call_end (map etime scenario_C) /\
    detect_silences (kind := stable_kind) (analyzer_of scenario_C) = Ok found /\
    (forall t, speaking (merged_speech (kind := stable_kind) scenario_C) t
               \/ silent found t
               <-> call_start <= t /\ t <= call_end) /\
    (forall t, ~ (speaking (merged_speech (kind := stable_kind) scenario_C) t
                  /\ silent found t)) /\
    Qsum (map length_of (merged_speech (kind := stable_kind) scenario_C))
    + Qsum (map s_duration found)
    == call_end - call_start.
Proof.
  apply (silence_speech_partition (kind := stable_kind)
           scenario_C (analyzer_of scenario_C)).
  - discriminate.
  - exact scenario_C_ends_after_start.
  - reflexivity.
Defined.



(** An overlap of 1 second in 3 is 33.33333333333333 per cent, one of 2 in 8
    is 25 per cent exactly. *)
Example percentages_are_rounded :
  np_times (np_truediv (Fin 1) (Fin 3)) 100
  = Fin (2345624805922133 # 70368744177664) /\
  np_times (np_truediv (Fin 2) (Fin 8)) 100 = Fin 25.
Proof. split; vm_compute; reflexivity. Qed.

(** The metrics of scenario B in int64: the overlap of 2 seconds is 20% of
    the 10 seconds of the call, and each speaker talks for 60% of them. *)
Example scenario_B_metrics :
  exists m,
    calculate_metrics (kind := stable_kind) (dtype := int64) (analyzer_of scenario_B)
    = Ok m /\
    total_duration m = Fin 10 /\
    total_overlap_time m = Fin 2 /\
    total_silence_time m = Fin 0 /\
    overlap_percentage m = Fin 20 /\
    silence_percentage m = Fin 0 /\
    agent_speaking_time m = Fin 6 /\
    customer_speaking_time m = Fin 6 /\
    agent_talk_percentage m = Fin 60 /\
    customer_talk_percentage m = Fin 60.
Proof.
  eexists. split; [reflexivity|]. vm_compute. repeat split.
Qed.

(** * Further properties of the analyzer *)

Lemma consecutive_sorted {A : Type} (R : A -> A -> Prop) (l : list A) (a b : A) :
  StronglySorted R l -> consecutive l a b -> R a b.
Proof.
  induction l as [|x rest IH]; intros Hs Hc.
  - destruct Hc as [[|i] [H _]]; discriminate.
  - inversion Hs as [|? ? Hrest Hall]; subst.
    destruct rest as [|y rest].
    + destruct Hc as [[|[|i]] [_ H]]; discriminate.
    + destruct (consecutive_inv _ _ _ _ _ Hc) as [[-> ->] | Hc'].
      * inversion Hall; assumption.
      * now apply IH.
Qed.

Lemma adjacent_length {A B : Type} (f : A -> A -> list B) (l : list A) :
  (forall a b, (length (f a b) <= 1)%nat) ->
  (length (adjacent f l) <= length l - 1)%nat.
Proof.
  intro Hf. induction l as [|x rest IH]; [simpl; lia|].
  destruct rest as [|y rest]; [simpl; lia|].
  change (adjacent f (x :: y :: rest)) with (f x y ++ adjacent f (y :: rest)).
  rewrite length_app. specialize (Hf x y). simpl in IH |- *. lia.
Qed.

Lemma overlap_of_length (current next_segment : Row) :
  (length (overlap_of current next_segment) <= 1)%nat.
Proof.
  destruct (overlap_of_at_most_one current next_segment) as [-> | [o ->]];
    simpl; lia.
Qed.

Lemma gap_between_length (a b : interval) : (length (gap_between a b) <= 1)%nat.
Proof. unfold gap_between. destruct (Qltb _ _); simpl; lia. Qed.

Lemma merges_length (running : interval) (l out : list interval) :
  merges running l out -> (length out <= S (length l))%nat.
Proof. induction 1; simpl in *; lia. Qed.

Lemma is_max_unique (a b : Q) (l : list Q) : is_max a l -> is_max b l -> a == b.
Proof.
  intros [Ha Hla] [Hb Hlb]. specialize (Hla b Hb). specialize (Hlb a Ha). lra.
Qed.

Lemma Qsum_nonneg (l : list Q) : Forall (fun x => 0 <= x) l -> 0 <= Qsum l.
Proof.
  induction 1 as [|x l Hx _ IH]; unfold Qsum in *; simpl; lra.
Qed.

Section FurtherFacts.

Context {kind : SortKind} {dtype : Dtype}.

Lemma detect_overlaps_nonempty (conversation : list Segment) (self : CallAnalyzer)
      (found : list Overlap) :
  CallAnalyzer_init conversation = Ok self ->
  detect_overlaps self = Ok found ->
  conversation <> [] /\ found = adjacent overlap_of (sorted_rows conversation).
Proof.
  intros Hinit Hfound.
  assert (Hne : conversation <> []).
  { intros ->. injection Hinit as <-. discriminate Hfound. }
  split; [exact Hne|].
  rewrite (detect_overlaps_found conversation self Hne Hinit) in Hfound.
  now injection Hfound.
Qed.

Lemma detect_silences_nonempty (conversation : list Segment) (self : CallAnalyzer)
      (found : list Silence) :
  CallAnalyzer_init conversation = Ok self ->
  detect_silences self = Ok found ->
  conversation <> [].
Proof.
  intros Hinit Hfound ->. injection Hinit as <-. discriminate Hfound.
Qed.

(** X1: every overlap that [detect_overlaps] returns is a stretch of positive
    length, its duration is its end minus its start, and it lies within both
    of the segments that contribute it: from its start to its end both
    speakers named in it are speaking. *)
Theorem reported_overlaps_are_shared_speech
        (conversation : list Segment) (self : CallAnalyzer)
        (found : list Overlap) (o : Overlap) :
  CallAnalyzer_init conversation = Ok self ->
  detect_overlaps self = Ok found ->
  In o found ->
  o_start_time o < o_end_time o /\
  o_duration o = o_end_time o - o_start_time o /\
  exists s1 s2,
    In s1 conversation /\ In s2 conversation /\
    contributes (sorted_rows conversation) (timeline_row s1) (timeline_row s2) o /\
    speakers o = [speaker s1; speaker s2] /\
    stime s1 <= stime s2 /\
    forall t, o_start_time o <= t -> t <= o_end_time o ->
              inside (segment_interval s1) t /\ inside (segment_interval s2) t.
Proof.
  intros Hinit Hfound Ho.
  destruct (detect_overlaps_nonempty _ _ _ Hinit Hfound) as [Hne ->].
  apply in_adjacent in Ho. destruct Ho as (c & n & Hc & Hin).
  pose proof (consecutive_sorted _ _ _ _ (sorted_rows_sorted conversation) Hc) as Hle.
  destruct (consecutive_In _ _ _ Hc) as [Hc1 Hc2].
  apply sorted_rows_In in Hc1, Hc2.
  destruct Hc1 as (s1 & Hs1 & ->). destruct Hc2 as (s2 & Hs2 & ->).
  pose proof Hin as Hspec. apply overlap_of_spec in Hspec.
  destruct Hspec as (_ & Hpos & ->). cbn in Hpos |- *. unfold start_le in Hle.
  cbn in Hle.
  pose proof (py_max_ub (stime s1) (stime s2)) as [Hm1 Hm2].
  pose proof (py_min_lb (etime s1) (etime s2)) as [Hn1 Hn2].
  split; [lra|]. split; [reflexivity|].
  exists s1, s2. split; [exact Hs1|]. split; [exact Hs2|].
  split; [split; assumption|]. split; [reflexivity|]. split; [exact Hle|].
  intros t Hlo Hhi. unfold inside. simpl. repeat split; lra.
Qed.

(** X2: [detect_overlaps] returns fewer overlaps than the call has segments,
    and so does [calculate_metrics] in [num_overlaps]. *)
Theorem fewer_overlaps_than_segments
        (conversation : list Segment) (self : CallAnalyzer) (m : Metrics) :
  CallAnalyzer_init conversation = Ok self ->
  calculate_metrics self = Ok m ->
  detect_overlaps self = Ok (overlaps m) /\
  num_overlaps m = length (overlaps m) /\
  (num_overlaps m < length conversation)%nat.
Proof.
  intros Hinit Hm.
  assert (Hne : conversation <> []).
  { intros ->. injection Hinit as <-. discriminate Hm. }
  pose proof (detect_overlaps_found conversation self Hne Hinit) as Ho.
  pose proof (detect_silences_found conversation self Hne Hinit) as Hs.
  pose proof (calculate_metrics_found conversation self _ _ Hne Hinit Ho Hs) as Hm'.
  cbv zeta in Hm'. rewrite Hm' in Hm. injection Hm as <-. cbn.
  split; [exact Ho|]. split; [reflexivity|].
  pose proof (adjacent_length overlap_of (sorted_rows conversation) overlap_of_length).
  pose proof (Permutation_length (sorted_rows_perm conversation)) as Hlen.
  rewrite length_map in Hlen.
  destruct conversation; [congruence|]. simpl in *. lia.
Qed.

(** X3: every silence that [detect_silences] returns, on any call, has a
    strictly positive duration, which is its end minus its start. *)
Theorem silences_have_positive_duration
        (conversation : list Segment) (self : CallAnalyzer)
        (found : list Silence) (s : Silence) :
  CallAnalyzer_init conversation = Ok self ->
  detect_silences self = Ok found ->
  In s found ->
  s_start_time s < s_end_time s /\
  s_duration s = s_end_time s - s_start_time s /\
  0 < s_duration s.
Proof.
  intros Hinit Hfound Hs.
  pose proof (detect_silences_nonempty _ _ _ Hinit Hfound) as Hne.
  rewrite (detect_silences_found conversation self Hne Hinit) in Hfound.
  destruct (call_start_found conversation Hne) as (cs & Ecs & _).
  destruct (call_end_found conversation Hne) as (ce & Ece & _).
  rewrite Ecs, Ece in Hfound. injection Hfound as <-.
  apply in_reported in Hs.
  destruct Hs as [f r _ Hlt | a b _ Hlt | f x _ Hlt]; simpl; repeat split; lra.
Qed.

(** The lengths of the merged intervals and of the silences of a call in
    which no segment ends before it starts add up to the span of the call. *)
Lemma speech_and_silence_measure (conversation : list Segment)
      (call_start call_end : Q) :
  conversation <> [] ->
  ends_after_start conversation ->
  is_min call_start (map stime conversation) ->
  is_max call_end (map etime conversation) ->
  Qsum (map length_of (merged_speech conversation))
  + Qsum (map s_duration (adjacent gap_between (merged_speech conversation)))
  == call_end - call_start.
Proof.
  intros Hne Hv Hcs Hce.
  destruct (merged_speech_facts conversation Hne) as (f & l & _ & _ & _ & Hsep & _).
  pose proof (merged_within_span conversation call_start call_end Hne Hcs Hce) as Hspan.
  destruct (merged_speech_starts conversation call_start Hne Hcs) as (x & rest & E & Hx).
  pose proof (merged_speech_ends conversation call_end x rest Hne Hv Hce E) as Hlast.
  rewrite E in Hsep, Hspan |- *.
  rewrite (chain_measure x rest Hsep).
  destruct (Hspan x (or_introl eq_refl)) as [Hlo _].
  destruct (Hspan _ (last_In rest x)) as [_ Hhi]. lra.
Qed.

(** X4: on a call with at least one segment in which no segment ends before
    it starts, the silences returned are exactly the moments of the span of
    the call at which no segment is spoken. *)
Theorem silences_are_where_nobody_speaks
        (conversation : list Segment) (self : CallAnalyzer)
        (found : list Silence) (call_start call_end : Q) :
  ends_after_start conversation ->
  CallAnalyzer_init conversation = Ok self ->
  detect_silences self = Ok found ->
  is_min call_start (map stime conversation) ->
  is_max call_end (map etime conversation) ->
  forall t,
    silent found t <->
    (call_start <= t /\ t <= call_end /\
     ~ speaking (map segment_interval conversation) t).
Proof.
  intros Hv Hinit Hfound Hcs Hce t.
  pose proof (detect_silences_nonempty _ _ _ Hinit Hfound) as Hne.
  rewrite (detect_silences_valid conversation self Hne Hv Hinit) in Hfound.
  injection Hfound as <-.
  destruct (merged_speech_facts conversation Hne) as (f & l & _ & _ & _ & Hsep & Hcov).
  pose proof (merged_speech_well_formed conversation Hne Hv) as Hwf.
  pose proof (merged_within_span conversation call_start call_end Hne Hcs Hce) as Hspan.
  split.
  - intros (s & Hs & Hlo & Hhi).
    apply in_gaps in Hs. destruct Hs as (a & b & Hc & _ & ->). simpl in Hlo, Hhi.
    destruct (consecutive_In _ _ _ Hc) as [Ha Hb].
    destruct (Hspan a Ha), (Hspan b Hb).
    rewrite Forall_forall in Hwf.
    pose proof (Hwf a Ha). pose proof (Hwf b Hb). unfold well_formed in *.
    split; [lra|]. split; [lra|].
    intro Hsp. apply Hcov in Hsp. destruct Hsp as (m & Hm & Hin).
    eapply (chain_exclusive (merged_speech conversation) t m a b); eauto.
    now apply Forall_forall.
  - intros (Hlo & Hhi & Hquiet).
    destruct (merged_speech_starts conversation call_start Hne Hcs) as (x & rest & E & Hx).
    pose proof (merged_speech_ends conversation call_end x rest Hne Hv Hce E) as Hlast.
    rewrite E in Hcov |- *.
    destruct (chain_cover x rest t) as [Hsp | Hsil]; [lra | lra | | exact Hsil].
    exfalso. apply Hquiet. now apply Hcov.
Qed.

End FurtherFacts.

Section MetricsFacts.

Context {kind : SortKind} {dtype : Dtype}.

Lemma lengths_total_nonneg (l : list interval) :
  Forall well_formed l -> 0 <= Qsum (map length_of l).
Proof.
  intro Hwf. apply Qsum_nonneg, Forall_forall. intros d Hd.
  apply in_map_iff in Hd. destruct Hd as (iv & <- & Hiv).
  rewrite Forall_forall in Hwf. specialize (Hwf iv Hiv).
  unfold well_formed, length_of in *. lra.
Qed.

Lemma whole_minus (a b : Q) : whole a -> whole b -> whole (a - b).
Proof.
  intros (x & Hx) (y & Hy). exists (x - y)%Z.
  rewrite Hx, Hy. unfold Zminus. rewrite inject_Z_plus, inject_Z_opp. reflexivity.
Qed.

Lemma whole_Qsum (l : list Q) : Forall whole l -> whole (Qsum l).
Proof.
  induction 1 as [|x l (z & Hz) _ (w & Hw)].
  - exists 0%Z. reflexivity.
  - exists (z + w)%Z. unfold Qsum in *. cbn [fold_right].
    rewrite Hz, Hw, inject_Z_plus. reflexivity.
Qed.

Lemma sublist_In {A : Type} (chosen l : list A) (x : A) :
  sublist chosen l -> In x chosen -> In x l.
Proof.
  induction 1 as [|y chosen l _ IH|y chosen l _ IH]; intro Hin.
  - exact Hin.
  - right. now apply IH.
  - destruct Hin as [<- | Hin]; [now left | right; now apply IH].
Qed.

Lemma sublist_Qsum (chosen l : list Q) :
  Forall (fun x => 0 <= x) l -> sublist chosen l ->
  0 <= Qsum chosen /\ Qsum chosen <= Qsum l.
Proof.
  intros Hpos Hsub. induction Hsub as [|y chosen l _ IH|y chosen l _ IH].
  - unfold Qsum. simpl. lra.
  - inversion Hpos as [|? ? Hy Hl]; subst. specialize (IH Hl).
    unfold Qsum in *. cbn [fold_right]. lra.
  - inversion Hpos as [|? ? Hy Hl]; subst. specialize (IH Hl).
    unfold Qsum in *. cbn [fold_right]. lra.
Qed.

Lemma merged_speech_endpoints (conversation : list Segment) (m : interval) :
  conversation <> [] ->
  In m (merged_speech conversation) ->
  In (fst m) (map stime conversation) /\ In (snd m) (map etime conversation).
Proof.
  intros Hne Hm.
  destruct (merged_speech_facts conversation Hne) as (f & l & E & _ & Hmerges & _).
  destruct (merges_endpoints _ _ _ Hmerges m Hm) as [Hf Hs].
  rewrite <- E in Hf, Hs.
  pose proof (Permutation_sym (speech_intervals_perm conversation)) as Hp.
  apply (Permutation_in _ (Permutation_map fst Hp)) in Hf.
  apply (Permutation_in _ (Permutation_map snd Hp)) in Hs.
  rewrite map_map in Hf, Hs. split; assumption.
Qed.

Lemma gap_durations_whole (conversation : list Segment) :
  conversation <> [] ->
  whole_seconds conversation ->
  Forall (fun x => whole x /\ 0 <= x)
    (map s_duration (adjacent gap_between (merged_speech conversation))).
Proof.
  intros Hne Hw. apply Forall_forall. intros x Hx.
  apply in_map_iff in Hx. destruct Hx as (s & <- & Hs).
  apply in_gaps in Hs. destruct Hs as (a & b & Hc & Hlt & ->).
  destruct (consecutive_In _ _ _ Hc) as [Ha Hb].
  destruct (merged_speech_endpoints conversation a Hne Ha) as [_ Ha2].
  destruct (merged_speech_endpoints conversation b Hne Hb) as [Hb1 _].
  apply in_map_iff in Ha2, Hb1.
  destruct Ha2 as (sa & Ea & Hsa). destruct Hb1 as (sb & Eb & Hsb).
  destruct (Hw sa Hsa) as (_ & za & _ & _ & _ & Hza).
  destruct (Hw sb Hsb) as (zb & _ & _ & _ & Hzb & _).
  cbn [gap s_duration]. split; [|lra].
  apply whole_minus; [exists zb; now rewrite <- Eb | exists za; now rewrite <- Ea].
Qed.

(** X5: on a call whose times are whole numbers of seconds from 0 to below
    [2^53], in which no segment ends before it starts, with a positive
    [total_duration]: the total silence time that [calculate_metrics] returns
    is the exact sum of the silences, it lies between 0 and [total_duration],
    and [silence_percentage] is a number between 0 and 100.  (With times that
    are not whole numbers the float64 sum and quotient are rounded, and the
    percentage can come out above 100.) *)
Theorem silence_percentage_in_range
        (conversation : list Segment) (self : CallAnalyzer) (m : Metrics) (d : Q) :
  ends_after_start conversation ->
  whole_seconds conversation ->
  CallAnalyzer_init conversation = Ok self ->
  calculate_metrics self = Ok m ->
  total_duration m = Fin d ->
  0 < d ->
  exists t,
    total_silence_time m = Fin t /\
    t == Qsum (map s_duration (silences m)) /\
    0 <= t /\ t <= d /\
    exists p, silence_percentage m = Fin p /\ 0 <= p /\ p <= 100.
Proof.
  intros Hv Hw Hinit Hm Hd Hdpos.
  assert (Hne : conversation <> []).
  { intros ->. injection Hinit as <-. discriminate Hm. }
  pose proof (detect_overlaps_found conversation self Hne Hinit) as Ho.
  pose proof (detect_silences_valid conversation self Hne Hv Hinit) as Hs.
  pose proof (calculate_metrics_found conversation self _ _ Hne Hinit Ho Hs) as Hm'.
  cbv zeta in Hm'. rewrite Hm' in Hm. injection Hm as <-.
  cbn [total_duration total_silence_time silences silence_percentage] in Hd |- *.
  destruct (Series_max_found (map etime conversation)) as (d' & Ed & Hmax).
  { intro H. apply map_eq_nil in H. contradiction. }
  rewrite Ed in Hd |- *. injection Hd as ->.
  destruct (call_start_found conversation Hne) as (cs & _ & Hcs).
  assert (Hcs0 : 0 <= cs).
  { destruct Hcs as [Hin _]. apply in_map_iff in Hin.
    destruct Hin as (s & <- & Hs'). destruct (Hw s Hs') as (a & _ & Ha & _ & -> & _).
    change 0 with (inject_Z 0). now rewrite <- Zle_Qle. }
  assert (Hdz : exists zd : Z, (zd < 2 ^ 53)%Z /\ d == inject_Z zd).
  { destruct Hmax as [Hin _]. apply in_map_iff in Hin.
    destruct Hin as (s & <- & Hs'). destruct (Hw s Hs') as (_ & b & _ & Hb & _ & Eb).
    now exists b. }
  destruct Hdz as (zd & Hzd & Ezd).
  pose proof (speech_and_silence_measure conversation cs d Hne Hv Hcs Hmax) as Hsum.
  pose proof (lengths_total_nonneg _ (merged_speech_well_formed conversation Hne Hv))
    as Hl.
  pose proof (gap_durations_whole conversation Hne Hw) as Hgaps.
  set (gaps := map s_duration (adjacent gap_between (merged_speech conversation))) in *.
  assert (Hwhole : Forall whole gaps).
  { apply Forall_forall. intros x Hx. rewrite Forall_forall in Hgaps.
    now apply Hgaps. }
  assert (Hnonneg : Forall (fun x => 0 <= x) gaps).
  { apply Forall_forall. intros x Hx. rewrite Forall_forall in Hgaps.
    now apply Hgaps. }
  assert (Hsmall : forall chosen, sublist chosen gaps ->
            exists z : Z, (0 <= z < 2 ^ 53)%Z /\ Qsum chosen == inject_Z z).
  { intros chosen Hc.
    destruct (sublist_Qsum chosen gaps Hnonneg Hc) as [H0 Hle].
    destruct (whole_Qsum chosen) as (z & Hz).
    { apply Forall_forall. intros x Hx. rewrite Forall_forall in Hwhole.
      apply Hwhole. eapply sublist_In; eassumption. }
    exists z. split; [|exact Hz].
    assert (H1 : inject_Z 0 <= inject_Z z) by (rewrite <- Hz; exact H0).
    assert (H2 : inject_Z z <= inject_Z zd) by (rewrite <- Hz, <- Ezd; lra).
    rewrite <- Zle_Qle in H1, H2. lia. }
  destruct (py_sum_exact gaps) as (t & Et & Ht).
  { intros chosen Hc. destruct (Hsmall chosen Hc) as (z & Hz & Ez).
    apply (representable_Qeq (inject_Z z)); [now symmetry|].
    apply representable_integer. lia. }
  destruct (Hsmall gaps (sublist_refl gaps)) as (zt & Hzt & Ezt).
  exists t. split; [exact Et|]. split; [exact Ht|].
  assert (Ht0 : 0 <= t).
  { rewrite Ht, Ezt. change 0 with (inject_Z 0). rewrite <- Zle_Qle. lia. }
  assert (Htd : t <= d) by (rewrite Ht; lra).
  split; [exact Ht0|]. split; [exact Htd|].
  rewrite Et. unfold np_truediv, to_float64.
  destruct (binary64_bounds t zt zt) as (t' & Et' & Ht1 & Ht2);
    try lia; try (rewrite Ht, Ezt; lra).
  assert (Hzd0 : (0 <= zd)%Z).
  { assert (H : inject_Z 0 <= inject_Z zd)
      by (rewrite <- Ezd; change (inject_Z 0) with 0; lra).
    now rewrite <- Zle_Qle in H. }
  destruct (binary64_bounds d zd zd) as (d'' & Ed' & Hd1 & Hd2);
    try lia; try (rewrite Ezd; lra).
  rewrite Et', Ed'.
  assert (Et'' : t' == t) by (rewrite Ht, Ezt; lra).
  assert (Ed'' : d'' == d) by (rewrite Ezd; lra).
  assert (Hnz : Qeq_bool d'' 0 = false) by (apply Qeq_bool_false; lra).
  rewrite Hnz.
  assert (Hd''pos : 0 < d'') by lra.
  assert (H0 : 0 <= t' / d'') by (apply Qle_shift_div_l; [exact Hd''pos | lra]).
  assert (H1 : t' / d'' <= 1) by (apply Qle_shift_div_r; [exact Hd''pos | lra]).
  destruct (binary64_bounds (t' / d'') 0 1) as (r & Er & Hr0 & Hr1);
    try lia; try exact H0; try exact H1.
  rewrite Er. cbn [np_times].
  change (inject_Z 0) with 0 in Hr0. change (inject_Z 1) with 1 in Hr1.
  destruct (binary64_bounds (r * 100) 0 100) as (p & Ep & Hp0 & Hp1); try lia.
  { change (inject_Z 0) with 0. lra. }
  { change (inject_Z 100) with 100. lra. }
  exists p. split; [exact Ep|].
  change (inject_Z 0) with 0 in Hp0. change (inject_Z 100) with 100 in Hp1.
  split; assumption.
Qed.



End MetricsFacts.

(** * The detectors ([final/main.py]) *)

Module Main.

Local Open Scope string_scope.

(** ** Exceptions, strings and dictionaries *)

Inductive exception : Type :=
| KeyError (key : string)
| IndexError
| AttributeError
| TypeError.

Inductive result (A : Type) : Type :=
| Ok (a : A)
| Raise (e : exception).
Arguments Ok {A} a.
Arguments Raise {A} e.

Definition newline : string := String "010"%char EmptyString.

(** [str.lower()] on the letters A to Z; every other byte is kept. *)
Definition lower_char (c : ascii) : ascii :=
  let n := nat_of_ascii c in
  if ((65 <=? n) && (n <=? 90))%nat then ascii_of_nat (n + 32) else c.

Fixpoint lower (s : string) : string :=
  match s with
  | EmptyString => EmptyString
  | String c rest => String (lower_char c) (lower rest)
  end.

(** [needle in haystack] *)
Fixpoint contains (needle haystack : string) : bool :=
  prefix needle haystack
  || match haystack with
     | EmptyString => false
     | String _ rest => contains needle rest
     end.

(** [s.endswith(suffix)] *)
Fixpoint endswith (s suffix : string) : bool :=
  String.eqb s suffix
  || match s with
     | EmptyString => false
     | String _ rest => endswith rest suffix
     end.

(** [s.replace(".json", "")]: the occurrences are taken from the left and do
    not overlap; [skip] counts the characters of an occurrence still to be
    dropped. *)
Fixpoint drop_json (skip : nat) (s : string) : string :=
  match s with
  | EmptyString => EmptyString
  | String c rest =>
      match skip with
      | S k => drop_json k rest
      | O => if prefix ".json" s then drop_json 4 rest else String c (drop_json 0 rest)
      end
  end.

(** [s.split("/")[-1]]: what follows the last slash; [current] is the
    component read so far. *)
Fixpoint last_component (current s : string) : string :=
  match s with
  | EmptyString => current
  | String c rest =>
      if Ascii.eqb c "/"%char then last_component EmptyString rest
      else last_component (current ++ String c EmptyString) rest
  end.

(** [file_name.replace(".json", "").split("/")[-1]] *)
Definition call_id_of (file_name : string) : string :=
  last_component EmptyString (drop_json 0 file_name).

(** A dictionary: its items in the order of insertion, no key twice. *)
Definition dict (V : Type) : Type := list (string * V).

Fixpoint dict_set {V : Type} (key : string) (value : V) (d : dict V) : dict V :=
  match d with
  | [] => [(key, value)]
  | (k, v) :: rest =>
      if String.eqb k key then (k, value) :: rest
      else (k, v) :: dict_set key value rest
  end.

Definition keys {V : Type} (d : dict V) : list string := map fst d.

(** [d.get(key, default)] on an optional field. *)
Definition get (field : option string) (default : string) : string :=
  match field with
  | Some value => value
  | None => default
  end.

(** ** Conversations *)

(** One utterance of a transcript: a JSON object whose keys [speaker] and
    [text], when present, hold strings. *)
Record Utterance : Type := mkUtterance {
  speaker : option string;
  text : option string
}.

(** What [load_conversations_from_zip] stores under a call id: the list of
    utterances of the file, or the record [{"error": ...}] made for a file
    that is not JSON. *)
Inductive Conversation : Type :=
| Turns (utterances : list Utterance)
| ErrorRecord (message : string).

(** ** Helpers *)

Definition clean_turn (texts : string * string) (i : Utterance)
  : result (string * string) :=
  match speaker i with
  | None => Raise (KeyError "speaker")
  | Some who =>
      if String.eqb who "Agent" then
        match text i with
        | None => Raise (KeyError "text")
        | Some t => Ok (fst texts ++ t ++ newline, snd texts)
        end
      else if String.eqb who "Customer" then
        match text i with
        | None => Raise (KeyError "text")
        | Some t => Ok (fst texts, snd texts ++ t ++ newline)
        end
      else Ok texts
  end.

Fixpoint clean_turns (texts : string * string) (conversation : list Utterance)
  : result (string * string) :=
  match conversation with
  | [] => Ok texts
  | i :: rest =>
      match clean_turn texts i with
      | Ok texts' => clean_turns texts' rest
      | Raise e => Raise e
      end
  end.

(** Iterating over the error record yields its key, a string, and indexing
    a string by ["speaker"] is a [TypeError]. *)
Definition clean_conversation (conversation : Conversation) : result string :=
  match conversation with
  | ErrorRecord _ => Raise TypeError
  | Turns utterances =>
      match clean_turns (EmptyString, EmptyString) utterances with
      | Ok (speaker_text, customer_text) =>
          Ok ("Agent:" ++ newline ++ speaker_text ++ newline
              ++ "Customer:" ++ newline ++ customer_text)
      | Raise e => Raise e
      end
  end.

(** What reading one member of the archive comes to: its utterances, a
    [JSONDecodeError], or any other exception (a member that cannot be read
    or is not UTF-8). *)
Inductive member_content : Type :=
| Parsed (utterances : list Utterance)
| JSONDecodeError
| OtherError.

Inductive zip_file : Type :=
| NotAZip
| Archive (members : list (string * member_content)).

Fixpoint load_members (members : list (string * member_content))
         (conversations : dict Conversation) : dict Conversation :=
  match members with
  | [] => conversations
  | (file_name, content) :: rest =>
      if endswith file_name ".json" then
        let call_id := call_id_of file_name in
        match content with
        | Parsed conversation_data =>
            load_members rest (dict_set call_id (Turns conversation_data) conversations)
        | JSONDecodeError =>
            load_members rest
              (dict_set call_id (ErrorRecord ("Invalid JSON: " ++ file_name))
                 conversations)
        | OtherError => conversations
        end
      else load_members rest conversations
  end.

Definition load_conversations_from_zip (zip : zip_file) : dict Conversation :=
  match zip with
  | NotAZip => []
  | Archive members => load_members members []
  end.

(** ** Pattern matcher *)

(** The regular expression engine, for patterns compiled with [IGNORECASE]:
    [findall pattern text] and whether [search pattern text] finds a match. *)
Class Regex : Type := {
  findall : string -> string -> list string;
  search : string -> string -> bool
}.

(** [list(set(l))]: the elements of [l], each once, in an order of the
    interpreter's choosing. *)
Class SetOrder : Type := {
  listing : list string -> list string;
  listing_NoDup : forall l, NoDup (listing l);
  listing_In : forall l x, In x (listing l) <-> In x l
}.

Definition profanity_patterns : list string :=
  ["\bhell\b"; "\bdamn\b"; "\bcrap\b"; "\bf\*+\b"; "\bf\*\*\*\b"; "\bbullshit\b";
   "\bf[*\-_]+k\b"; "\bass\b"; "\bshit\b"; "\bdumbass\b"; "\bjerk\b"; "\bidiot\b";
   "\bstupid\b"; "\bfuck\b"; "\bbitch\b"; "\bastard\b"; "\bprick\b"].

Definition sensitive_info_patterns : list string :=
  ["\$\d+(?:,\d{3})*(?:\.\d{2})?"; "\bbalance.*\$?\d+"; "\bowe.*\$?\d+";
   "\baccount.*\d{4,}"; "\bssn?\s*:?\s*\d{3}-?\d{2}-?\d{4}"; "\b\d{3}-\d{2}-\d{4}\b"].

Definition verification_patterns : list string :=
  ["\bdate\s+of\s+birth\b"; "\bdob\b"; "\bbirthdate\b"; "\baddress\b"; "\bstreet\b";
   "\bcity\b"; "\bzip\b"; "\bssn\b"; "\bsocial\s+security\b"; "\blast\s+four\b"].

Record ProfanityResult : Type := mkProfanityResult {
  agent_has_profanity : bool;
  customer_has_profanity : bool;
  agent_profanity_usage : list string;
  customer_profanity_usage : list string
}.

Record PrivacyResult : Type := mkPrivacyResult {
  agent_violated_privacy : bool;
  sensitive_info_shared : list string;
  verification_attempted : bool;
  verification_methods : list string
}.

Definition nonempty {A : Type} (l : list A) : bool :=
  match l with
  | [] => false
  | _ :: _ => true
  end.

Section PatternMatcher.

Context {re : Regex} {set : SetOrder}.

(** One pass of the loop of [detect_profanity]. *)
Definition profanity_turn (usage : list string * list string) (utt : Utterance)
  : list string * list string :=
  let text := get (text utt) "" in
  let speaker := lower (get (speaker utt) "") in
  let found := flat_map (fun pattern => findall pattern text) profanity_patterns in
  if nonempty found then
    if contains "agent" speaker then ((fst usage ++ found)%list, snd usage)
    else if contains "customer" speaker then (fst usage, (snd usage ++ found)%list)
    else usage
  else usage.

(** Iterating over the error record yields its key, a string, which has no
    [get]: an [AttributeError]. *)
Definition detect_profanity (conversation : Conversation) : result ProfanityResult :=
  match conversation with
  | ErrorRecord _ => Raise AttributeError
  | Turns utterances =>
      let usage := fold_left profanity_turn utterances ([], []) in
      Ok {| agent_has_profanity := (0 <? length (fst usage))%nat;
            customer_has_profanity := (0 <? length (snd usage))%nat;
            agent_profanity_usage := listing (fst usage);
            customer_profanity_usage := listing (snd usage) |}
  end.

(** The state of the loop of [detect_privacy_violation]. *)
Record privacy_state : Type := mkPrivacyState {
  st_sensitive_info_shared : list string;
  st_verification_attempted : bool;
  st_verification_methods : list string;
  st_agent_shared_sensitive : bool
}.

Definition sensitive_step (text : string) (st : privacy_state) (pattern : string)
  : privacy_state :=
  let matches := findall pattern text in
  if nonempty matches then
    {| st_sensitive_info_shared := (st_sensitive_info_shared st ++ matches)%list;
       st_verification_attempted := st_verification_attempted st;
       st_verification_methods := st_verification_methods st;
       st_agent_shared_sensitive := true |}
  else st.

Definition verification_step (text : string) (st : privacy_state) (pattern : string)
  : privacy_state :=
  if search pattern text then
    {| st_sensitive_info_shared := st_sensitive_info_shared st;
       st_verification_attempted := true;
       st_verification_methods := (st_verification_methods st ++ [pattern])%list;
       st_agent_shared_sensitive := st_agent_shared_sensitive st |}
  else st.

Definition privacy_turn (st : privacy_state) (utt : Utterance) : privacy_state :=
  let text := get (text utt) "" in
  let speaker := lower (get (speaker utt) "") in
  if contains "agent" speaker then
    let st := fold_left (sensitive_step text) sensitive_info_patterns st in
    fold_left (verification_step text) verification_patterns st
  else st.

Definition detect_privacy_violation (conversation : Conversation)
  : result PrivacyResult :=
  match conversation with
  | ErrorRecord _ => Raise AttributeError
  | Turns utterances =>
      let st := fold_left privacy_turn utterances
                  {| st_sensitive_info_shared := [];
                     st_verification_attempted := false;
                     st_verification_methods := [];
                     st_agent_shared_sensitive := false |} in
      let violation :=
        st_agent_shared_sensitive st && negb (st_verification_attempted st) in
      Ok {| agent_violated_privacy := violation;
            sensitive_info_shared := listing (st_sensitive_info_shared st);
            verification_attempted := st_verification_attempted st;
            verification_methods := listing (st_verification_methods st) |}
  end.

(** ** Pattern matching entry points *)

(** The loop of [profanity_detection_pattern] over [conversations.items()]. *)
Fixpoint profanity_rows (items : list (string * Conversation))
         (flagged : dict (list string) * dict (list string))
  : result (dict (list string) * dict (list string)) :=
  match items with
  | [] => Ok flagged
  | (conv_id, conversation) :: rest =>
      match detect_profanity conversation with
      | Raise e => Raise e
      | Ok r =>
          let agent_profanity :=
            if agent_has_profanity r
            then dict_set conv_id (agent_profanity_usage r) (fst flagged)
            else fst flagged in
          let customer_profanity :=
            if customer_has_profanity r
            then dict_set conv_id (customer_profanity_usage r) (snd flagged)
            else snd flagged in
          profanity_rows rest (agent_profanity, customer_profanity)
      end
  end.

(** The two frames are given by their rows [(id, usage)]. *)
Definition profanity_detection_pattern (zip : zip_file)
  : result (list (string * list string) * list (string * list string)) :=
  profanity_rows (load_conversations_from_zip zip) ([], []).

Fixpoint privacy_rows (items : list (string * Conversation))
         (violations : dict (list string)) : result (dict (list string)) :=
  match items with
  | [] => Ok violations
  | (conv_id, conversation) :: rest =>
      match detect_privacy_violation conversation with
      | Raise e => Raise e
      | Ok r =>
          privacy_rows rest
            (if agent_violated_privacy r
             then dict_set conv_id (sensitive_info_shared r) violations
             else violations)
      end
  end.

Definition privacy_detection_pattern (zip : zip_file)
  : result (list (string * list string)) :=
  privacy_rows (load_conversations_from_zip zip) [].

End PatternMatcher.

(** ** What the pattern matcher decides *)

(** The speaker of the utterance counts as the agent. *)
Definition agent_turn (utt : Utterance) : bool :=
  contains "agent" (lower (get (speaker utt) "")).

(** The speaker counts as the customer: the agent is asked for first. *)
Definition customer_turn (utt : Utterance) : bool :=
  negb (agent_turn utt) && contains "customer" (lower (get (speaker utt) "")).

Lemma nonempty_true {A : Type} (l : list A) : nonempty l = true <-> l <> [].
Proof. destruct l; simpl; split; congruence. Qed.

Lemma nonempty_false {A : Type} (l : list A) : nonempty l = false <-> l = [].
Proof. destruct l; simpl; split; congruence. Qed.

Lemma flat_map_nonempty {A B : Type} (f : A -> list B) (l : list A) :
  flat_map f l <> [] <-> exists a, In a l /\ f a <> [].
Proof.
  induction l as [|x l IH]; simpl.
  - split; [congruence | intros (a & [] & _)].
  - split.
    + intro H. destruct (f x) as [|b bs] eqn:E.
      * apply IH in H. destruct H as (a & Ha & Hf). eauto.
      * exists x. split; [now left | congruence].
    + intros (a & [<- | Ha] & Hf) H; apply app_eq_nil in H; destruct H as [H1 H2].
      * contradiction.
      * apply IH in H2; [exact H2 | eauto].
Qed.

Section PatternMatcherFacts.

Context {re : Regex} {set : SetOrder}.

(** Some sensitive-information pattern matches the text of the utterance. *)
Definition shares_sensitive (utt : Utterance) : Prop :=
  exists pattern,
    In pattern sensitive_info_patterns /\ findall pattern (get (text utt) "") <> [].

(** Some verification pattern is found in the text of the utterance. *)
Definition verifies (utt : Utterance) : Prop :=
  exists pattern,
    In pattern verification_patterns /\ search pattern (get (text utt) "") = true.

(** Some profanity pattern matches the text of the utterance. *)
Definition swears (utt : Utterance) : Prop :=
  exists pattern,
    In pattern profanity_patterns /\ findall pattern (get (text utt) "") <> [].

Lemma sensitive_step_spec (t : string) (st : privacy_state) (p : string) :
  let st' := sensitive_step t st p in
  st_verification_attempted st' = st_verification_attempted st /\
  st_verification_methods st' = st_verification_methods st /\
  (st_agent_shared_sensitive st' = true <->
   st_agent_shared_sensitive st = true \/ findall p t <> []) /\
  (forall x, In x (st_sensitive_info_shared st') <->
             In x (st_sensitive_info_shared st) \/ In x (findall p t)).
Proof.
  unfold sensitive_step. destruct (nonempty (findall p t)) eqn:E; cbn.
  - apply nonempty_true in E.
    split; [reflexivity|]. split; [reflexivity|]. split.
    + split; auto.
    + intro x. apply in_app_iff.
  - apply nonempty_false in E. rewrite E.
    split; [reflexivity|]. split; [reflexivity|]. split.
    + split; [auto|]. intros [H | H]; [exact H | congruence].
    + intro x. split; [auto|]. intros [H | []]. exact H.
Qed.

Lemma sensitive_fold (t : string) (patterns : list string) (st : privacy_state) :
  let st' := fold_left (sensitive_step t) patterns st in
  st_verification_attempted st' = st_verification_attempted st /\
  st_verification_methods st' = st_verification_methods st /\
  (st_agent_shared_sensitive st' = true <->
   st_agent_shared_sensitive st = true
   \/ exists p, In p patterns /\ findall p t <> []) /\
  (forall x, In x (st_sensitive_info_shared st') <->
             In x (st_sensitive_info_shared st)
             \/ exists p, In p patterns /\ In x (findall p t)).
Proof.
  revert st. induction patterns as [|p ps IH]; intro st; cbn [fold_left].
  - repeat split; auto.
    + intros [H | (p & [] & _)]. exact H.
    + intros [H | (p & [] & _)]. exact H.
  - destruct (IH (sensitive_step t st p)) as (H1 & H2 & H3 & H4).
    destruct (sensitive_step_spec t st p) as (S1 & S2 & S3 & S4).
    cbv zeta in H1, H2, H3, H4, S1, S2, S3, S4 |- *.
    split; [congruence|]. split; [congruence|]. split.
    + rewrite H3, S3. split.
      * intros [[H | H] | (q & Hq & H)]; [now left | |].
        -- right. exists p. split; [now left | exact H].
        -- right. exists q. split; [now right | exact H].
      * intros [H | (q & [<- | Hq] & H)]; [auto | auto |].
        right. exists q. auto.
    + intro x. rewrite H4, S4. split.
      * intros [[H | H] | (q & Hq & H)]; [now left | |].
        -- right. exists p. split; [now left | exact H].
        -- right. exists q. split; [now right | exact H].
      * intros [H | (q & [<- | Hq] & H)]; [auto | auto |].
        right. exists q. auto.
Qed.

Lemma verification_step_spec (t : string) (st : privacy_state) (p : string) :
  let st' := verification_step t st p in
  st_agent_shared_sensitive st' = st_agent_shared_sensitive st /\
  st_sensitive_info_shared st' = st_sensitive_info_shared st /\
  (st_verification_attempted st' = true <->
   st_verification_attempted st = true \/ search p t = true) /\
  (forall x, In x (st_verification_methods st') <->
             In x (st_verification_methods st) \/ (x = p /\ search p t = true)).
Proof.
  unfold verification_step. destruct (search p t) eqn:E; cbn.
  - split; [reflexivity|]. split; [reflexivity|]. split.
    + split; auto.
    + intro x. rewrite in_app_iff. split.
      * intros [H | [<- | []]]; auto.
      * intros [H | [-> _]]; [now left | right; now left].
  - split; [reflexivity|]. split; [reflexivity|]. split.
    + split; [auto|]. intros [H | H]; [exact H | congruence].
    + intro x. split; [auto|]. intros [H | [_ H]]; [exact H | congruence].
Qed.

Lemma verification_fold (t : string) (patterns : list string) (st : privacy_state) :
  let st' := fold_left (verification_step t) patterns st in
  st_agent_shared_sensitive st' = st_agent_shared_sensitive st /\
  st_sensitive_info_shared st' = st_sensitive_info_shared st /\
  (st_verification_attempted st' = true <->
   st_verification_attempted st = true
   \/ exists p, In p patterns /\ search p t = true) /\
  (forall x, In x (st_verification_methods st') <->
             In x (st_verification_methods st)
             \/ (In x patterns /\ search x t = true)).
Proof.
  revert st. induction patterns as [|p ps IH]; intro st; cbn [fold_left].
  - repeat split; auto.
    + intros [H | (p & [] & _)]. exact H.
    + intros [H | ([] & _)]. exact H.
  - destruct (IH (verification_step t st p)) as (H1 & H2 & H3 & H4).
    destruct (verification_step_spec t st p) as (S1 & S2 & S3 & S4).
    cbv zeta in H1, H2, H3, H4, S1, S2, S3, S4 |- *.
    split; [congruence|]. split; [congruence|]. split.
    + rewrite H3, S3. split.
      * intros [[H | H] | (q & Hq & H)]; [now left | |].
        -- right. exists p. split; [now left | exact H].
        -- right. exists q. split; [now right | exact H].
      * intros [H | (q & [<- | Hq] & H)]; [auto | auto |].
        right. exists q. auto.
    + intro x. rewrite H4, S4. split.
      * intros [[H | [-> H]] | [Hq H]]; [now left | |].
        -- right. split; [now left | exact H].
        -- right. split; [now right | exact H].
      * intros [H | [[<- | Hq] H]]; [auto | auto |].
        right. auto.
Qed.

Lemma privacy_turn_spec (st : privacy_state) (utt : Utterance) :
  let st' := privacy_turn st utt in
  (st_verification_attempted st' = true <->
   st_verification_attempted st = true \/ (agent_turn utt = true /\ verifies utt)) /\
  (st_agent_shared_sensitive st' = true <->
   st_agent_shared_sensitive st = true
   \/ (agent_turn utt = true /\ shares_sensitive utt)) /\
  (forall x, In x (st_sensitive_info_shared st') <->
             In x (st_sensitive_info_shared st)
             \/ (agent_turn utt = true
                 /\ exists p, In p sensitive_info_patterns
                              /\ In x (findall p (get (text utt) "")))) /\
  (forall m, In m (st_verification_methods st') <->
             In m (st_verification_methods st)
             \/ (agent_turn utt = true /\ In m verification_patterns
                 /\ search m (get (text utt) "") = true)).
Proof.
  unfold privacy_turn. fold (agent_turn utt). cbv zeta.
  destruct (agent_turn utt) eqn:Ha.
  - destruct (sensitive_fold (get (text utt) "") sensitive_info_patterns st)
      as (S1 & S2 & S3 & S4).
    destruct (verification_fold (get (text utt) "") verification_patterns
                (fold_left (sensitive_step (get (text utt) ""))
                   sensitive_info_patterns st))
      as (V1 & V2 & V3 & V4).
    cbv zeta in S1, S2, S3, S4, V1, V2, V3, V4.
    unfold verifies, shares_sensitive.
    split; [|split; [|split]].
    + rewrite V3, S1. tauto.
    + rewrite V1, S3. tauto.
    + intro x. rewrite V2, S4. tauto.
    + intro m. rewrite V4, S2. tauto.
  - split; [|split; [|split]]; try intro; split; auto;
      intros [H | [H _]]; [exact H | discriminate | exact H | discriminate
                          | exact H | discriminate | exact H | discriminate].
Qed.

Lemma privacy_fold (utterances : list Utterance) (st : privacy_state) :
  let st' := fold_left privacy_turn utterances st in
  (st_verification_attempted st' = true <->
   st_verification_attempted st = true
   \/ exists utt, In utt utterances /\ agent_turn utt = true /\ verifies utt) /\
  (st_agent_shared_sensitive st' = true <->
   st_agent_shared_sensitive st = true
   \/ exists utt, In utt utterances /\ agent_turn utt = true /\ shares_sensitive utt) /\
  (forall x, In x (st_sensitive_info_shared st') <->
             In x (st_sensitive_info_shared st)
             \/ exists utt, In utt utterances /\ agent_turn utt = true
                  /\ exists p, In p sensitive_info_patterns
                               /\ In x (findall p (get (text utt) ""))) /\
  (forall m, In m (st_verification_methods st') <->
             In m (st_verification_methods st)
             \/ exists utt, In utt utterances /\ agent_turn utt = true
                  /\ In m verification_patterns
                  /\ search m (get (text utt) "") = true).
Proof.
  revert st. induction utterances as [|u rest IH]; intro st; cbn [fold_left].
  - cbv zeta. repeat split; auto; intros [H | (u & [] & _)]; exact H.
  - destruct (IH (privacy_turn st u)) as (H1 & H2 & H3 & H4).
    destruct (privacy_turn_spec st u) as (T1 & T2 & T3 & T4).
    cbv zeta in H1, H2, H3, H4, T1, T2, T3, T4 |- *.
    split; [|split; [|split]].
    + rewrite H1, T1. split.
      * intros [[H | [Ha Hv]] | (v & Hin & Hv)]; [now left | |].
        -- right. exists u. split; [now left | auto].
        -- right. exists v. split; [now right | auto].
      * intros [H | (v & [<- | Hin] & Hv)]; [auto | left; right; exact Hv |].
        right. exists v. auto.
    + rewrite H2, T2. split.
      * intros [[H | [Ha Hv]] | (v & Hin & Hv)]; [now left | |].
        -- right. exists u. split; [now left | auto].
        -- right. exists v. split; [now right | auto].
      * intros [H | (v & [<- | Hin] & Hv)]; [auto | left; right; exact Hv |].
        right. exists v. auto.
    + intro x. rewrite H3, T3. split.
      * intros [[H | [Ha Hv]] | (v & Hin & Hv)]; [now left | |].
        -- right. exists u. split; [now left | auto].
        -- right. exists v. split; [now right | auto].
      * intros [H | (v & [<- | Hin] & Hv)]; [auto | left; right; exact Hv |].
        right. exists v. auto.
    + intro m. rewrite H4, T4. split.
      * intros [[H | [Ha Hv]] | (v & Hin & Hv)]; [now left | |].
        -- right. exists u. split; [now left | auto].
        -- right. exists v. split; [now right | auto].
      * intros [H | (v & [<- | Hin] & Hv)]; [auto | left; right; exact Hv |].
        right. exists v. auto.
Qed.

Definition initial_privacy_state : privacy_state :=
  {| st_sensitive_info_shared := [];
     st_verification_attempted := false;
     st_verification_methods := [];
     st_agent_shared_sensitive := false |}.

(** X7: on a list of utterances [detect_privacy_violation] raises nothing.
    It reports a verification exactly when some utterance of the agent
    contains a verification phrase, and a violation exactly when some
    utterance of the agent contains sensitive information and no utterance of
    the agent, anywhere in the call, contains a verification phrase.  The
    items listed are the matches in the agent's utterances and the
    verification patterns found in them, each once.  Utterances of other
    speakers are never looked at. *)
Theorem privacy_violation_decided (utterances : list Utterance) :
  exists r,
    detect_privacy_violation (Turns utterances) = Ok r /\
    (verification_attempted r = true <->
     exists utt, In utt utterances /\ agent_turn utt = true /\ verifies utt) /\
    (agent_violated_privacy r = true <->
     (exists utt, In utt utterances /\ agent_turn utt = true /\ shares_sensitive utt)
     /\ ~ (exists utt, In utt utterances /\ agent_turn utt = true /\ verifies utt)) /\
    (forall x, In x (sensitive_info_shared r) <->
               exists utt, In utt utterances /\ agent_turn utt = true
                 /\ exists p, In p sensitive_info_patterns
                              /\ In x (findall p (get (text utt) ""))) /\
    (forall m, In m (verification_methods r) <->
               exists utt, In utt utterances /\ agent_turn utt = true
                 /\ In m verification_patterns
                 /\ search m (get (text utt) "") = true) /\
    NoDup (sensitive_info_shared r) /\
    NoDup (verification_methods r).
Proof.
  eexists. split; [reflexivity|]. cbn.
  fold initial_privacy_state.
  destruct (privacy_fold utterances initial_privacy_state) as (H1 & H2 & H3 & H4).
  cbv zeta in H1, H2, H3, H4. cbn in H1, H2, H3, H4.
  split; [|split; [|split; [|split; [|split]]]].
  - rewrite H1. split; [intros [H | H]; [discriminate | exact H] | auto].
  - rewrite andb_true_iff, negb_true_iff, H2, <- not_true_iff_false, H1. split.
    + intros [[H | H] Hn]; [discriminate|]. split; [exact H|]. intro Hv. apply Hn. auto.
    + intros [H Hn]. split; [now right|]. intros [Hv | Hv]; [discriminate | auto].
  - intro x. rewrite listing_In, H3. split; [intros [[] | H]; exact H | auto].
  - intro m. rewrite listing_In, H4. split; [intros [[] | H]; exact H | auto].
  - apply listing_NoDup.
  - apply listing_NoDup.
Qed.

Lemma privacy_turn_other (st : privacy_state) (utt : Utterance) :
  agent_turn utt = false -> privacy_turn st utt = st.
Proof.
  unfold privacy_turn, agent_turn. cbv zeta. intros ->. reflexivity.
Qed.

Lemma privacy_fold_agent_only (utterances : list Utterance) (st : privacy_state) :
  fold_left privacy_turn utterances st
  = fold_left privacy_turn (filter agent_turn utterances) st.
Proof.
  revert st. induction utterances as [|u rest IH]; intro st; [reflexivity|].
  cbn [fold_left filter]. destruct (agent_turn u) eqn:E.
  - cbn [fold_left]. apply IH.
  - rewrite (privacy_turn_other st u E). apply IH.
Qed.

(** X8: the order of the utterances does not enter the verdict of
    [detect_privacy_violation]: two calls with the same utterances in
    different orders get the same violation and verification flags and the
    same items, so a verification that comes after the disclosure clears the
    violation as one that comes before it does. *)
Theorem privacy_verdict_ignores_order (utterances reordered : list Utterance) :
  Permutation utterances reordered ->
  exists r r',
    detect_privacy_violation (Turns utterances) = Ok r /\
    detect_privacy_violation (Turns reordered) = Ok r' /\
    agent_violated_privacy r = agent_violated_privacy r' /\
    verification_attempted r = verification_attempted r' /\
    (forall x, In x (sensitive_info_shared r) <-> In x (sensitive_info_shared r')) /\
    (forall m, In m (verification_methods r) <-> In m (verification_methods r')).
Proof.
  intro Hp. eexists. eexists. split; [reflexivity|]. split; [reflexivity|].
  cbn. fold initial_privacy_state.
  destruct (privacy_fold utterances initial_privacy_state) as (H1 & H2 & H3 & H4).
  destruct (privacy_fold reordered initial_privacy_state) as (R1 & R2 & R3 & R4).
  cbv zeta in H1, H2, H3, H4, R1, R2, R3, R4.
  assert (Hin : forall u, In u utterances <-> In u reordered).
  { intro u. split; apply Permutation_in; [exact Hp | now symmetry]. }
  assert (Hv : st_verification_attempted (fold_left privacy_turn utterances initial_privacy_state)
               = st_verification_attempted (fold_left privacy_turn reordered initial_privacy_state)).
  { apply eq_true_iff_eq. rewrite H1, R1. split;
      (intros [H | (u & Hu & H)]; [now left | right; exists u; split; [now apply Hin | exact H]]). }
  assert (Hs : st_agent_shared_sensitive (fold_left privacy_turn utterances initial_privacy_state)
               = st_agent_shared_sensitive (fold_left privacy_turn reordered initial_privacy_state)).
  { apply eq_true_iff_eq. rewrite H2, R2. split;
      (intros [H | (u & Hu & H)]; [now left | right; exists u; split; [now apply Hin | exact H]]). }
  split; [now rewrite Hv, Hs|]. split; [exact Hv|]. split.
  - intro x. rewrite !listing_In, H3, R3. split;
      (intros [H | (u & Hu & H)]; [now left | right; exists u; split; [now apply Hin | exact H]]).
  - intro m. rewrite !listing_In, H4, R4. split;
      (intros [H | (u & Hu & H)]; [now left | right; exists u; split; [now apply Hin | exact H]]).
Qed.

(** X9: only the agent's utterances enter [detect_privacy_violation]: taking
    every other utterance out of the call leaves its result as it is. *)
Theorem privacy_verdict_from_agent_only (utterances : list Utterance) :
  detect_privacy_violation (Turns utterances)
  = detect_privacy_violation (Turns (filter agent_turn utterances)).
Proof.
  unfold detect_privacy_violation. cbv zeta.
  rewrite (privacy_fold_agent_only utterances). reflexivity.
Qed.

Lemma inhabited_list {A : Type} (l : list A) : l <> [] <-> exists x, In x l.
Proof.
  destruct l as [|a l]; split.
  - congruence.
  - intros (x & []).
  - intros _. exists a. now left.
  - discriminate.
Qed.

Lemma positive_length {A : Type} (l : list A) :
  (0 <? length l)%nat = true <-> l <> [].
Proof.
  destruct l; simpl; split; intro H; try reflexivity; try discriminate.
  now contradiction H.
Qed.

(** A match of some profanity pattern in the text of the utterance. *)
Definition profanity_in (utt : Utterance) (w : string) : Prop :=
  exists p, In p profanity_patterns /\ In w (findall p (get (text utt) "")).

Lemma swears_iff (utt : Utterance) : swears utt <-> exists w, profanity_in utt w.
Proof.
  unfold swears, profanity_in. split.
  - intros (p & Hp & Hne). apply inhabited_list in Hne. destruct Hne as (w & Hw). eauto.
  - intros (w & p & Hp & Hw). exists p. split; [exact Hp|].
    apply inhabited_list. eauto.
Qed.

Lemma profanity_turn_spec (usage : list string * list string) (utt : Utterance) :
  let usage' := profanity_turn usage utt in
  (forall w, In w (fst usage') <->
             In w (fst usage) \/ (agent_turn utt = true /\ profanity_in utt w)) /\
  (forall w, In w (snd usage') <->
             In w (snd usage) \/ (customer_turn utt = true /\ profanity_in utt w)).
Proof.
  unfold profanity_turn, customer_turn, profanity_in. fold (agent_turn utt). cbv zeta.
  set (found := flat_map (fun pattern => findall pattern (get (text utt) ""))
                  profanity_patterns).
  assert (Hfound : forall w, In w found <->
            exists p, In p profanity_patterns /\ In w (findall p (get (text utt) ""))).
  { intro w. unfold found. rewrite in_flat_map. reflexivity. }
  destruct (nonempty found) eqn:E.
  - destruct (agent_turn utt); cbn [negb andb].
    + cbn [fst snd]. split; intro w.
      * rewrite in_app_iff, Hfound. tauto.
      * split; [auto|]. intros [H | [H _]]; [exact H | discriminate].
    + destruct (contains "customer" (lower (get (speaker utt) ""))); cbn [fst snd].
      * split; intro w.
        -- split; [auto|]. intros [H | [H _]]; [exact H | discriminate].
        -- rewrite in_app_iff, Hfound. tauto.
      * split; intro w; (split; [auto|]); intros [H | [H _]];
          [exact H | discriminate | exact H | discriminate].
  - apply nonempty_false in E.
    split; intro w; (split; [auto|]); intros [H | [_ H]]; try exact H;
      apply Hfound in H; rewrite E in H; destruct H.
Qed.

Lemma profanity_fold (utterances : list Utterance) (usage : list string * list string) :
  let usage' := fold_left profanity_turn utterances usage in
  (forall w, In w (fst usage') <->
             In w (fst usage)
             \/ exists utt, In utt utterances /\ agent_turn utt = true
                            /\ profanity_in utt w) /\
  (forall w, In w (snd usage') <->
             In w (snd usage)
             \/ exists utt, In utt utterances /\ customer_turn utt = true
                            /\ profanity_in utt w).
Proof.
  revert usage. induction utterances as [|u rest IH]; intro usage; cbn [fold_left].
  - cbv zeta. split; intro w; (split; [auto|]); intros [H | (u & [] & _)]; exact H.
  - destruct (IH (profanity_turn usage u)) as (H1 & H2).
    destruct (profanity_turn_spec usage u) as (T1 & T2).
    cbv zeta in H1, H2, T1, T2 |- *.
    split; intro w.
    + rewrite H1, T1. split.
      * intros [[H | Hu] | (v & Hin & Hv)]; [now left | |].
        -- right. exists u. split; [now left | exact Hu].
        -- right. exists v. split; [now right | exact Hv].
      * intros [H | (v & [<- | Hin] & Hv)]; [auto | left; right; exact Hv |].
        right. exists v. auto.
    + rewrite H2, T2. split.
      * intros [[H | Hu] | (v & Hin & Hv)]; [now left | |].
        -- right. exists u. split; [now left | exact Hu].
        -- right. exists v. split; [now right | exact Hv].
      * intros [H | (v & [<- | Hin] & Hv)]; [auto | left; right; exact Hv |].
        right. exists v. auto.
Qed.

(** X10: on a list of utterances [detect_profanity] raises nothing.  The
    agent is reported to have used profanity exactly when some utterance
    whose speaker label contains "agent" (whatever the case of its letters)
    matches a profanity pattern; the customer, exactly when such a match is in
    an utterance whose label contains "customer" and not "agent".  The usage
    lists hold the matches of those utterances, each once, and a flag is set
    exactly when its list is not empty. *)
Theorem profanity_decided (utterances : list Utterance) :
  exists r,
    detect_profanity (Turns utterances) = Ok r /\
    (agent_has_profanity r = true <->
     exists utt, In utt utterances /\ agent_turn utt = true /\ swears utt) /\
    (customer_has_profanity r = true <->
     exists utt, In utt utterances /\ customer_turn utt = true /\ swears utt) /\
    (forall w, In w (agent_profanity_usage r) <->
               exists utt, In utt utterances /\ agent_turn utt = true
                           /\ profanity_in utt w) /\
    (forall w, In w (customer_profanity_usage r) <->
               exists utt, In utt utterances /\ customer_turn utt = true
                           /\ profanity_in utt w) /\
    (agent_has_profanity r = true <-> agent_profanity_usage r <> []) /\
    (customer_has_profanity r = true <-> customer_profanity_usage r <> []) /\
    NoDup (agent_profanity_usage r) /\
    NoDup (customer_profanity_usage r).
Proof.
  eexists. split; [reflexivity|].
  cbn [agent_has_profanity customer_has_profanity agent_profanity_usage
       customer_profanity_usage].
  destruct (profanity_fold utterances ([], [])) as (H1 & H2).
  cbv zeta in H1, H2. cbn [fst snd] in H1, H2.
  set (usage := fold_left profanity_turn utterances ([], [])) in *.
  assert (Ha : forall w, In w (fst usage) <->
             exists utt, In utt utterances /\ agent_turn utt = true /\ profanity_in utt w).
  { intro w. rewrite H1. split; [intros [[] | H]; exact H | auto]. }
  assert (Hc : forall w, In w (snd usage) <->
             exists utt, In utt utterances /\ customer_turn utt = true /\ profanity_in utt w).
  { intro w. rewrite H2. split; [intros [[] | H]; exact H | auto]. }
  split; [|split; [|split; [|split; [|split; [|split; [|split]]]]]].
  - rewrite positive_length, inhabited_list. split.
    + intros (w & Hw). apply Ha in Hw. destruct Hw as (u & Hu & Hag & Hw).
      exists u. split; [exact Hu|]. split; [exact Hag|]. apply swears_iff. eauto.
    + intros (u & Hu & Hag & Hs). apply swears_iff in Hs. destruct Hs as (w & Hw).
      exists w. apply Ha. eauto.
  - rewrite positive_length, inhabited_list. split.
    + intros (w & Hw). apply Hc in Hw. destruct Hw as (u & Hu & Hag & Hw).
      exists u. split; [exact Hu|]. split; [exact Hag|]. apply swears_iff. eauto.
    + intros (u & Hu & Hag & Hs). apply swears_iff in Hs. destruct Hs as (w & Hw).
      exists w. apply Hc. eauto.
  - intro w. rewrite listing_In. apply Ha.
  - intro w. rewrite listing_In. apply Hc.
  - rewrite positive_length, !inhabited_list.
    split; intros (w & Hw); exists w; now apply listing_In.
  - rewrite positive_length, !inhabited_list.
    split; intros (w & Hw); exists w; now apply listing_In.
  - apply listing_NoDup.
  - apply listing_NoDup.
Qed.

End PatternMatcherFacts.

(** ** Call ids *)

(** The characters of a string. *)
Definition chars (s : string) : list ascii := list_ascii_of_string s.

Lemma append_assoc (a b c : string) : (a ++ b) ++ c = a ++ (b ++ c).
Proof. induction a as [|x a IH]; simpl; [reflexivity | now rewrite IH]. Qed.

Lemma append_empty_r (a : string) : a ++ "" = a.
Proof. induction a as [|x a IH]; simpl; [reflexivity | now rewrite IH]. Qed.

Lemma chars_append (a b : string) : chars (a ++ b) = (chars a ++ chars b)%list.
Proof. induction a as [|x a IH]; simpl; [reflexivity | now rewrite IH]. Qed.

Lemma last_component_no_slash (current s : string) :
  ~ In "/"%char (chars current) ->
  ~ In "/"%char (chars (last_component current s)).
Proof.
  revert current. induction s as [|c rest IH]; intros current Hc; simpl; [exact Hc|].
  destruct (Ascii.eqb c "/") eqn:E.
  - apply IH. simpl. tauto.
  - apply IH. rewrite chars_append, in_app_iff. simpl.
    apply Ascii.eqb_neq in E. intros [H | [H | []]]; [auto | congruence].
Qed.

Lemma last_component_after_slash (current x y : string) :
  last_component current (x ++ String "/" y) = last_component "" y.
Proof.
  revert current. induction x as [|c x IH]; intro current; simpl; [reflexivity|].
  destruct (Ascii.eqb c "/"); apply IH.
Qed.

Lemma last_component_plain (current s : string) :
  ~ In "/"%char (chars s) -> last_component current s = current ++ s.
Proof.
  revert current. induction s as [|c rest IH]; intros current Hs; simpl.
  - now rewrite append_empty_r.
  - simpl in Hs. destruct (Ascii.eqb c "/") eqn:E.
    + apply Ascii.eqb_eq in E. subst. tauto.
    + rewrite IH by tauto. now rewrite append_assoc.
Qed.

Lemma prefix_json_length (d : string) :
  prefix ".json" d = true -> (5 <= String.length d)%nat.
Proof.
  destruct d as [|c1 [|c2 [|c3 [|c4 [|c5 d]]]]]; cbn [prefix String.length];
    repeat (destruct (ascii_dec _ _); try discriminate);
    intro H; try discriminate H; lia.
Qed.

Lemma prefix_json_slash (d rest : string) :
  prefix ".json" (d ++ String "/" rest) = prefix ".json" d.
Proof.
  destruct d as [|c1 [|c2 [|c3 [|c4 [|c5 d]]]]]; cbn [prefix append];
    repeat (destruct (ascii_dec _ _); try discriminate; try reflexivity).
  destruct d; reflexivity.
Qed.

(** An occurrence of [.json] holds no slash, so it lies on one side of it. *)
Lemma drop_json_slash (d rest : string) (skip : nat) :
  (skip <= String.length d)%nat ->
  drop_json skip (d ++ String "/" rest)
  = drop_json skip d ++ String "/" (drop_json 0 rest).
Proof.
  revert skip. induction d as [|c d IH]; intros skip Hskip.
  - simpl in Hskip. assert (skip = 0%nat) as -> by lia. reflexivity.
  - destruct skip as [|k].
    + change (drop_json 0 (String c d ++ String "/" rest))
        with (if prefix ".json" (String c d ++ String "/" rest)
              then drop_json 4 (d ++ String "/" rest)
              else String c (drop_json 0 (d ++ String "/" rest))).
      change (drop_json 0 (String c d))
        with (if prefix ".json" (String c d)
              then drop_json 4 d else String c (drop_json 0 d)).
      rewrite prefix_json_slash.
      destruct (prefix ".json" (String c d)) eqn:E.
      * apply prefix_json_length in E. simpl in E. apply IH. lia.
      * rewrite IH by lia. reflexivity.
    + simpl in Hskip. change (drop_json (S k) (String c d ++ String "/" rest))
        with (drop_json k (d ++ String "/" rest)).
      change (drop_json (S k) (String c d)) with (drop_json k d).
      apply IH. lia.
Qed.

Lemma drop_json_plain (base : string) :
  ~ In "."%char (chars base) -> drop_json 0 (base ++ ".json") = base.
Proof.
  induction base as [|c base IH]; intro H; [reflexivity|].
  simpl in H.
  change (drop_json 0 (String c base ++ ".json"))
    with (if prefix ".json" (String c (base ++ ".json"))
          then drop_json 4 (base ++ ".json")
          else String c (drop_json 0 (base ++ ".json"))).
  assert (E : prefix ".json" (String c (base ++ ".json")) = false).
  { cbn [prefix]. destruct (ascii_dec "." c) as [<- | _]; [tauto | reflexivity]. }
  rewrite E, IH by tauto. reflexivity.
Qed.

(** X11: the call id of a member of the archive holds no slash and does not
    depend on the folder the member is in; a member [folder/base.json] whose
    [base] holds neither a dot nor a slash gets the call id [base].  So two
    members of the same name in different folders get the same call id. *)
Theorem call_id_is_the_base_name (folder file_name base : string) :
  ~ In "/"%char (chars (call_id_of file_name)) /\
  call_id_of (folder ++ String "/" file_name) = call_id_of file_name /\
  (~ In "."%char (chars base) -> ~ In "/"%char (chars base) ->
   call_id_of (folder ++ String "/" (base ++ ".json")) = base).
Proof.
  assert (Hfolder : forall name,
             call_id_of (folder ++ String "/" name) = call_id_of name).
  { intro name. unfold call_id_of.
    rewrite drop_json_slash by lia. apply last_component_after_slash. }
  split; [|split].
  - apply last_component_no_slash. simpl. tauto.
  - apply Hfolder.
  - intros Hdot Hslash. rewrite Hfolder. unfold call_id_of.
    rewrite drop_json_plain by exact Hdot.
    now rewrite last_component_plain.
Qed.

(** ** Dictionaries *)

Lemma keys_dict_set {V : Type} (key : string) (value : V) (d : dict V) (k : string) :
  In k (keys (dict_set key value d)) <-> k = key \/ In k (keys d).
Proof.
  induction d as [|[k0 v0] rest IH]; simpl.
  - split; [intros [H | []]; auto | intros [H | []]; auto].
  - destruct (String.eqb k0 key) eqn:E; simpl.
    + apply String.eqb_eq in E. subst. intuition congruence.
    + rewrite IH. intuition congruence.
Qed.

Lemma dict_set_NoDup {V : Type} (key : string) (value : V) (d : dict V) :
  NoDup (keys d) -> NoDup (keys (dict_set key value d)).
Proof.
  induction d as [|[k0 v0] rest IH]; simpl; intro H.
  - constructor; [intros [] | constructor].
  - inversion H as [|? ? Hk Hrest]; subst.
    destruct (String.eqb k0 key) eqn:E; simpl.
    + constructor; assumption.
    + constructor; [|now apply IH].
      rewrite keys_dict_set. apply String.eqb_neq in E. intros [-> | Hin]; auto.
Qed.

Lemma dict_set_fresh {V : Type} (key : string) (value : V) (d : dict V) :
  ~ In key (keys d) -> dict_set key value d = (d ++ [(key, value)])%list.
Proof.
  induction d as [|[k0 v0] rest IH]; simpl; intro H; [reflexivity|].
  destruct (String.eqb k0 key) eqn:E.
  - apply String.eqb_eq in E. subst. tauto.
  - rewrite IH by tauto. reflexivity.
Qed.

Lemma dict_set_here {V : Type} (key : string) (value : V) (d : dict V) :
  In (key, value) (dict_set key value d).
Proof.
  induction d as [|[k0 v0] rest IH]; simpl; [now left|].
  destruct (String.eqb k0 key) eqn:E.
  - apply String.eqb_eq in E. subst. now left.
  - right. exact IH.
Qed.

Lemma dict_set_other {V : Type} (key : string) (value : V) (d : dict V)
      (k : string) (v : V) :
  k <> key -> In (k, v) d -> In (k, v) (dict_set key value d).
Proof.
  intro Hk. induction d as [|[k0 v0] rest IH]; simpl; [tauto|].
  intros [H | H].
  - injection H as -> ->. destruct (String.eqb k key) eqn:E.
    + apply String.eqb_eq in E. contradiction.
    + now left.
  - destruct (String.eqb k0 key); right; auto.
Qed.

(** ** What the loader stores *)

(** What a readable member is stored as. *)
Definition stored (file_name : string) (content : member_content)
  : option Conversation :=
  match content with
  | Parsed utterances => Some (Turns utterances)
  | JSONDecodeError => Some (ErrorRecord ("Invalid JSON: " ++ file_name))
  | OtherError => None
  end.

(** No [.json] member of the list fails to be read. *)
Definition readable (members : list (string * member_content)) : Prop :=
  forall name, In (name, OtherError) members -> endswith name ".json" = false.

(** No [.json] member of the list has the call id [key]. *)
Definition not_rewritten (key : string) (members : list (string * member_content))
  : Prop :=
  forall name content,
    In (name, content) members -> endswith name ".json" = true ->
    call_id_of name <> key.

Lemma load_members_NoDup (members : list (string * member_content))
      (conversations : dict Conversation) :
  NoDup (keys conversations) ->
  NoDup (keys (load_members members conversations)).
Proof.
  revert conversations.
  induction members as [|[name content] rest IH]; intros conversations H; simpl;
    [exact H|].
  destruct (endswith name ".json"); [|now apply IH].
  destruct content; [| |exact H]; apply IH; now apply dict_set_NoDup.
Qed.

Lemma load_members_keys (members : list (string * member_content))
      (conversations : dict Conversation) (k : string) :
  In k (keys (load_members members conversations)) ->
  In k (keys conversations)
  \/ exists name content,
       In (name, content) members /\ endswith name ".json" = true
       /\ content <> OtherError /\ k = call_id_of name.
Proof.
  revert conversations.
  induction members as [|[name content] rest IH]; intros conversations H; simpl in H;
    [now left|].
  destruct (endswith name ".json") eqn:E.
  - destruct content.
    + apply IH in H. destruct H as [H | (n & c & Hin & He & Hc & Hk)].
      * apply keys_dict_set in H. destruct H as [-> | H]; [|now left].
        right. exists name, (Parsed utterances).
        repeat split; [now left | exact E | discriminate].
      * right. exists n, c. repeat split; auto. now right.
    + apply IH in H. destruct H as [H | (n & c & Hin & He & Hc & Hk)].
      * apply keys_dict_set in H. destruct H as [-> | H]; [|now left].
        right. exists name, JSONDecodeError.
        repeat split; [now left | exact E | discriminate].
      * right. exists n, c. repeat split; auto. now right.
    + now left.
  - apply IH in H. destruct H as [H | (n & c & Hin & He & Hc & Hk)]; [now left|].
    right. exists n, c. repeat split; auto. now right.
Qed.

Lemma load_members_stop (before after : list (string * member_content))
      (name : string) (conversations : dict Conversation) :
  endswith name ".json" = true ->
  load_members (before ++ (name, OtherError) :: after) conversations
  = load_members before conversations.
Proof.
  intro E. revert conversations.
  induction before as [|[n c] rest IH]; intro conversations; simpl.
  - now rewrite E.
  - destruct (endswith n ".json"); [|apply IH].
    destruct c; [apply IH | apply IH | reflexivity].
Qed.

Lemma load_members_app (before after : list (string * member_content))
      (conversations : dict Conversation) :
  readable before ->
  load_members (before ++ after) conversations
  = load_members after (load_members before conversations).
Proof.
  revert conversations.
  induction before as [|[n c] rest IH]; intros conversations Hr; simpl; [reflexivity|].
  assert (Hrest : readable rest).
  { intros name Hin. apply Hr. now right. }
  destruct (endswith n ".json") eqn:E; [|now apply IH].
  destruct c; [now apply IH | now apply IH |].
  specialize (Hr n (or_introl eq_refl)). congruence.
Qed.

Lemma load_members_keeps (members : list (string * member_content))
      (conversations : dict Conversation) (key : string) (value : Conversation) :
  not_rewritten key members ->
  In (key, value) conversations ->
  In (key, value) (load_members members conversations).
Proof.
  revert conversations.
  induction members as [|[n c] rest IH]; intros conversations Hn Hin; simpl;
    [exact Hin|].
  assert (Hrest : not_rewritten key rest).
  { intros name content H He. apply (Hn name content); [now right | exact He]. }
  destruct (endswith n ".json") eqn:E; [|now apply IH].
  assert (Hkey : key <> call_id_of n).
  { intro H. apply (Hn n c (or_introl eq_refl) E). now symmetry. }
  destruct c; [| |exact Hin]; apply IH; auto; now apply dict_set_other.
Qed.

(** X12: the dictionary that [load_conversations_from_zip] returns has no
    key twice, and each of its keys is the call id of a [.json] member of the
    archive that could be read; what is not a zip archive gives the empty
    dictionary. *)
Theorem loaded_keys_are_call_ids (zip : zip_file) :
  NoDup (keys (load_conversations_from_zip zip)) /\
  (forall k, In k (keys (load_conversations_from_zip zip)) ->
             exists members name content,
               zip = Archive members /\ In (name, content) members /\
               endswith name ".json" = true /\ content <> OtherError /\
               k = call_id_of name) /\
  load_conversations_from_zip NotAZip = [].
Proof.
  split; [|split; [|reflexivity]].
  - destruct zip as [|members]; simpl; [constructor|].
    apply load_members_NoDup. constructor.
  - intros k Hk. destruct zip as [|members]; simpl in Hk; [destruct Hk|].
    apply load_members_keys in Hk. destruct Hk as [[] | (n & c & H)].
    exists members, n, c. tauto.
Qed.

(** X13: a [.json] member that cannot be read ends the loading without a
    trace: the members before it are returned, and whatever follows it in
    the archive is not loaded. *)
Theorem unreadable_member_ends_loading
        (before after : list (string * member_content)) (name : string) :
  endswith name ".json" = true ->
  load_conversations_from_zip (Archive (before ++ (name, OtherError) :: after))
  = load_conversations_from_zip (Archive before).
Proof. intro E. simpl. now apply load_members_stop. Qed.

(** X14: in an archive, a [.json] member before which every [.json] member
    could be read, and whose call id no later [.json] member has, is stored
    under its call id: its utterances, or for a member that is not JSON the
    record of the error, whose message names the file. *)
Theorem readable_member_is_stored
        (before after : list (string * member_content))
        (name : string) (content : member_content) (conversation : Conversation) :
  readable before ->
  endswith name ".json" = true ->
  stored name content = Some conversation ->
  not_rewritten (call_id_of name) after ->
  In (call_id_of name, conversation)
     (load_conversations_from_zip (Archive (before ++ (name, content) :: after))).
Proof.
  intros Hr E Hs Hn. simpl.
  rewrite load_members_app by exact Hr.
  cbn [load_members]. rewrite E.
  destruct content; simpl in Hs; [| |discriminate];
    injection Hs as <-; apply load_members_keeps; auto; apply dict_set_here.
Qed.

(** ** The pattern matching entry points *)

Section EntryPoints.

Context {re : Regex} {set : SetOrder}.

(** The row that a conversation contributes to the frame of
    [privacy_detection_pattern]. *)
Definition violation_row (item : string * Conversation)
  : list (string * list string) :=
  match detect_privacy_violation (snd item) with
  | Ok r => if agent_violated_privacy r
            then [(fst item, sensitive_info_shared r)] else []
  | Raise _ => []
  end.

(** The rows that a conversation contributes to the two frames of
    [profanity_detection_pattern]. *)
Definition agent_row (item : string * Conversation) : list (string * list string) :=
  match detect_profanity (snd item) with
  | Ok r => if agent_has_profanity r
            then [(fst item, agent_profanity_usage r)] else []
  | Raise _ => []
  end.

Definition customer_row (item : string * Conversation)
  : list (string * list string) :=
  match detect_profanity (snd item) with
  | Ok r => if customer_has_profanity r
            then [(fst item, customer_profanity_usage r)] else []
  | Raise _ => []
  end.

Lemma privacy_rows_error (items : list (string * Conversation))
      (violations : dict (list string)) (id message : string) :
  In (id, ErrorRecord message) items ->
  privacy_rows items violations = Raise AttributeError.
Proof.
  revert violations. induction items as [|[k c] rest IH]; intros violations Hin;
    [destruct Hin|].
  cbn [privacy_rows]. destruct c as [utterances | msg]; [|reflexivity].
  destruct Hin as [H | H]; [discriminate H|].
  cbn [detect_privacy_violation]. cbv zeta. now apply IH.
Qed.

Lemma profanity_rows_error (items : list (string * Conversation))
      (flagged : dict (list string) * dict (list string)) (id message : string) :
  In (id, ErrorRecord message) items ->
  profanity_rows items flagged = Raise AttributeError.
Proof.
  revert flagged. induction items as [|[k c] rest IH]; intros flagged Hin;
    [destruct Hin|].
  cbn [profanity_rows]. destruct c as [utterances | msg]; [|reflexivity].
  destruct Hin as [H | H]; [discriminate H|].
  cbn [detect_profanity]. cbv zeta. now apply IH.
Qed.

(** X15: a [.json] member of the archive that is not JSON, before which
    every [.json] member could be read and whose call id no later [.json]
    member has, is stored by the loader as an error record and makes both
    pattern matching entry points raise [AttributeError]: the detectors
    iterate over the record as if it were a list of utterances. *)
Theorem invalid_json_member_fails_pattern_detection
        (before after : list (string * member_content)) (name : string) :
  readable before ->
  endswith name ".json" = true ->
  not_rewritten (call_id_of name) after ->
  profanity_detection_pattern (Archive (before ++ (name, JSONDecodeError) :: after))
  = Raise AttributeError /\
  privacy_detection_pattern (Archive (before ++ (name, JSONDecodeError) :: after))
  = Raise AttributeError.
Proof.
  intros Hr E Hn.
  assert (Hin : In (call_id_of name, ErrorRecord ("Invalid JSON: " ++ name))
                   (load_conversations_from_zip
                      (Archive (before ++ (name, JSONDecodeError) :: after)))).
  { simpl. rewrite load_members_app by exact Hr.
    cbn [load_members]. rewrite E.
    apply load_members_keeps; [exact Hn | apply dict_set_here]. }
  split.
  - unfold profanity_detection_pattern. eapply profanity_rows_error. exact Hin.
  - unfold privacy_detection_pattern. eapply privacy_rows_error. exact Hin.
Qed.

Lemma violation_row_keys (item : string * Conversation) (k : string) :
  In k (keys (violation_row item)) -> k = fst item.
Proof.
  unfold violation_row. destruct (detect_privacy_violation (snd item)) as [r|e];
    [|intros []].
  destruct (agent_violated_privacy r); simpl; [|intros []].
  intros [<- | []]. reflexivity.
Qed.

Lemma violation_row_length (item : string * Conversation) :
  (length (violation_row item) <= 1)%nat.
Proof.
  unfold violation_row. destruct (detect_privacy_violation (snd item)) as [r|e];
    [|simpl; lia].
  destruct (agent_violated_privacy r); simpl; lia.
Qed.

Lemma flat_map_keys (f : string * Conversation -> list (string * list string))
      (items : list (string * Conversation)) (k : string) :
  (forall item k', In k' (keys (f item)) -> k' = fst item) ->
  In k (keys (flat_map f items)) -> In k (keys items).
Proof.
  intros Hf. unfold keys. rewrite in_map_iff. intros ([k' v] & Hk & Hin).
  simpl in Hk. subst. apply in_flat_map in Hin. destruct Hin as (item & Hitem & Hrow).
  apply in_map_iff. exists item. split; [|exact Hitem].
  symmetry. apply (Hf item). apply in_map_iff. exists (k, v). auto.
Qed.

Lemma flat_map_keys_NoDup (f : string * Conversation -> list (string * list string))
      (items : list (string * Conversation)) :
  (forall item k', In k' (keys (f item)) -> k' = fst item) ->
  (forall item, (length (f item) <= 1)%nat) ->
  NoDup (keys items) -> NoDup (keys (flat_map f items)).
Proof.
  intros Hf Hlen. induction items as [|item rest IH]; intro Hnd; simpl; [constructor|].
  inversion Hnd as [|? ? Hfresh Hrest]; subst.
  specialize (Hlen item). pose proof (Hf item) as Hk.
  destruct (f item) as [|[k v] [|? ?]]; simpl in *; [now apply IH | | lia].
  constructor; [|now apply IH].
  rewrite (Hk k (or_introl eq_refl)). intro Hin. apply Hfresh.
  now apply (flat_map_keys f rest).
Qed.

Lemma flat_map_length_le {A B : Type} (f : A -> list B) (l : list A) :
  (forall a, (length (f a) <= 1)%nat) ->
  (length (flat_map f l) <= length l)%nat.
Proof.
  intro Hf. induction l as [|a l IH]; simpl; [lia|].
  rewrite length_app. specialize (Hf a). lia.
Qed.

Lemma privacy_rows_spec (items : list (string * Conversation))
      (violations rows : dict (list string)) :
  NoDup (keys items) ->
  (forall k, In k (keys violations) -> ~ In k (keys items)) ->
  privacy_rows items violations = Ok rows ->
  rows = (violations ++ flat_map violation_row items)%list.
Proof.
  revert violations. induction items as [|[id c] rest IH];
    intros violations Hnd Hfresh Hrows.
  - simpl in Hrows. injection Hrows as <-. now rewrite app_nil_r.
  - cbn [privacy_rows] in Hrows. cbn [flat_map].
    unfold violation_row at 1. cbn [fst snd].
    inversion Hnd as [|? ? Hid Hrest]; subst.
    destruct (detect_privacy_violation c) as [r|e]; [|discriminate].
    destruct (agent_violated_privacy r).
    + rewrite dict_set_fresh in Hrows.
      * apply IH in Hrows; [|exact Hrest|].
        -- rewrite Hrows, <- app_assoc. reflexivity.
        -- intros k Hk. unfold keys in Hk. rewrite map_app, in_app_iff in Hk.
           destruct Hk as [Hk | [<- | []]]; [|exact Hid].
           intro Hin. apply (Hfresh k Hk). now right.
      * intro Hin. apply (Hfresh id Hin). now left.
    + apply IH in Hrows; [exact Hrows | exact Hrest |].
      intros k Hk Hin. apply (Hfresh k Hk). now right.
Qed.

(** X16: when [privacy_detection_pattern] returns, its frame has one row for
    each loaded conversation in which [detect_privacy_violation] reports a
    violation, holding the call id and the sensitive items, in the order of
    loading; no call id is in two rows, and there are no more rows than
    conversations. *)
Theorem privacy_rows_are_the_violations
        (zip : zip_file) (rows : list (string * list string)) :
  privacy_detection_pattern zip = Ok rows ->
  rows = flat_map violation_row (load_conversations_from_zip zip) /\
  NoDup (keys rows) /\
  (length rows <= length (load_conversations_from_zip zip))%nat /\
  (forall id info,
      In (id, info) rows <->
      exists utterances r,
        In (id, Turns utterances) (load_conversations_from_zip zip) /\
        detect_privacy_violation (Turns utterances) = Ok r /\
        agent_violated_privacy r = true /\
        info = sensitive_info_shared r).
Proof.
  intro Hrows. unfold privacy_detection_pattern in Hrows.
  assert (Hnd : NoDup (keys (load_conversations_from_zip zip))).
  { destruct zip as [|members]; simpl; [constructor|].
    apply load_members_NoDup. constructor. }
  apply privacy_rows_spec in Hrows; [|exact Hnd | intros k []].
  cbn [app] in Hrows. subst rows.
  split; [reflexivity|]. split; [|split].
  - apply flat_map_keys_NoDup;
      [exact violation_row_keys | exact violation_row_length | exact Hnd].
  - apply flat_map_length_le. exact violation_row_length.
  - intros id info. rewrite in_flat_map. split.
    + intros ([k c] & Hitem & Hrow). unfold violation_row in Hrow. cbn [fst snd] in Hrow.
      destruct c as [utterances | msg]; [|destruct Hrow].
      destruct (detect_privacy_violation (Turns utterances)) as [r|e] eqn:Hd;
        [|destruct Hrow].
      destruct (agent_violated_privacy r) eqn:Hv; [|destruct Hrow].
      destruct Hrow as [H | []]. injection H as <- <-.
      exists utterances, r. auto.
    + intros (utterances & r & Hitem & Hd & Hv & ->).
      exists (id, Turns utterances). split; [exact Hitem|].
      unfold violation_row. cbn [fst snd]. rewrite Hd, Hv. now left.
Qed.

Lemma agent_row_keys (item : string * Conversation) (k : string) :
  In k (keys (agent_row item)) -> k = fst item.
Proof.
  unfold agent_row. destruct (detect_profanity (snd item)) as [r|e]; [|intros []].
  destruct (agent_has_profanity r); simpl; [|intros []].
  intros [<- | []]. reflexivity.
Qed.

Lemma customer_row_keys (item : string * Conversation) (k : string) :
  In k (keys (customer_row item)) -> k = fst item.
Proof.
  unfold customer_row. destruct (detect_profanity (snd item)) as [r|e]; [|intros []].
  destruct (customer_has_profanity r); simpl; [|intros []].
  intros [<- | []]. reflexivity.
Qed.

Lemma agent_row_length (item : string * Conversation) :
  (length (agent_row item) <= 1)%nat.
Proof.
  unfold agent_row. destruct (detect_profanity (snd item)) as [r|e]; [|simpl; lia].
  destruct (agent_has_profanity r); simpl; lia.
Qed.

Lemma customer_row_length (item : string * Conversation) :
  (length (customer_row item) <= 1)%nat.
Proof.
  unfold customer_row. destruct (detect_profanity (snd item)) as [r|e]; [|simpl; lia].
  destruct (customer_has_profanity r); simpl; lia.
Qed.

Lemma fresh_after_append (d : dict (list string)) (id : string) (v : list string)
      (rest : list (string * Conversation)) :
  (forall k, In k (keys d) -> ~ In k (id :: keys rest)) ->
  ~ In id (keys rest) ->
  forall k, In k (keys (d ++ [(id, v)])%list) -> ~ In k (keys rest).
Proof.
  intros Hfresh Hid k Hk. unfold keys in Hk. rewrite map_app, in_app_iff in Hk.
  destruct Hk as [Hk | [<- | []]]; [|exact Hid].
  intro Hin. apply (Hfresh k Hk). now right.
Qed.

Lemma profanity_rows_spec (items : list (string * Conversation))
      (flagged rows : dict (list string) * dict (list string)) :
  NoDup (keys items) ->
  (forall k, In k (keys (fst flagged)) -> ~ In k (keys items)) ->
  (forall k, In k (keys (snd flagged)) -> ~ In k (keys items)) ->
  profanity_rows items flagged = Ok rows ->
  fst rows = (fst flagged ++ flat_map agent_row items)%list /\
  snd rows = (snd flagged ++ flat_map customer_row items)%list.
Proof.
  revert flagged. induction items as [|[id c] rest IH];
    intros [agent customer] Hnd Ha Hc Hrows.
  - simpl in Hrows. injection Hrows as <-. simpl. now rewrite !app_nil_r.
  - cbn [profanity_rows] in Hrows. cbn [flat_map fst snd] in *.
    unfold agent_row at 1. unfold customer_row at 1. cbn [fst snd].
    inversion Hnd as [|? ? Hid Hrest]; subst.
    destruct (detect_profanity c) as [r|e]; [|discriminate].
    assert (Ha' : forall k, In k (keys agent) -> ~ In k (keys rest)).
    { intros k Hk Hin. apply (Ha k Hk). now right. }
    assert (Hc' : forall k, In k (keys customer) -> ~ In k (keys rest)).
    { intros k Hk Hin. apply (Hc k Hk). now right. }
    destruct (agent_has_profanity r); destruct (customer_has_profanity r);
      try rewrite (dict_set_fresh id _ agent) in Hrows
        by (intro Hin; apply (Ha id Hin); now left);
      try rewrite (dict_set_fresh id _ customer) in Hrows
        by (intro Hin; apply (Hc id Hin); now left);
      apply IH in Hrows; cbn [fst snd] in *; try exact Hrest;
      try (now apply fresh_after_append); try assumption;
      destruct Hrows as [-> ->]; rewrite <- ?app_assoc; split; reflexivity.
Qed.

(** X17: when [profanity_detection_pattern] returns, its two frames have one
    row for each loaded conversation in which [detect_profanity] reports
    profanity of the agent, and of the customer, holding the call id and the
    words, in the order of loading; in each frame no call id is in two rows,
    and there are no more rows than conversations. *)
Theorem profanity_rows_are_the_flagged_calls
        (zip : zip_file)
        (agent_rows customer_rows : list (string * list string)) :
  profanity_detection_pattern zip = Ok (agent_rows, customer_rows) ->
  agent_rows = flat_map agent_row (load_conversations_from_zip zip) /\
  customer_rows = flat_map customer_row (load_conversations_from_zip zip) /\
  NoDup (keys agent_rows) /\
  NoDup (keys customer_rows) /\
  (length agent_rows <= length (load_conversations_from_zip zip))%nat /\
  (length customer_rows <= length (load_conversations_from_zip zip))%nat /\
  (forall id usage,
      In (id, usage) agent_rows <->
      exists utterances r,
        In (id, Turns utterances) (load_conversations_from_zip zip) /\
        detect_profanity (Turns utterances) = Ok r /\
        agent_has_profanity r = true /\
        usage = agent_profanity_usage r).
Proof.
  intro Hrows. unfold profanity_detection_pattern in Hrows.
  assert (Hnd : NoDup (keys (load_conversations_from_zip zip))).
  { destruct zip as [|members]; simpl; [constructor|].
    apply load_members_NoDup. constructor. }
  apply profanity_rows_spec in Hrows; [|exact Hnd | intros k [] | intros k []].
  cbn [fst snd app] in Hrows. destruct Hrows as [-> ->].
  split; [reflexivity|]. split; [reflexivity|].
  split; [|split; [|split; [|split]]].
  - apply flat_map_keys_NoDup;
      [exact agent_row_keys | exact agent_row_length | exact Hnd].
  - apply flat_map_keys_NoDup;
      [exact customer_row_keys | exact customer_row_length | exact Hnd].
  - apply flat_map_length_le. exact agent_row_length.
  - apply flat_map_length_le. exact customer_row_length.
  - intros id usage. rewrite in_flat_map. split.
    + intros ([k c] & Hitem & Hrow). unfold agent_row in Hrow. cbn [fst snd] in Hrow.
      destruct c as [utterances | msg]; [|destruct Hrow].
      destruct (detect_profanity (Turns utterances)) as [r|e] eqn:Hd;
        [|destruct Hrow].
      destruct (agent_has_profanity r) eqn:Hv; [|destruct Hrow].
      destruct Hrow as [H | []]. injection H as <- <-.
      exists utterances, r. auto.
    + intros (utterances & r & Hitem & Hd & Hv & ->).
      exists (id, Turns utterances). split; [exact Hitem|].
      unfold agent_row. cbn [fst snd]. rewrite Hd, Hv. now left.
Qed.

End EntryPoints.

(** ** The text handed to the model *)

(** The lines of one speaker: the texts of the utterances whose speaker is
    [who], each followed by a newline. *)
Fixpoint lines_of (who : string) (conversation : list Utterance) : string :=
  match conversation with
  | [] => ""
  | i :: rest =>
      (if String.eqb (get (speaker i) "") who
       then get (text i) "" ++ newline else "")
      ++ lines_of who rest
  end.

(** The utterance has the keys that [clean_conversation] reads: [speaker],
    and [text] when the speaker is the agent or the customer. *)
Definition complete (i : Utterance) : bool :=
  match speaker i with
  | None => false
  | Some who =>
      if String.eqb who "Agent" || String.eqb who "Customer"
      then match text i with Some _ => true | None => false end
      else true
  end.

Lemma clean_turn_complete (texts : string * string) (i : Utterance) :
  complete i = true ->
  clean_turn texts i
  = Ok (fst texts ++ (if String.eqb (get (speaker i) "") "Agent"
                      then get (text i) "" ++ newline else ""),
        snd texts ++ (if String.eqb (get (speaker i) "") "Customer"
                      then get (text i) "" ++ newline else "")).
Proof.
  unfold complete, clean_turn. destruct texts as [a c].
  destruct (speaker i) as [who|]; [|discriminate]. cbn [get fst snd].
  destruct (String.eqb who "Agent") eqn:Ea.
  - apply String.eqb_eq in Ea. subst who. cbn [orb].
    destruct (text i) as [t|]; [|discriminate]. intros _.
    change (String.eqb "Agent" "Customer") with false.
    cbn [get]. now rewrite append_empty_r.
  - cbn [orb]. destruct (String.eqb who "Customer") eqn:Ec.
    + destruct (text i) as [t|]; [|discriminate]. intros _.
      cbn [get]. now rewrite append_empty_r.
    + intros _. now rewrite !append_empty_r.
Qed.

Lemma clean_turn_incomplete (texts : string * string) (i : Utterance) :
  complete i = false ->
  exists key, (key = "speaker" \/ key = "text")
              /\ clean_turn texts i = Raise (KeyError key).
Proof.
  unfold complete, clean_turn.
  destruct (speaker i) as [who|]; [|intros _; exists "speaker"; auto].
  destruct (String.eqb who "Agent"); cbn [orb].
  - destruct (text i); [discriminate|]. intros _. exists "text". auto.
  - destruct (String.eqb who "Customer"); [|discriminate].
    destruct (text i); [discriminate|]. intros _. exists "text". auto.
Qed.

Lemma clean_turns_complete (conversation : list Utterance) (texts : string * string) :
  forallb complete conversation = true ->
  clean_turns texts conversation
  = Ok (fst texts ++ lines_of "Agent" conversation,
        snd texts ++ lines_of "Customer" conversation).
Proof.
  revert texts. induction conversation as [|i rest IH]; intros [a c] H.
  - simpl. now rewrite !append_empty_r.
  - cbn [forallb] in H. apply andb_true_iff in H. destruct H as [Hi Hrest].
    cbn [clean_turns]. rewrite (clean_turn_complete (a, c) i Hi).
    rewrite (IH _ Hrest). cbn [fst snd lines_of]. now rewrite !append_assoc.
Qed.

Lemma clean_turns_incomplete (conversation : list Utterance) (texts : string * string) :
  forallb complete conversation = false ->
  exists key, (key = "speaker" \/ key = "text")
              /\ clean_turns texts conversation = Raise (KeyError key).
Proof.
  revert texts. induction conversation as [|i rest IH]; intros texts H;
    [discriminate|].
  cbn [forallb] in H. cbn [clean_turns].
  destruct (complete i) eqn:Hi.
  - rewrite (clean_turn_complete texts i Hi). apply IH. exact H.
  - destruct (clean_turn_incomplete texts i Hi) as (key & Hkey & ->). eauto.
Qed.

(** X18: [clean_conversation] returns exactly when every utterance has the
    keys it reads, and raises [KeyError] on the first one that does not.
    What it returns holds the agent's texts, one to a line and in their
    order, and then the customer's: which of the two spoke between two
    utterances of the other cannot be told from it, and utterances of any
    other speaker are not in it. *)
Theorem clean_conversation_groups_by_speaker (conversation : list Utterance) :
  (forallb complete conversation = true ->
   clean_conversation (Turns conversation)
   = Ok ("Agent:" ++ newline ++ lines_of "Agent" conversation ++ newline
         ++ "Customer:" ++ newline ++ lines_of "Customer" conversation)) /\
  (forallb complete conversation = false ->
   exists key, (key = "speaker" \/ key = "text")
               /\ clean_conversation (Turns conversation) = Raise (KeyError key)).
Proof.
  split; intro H; unfold clean_conversation.
  - rewrite (clean_turns_complete conversation ("", "") H). reflexivity.
  - destruct (clean_turns_incomplete conversation ("", "") H) as (key & Hkey & ->).
    eauto.
Qed.

(** ** Detection with the language model *)

(** What one call of [structured_llm.batch] comes to. *)
Inductive batch_reply (Out : Type) : Type :=
| Replied (result : list Out)
| RateLimitError
| OtherException.
Arguments Replied {Out} result.
Arguments RateLimitError {Out}.
Arguments OtherException {Out}.

(** The model: what its [n]-th call answers to the prompts it is given. *)
Class StructuredLLM (Out : Type) : Type := {
  batch : nat -> list string -> batch_reply Out
}.

Definition batch_size : nat := 5.

Section Batching.

Context {Out : Type} {llm : StructuredLLM Out}.

Variable batch_input : list string.

(** The [while i < len(batch_input)] loop, [call] counting the calls made to
    the model.  After a [RateLimitError] the same batch is sent again (the
    sleep is not modelled); after any other exception the batch is given up.
    [None]: the loop is still running when [fuel] passes are done. *)
Fixpoint batch_loop (fuel call i : nat) (outputs : list Out) : option (list Out) :=
  match fuel with
  | O => if (i <? length batch_input)%nat then None else Some outputs
  | S fuel' =>
      if (i <? length batch_input)%nat then
        match batch call (firstn batch_size (skipn i batch_input)) with
        | Replied result =>
            batch_loop fuel' (S call) (i + batch_size) (outputs ++ result)%list
        | RateLimitError => batch_loop fuel' (S call) i outputs
        | OtherException => batch_loop fuel' (S call) (i + batch_size) outputs
        end
      else Some outputs
  end.

End Batching.

Section PrivacyLLM.

Context {llm : StructuredLLM PrivacyResult}.

(** [privacy_fill_prompt]: the prompt made of a cleaned conversation. *)
Variable privacy_fill_prompt : string -> string.

(** The loop that fills [batch_input]. *)
Fixpoint privacy_prompts (items : list (string * Conversation))
  : result (list string) :=
  match items with
  | [] => Ok []
  | (_, conversation) :: rest =>
      match clean_conversation conversation with
      | Raise e => Raise e
      | Ok cleaned =>
          match privacy_prompts rest with
          | Raise e => Raise e
          | Ok prompts => Ok (privacy_fill_prompt cleaned :: prompts)
          end
      end
  end.

(** The loop over [enumerate(outputs)]. *)
Fixpoint privacy_attribute (conversation_ids : list string) (idx : nat)
         (outputs : list PrivacyResult) (privacy_violated : dict (list string))
  : result (dict (list string)) :=
  match outputs with
  | [] => Ok privacy_violated
  | output :: rest =>
      match nth_error conversation_ids idx with
      | None => Raise IndexError
      | Some conv_id =>
          privacy_attribute conversation_ids (S idx) rest
            (if agent_violated_privacy output && negb (verification_attempted output)
             then dict_set conv_id (sensitive_info_shared output) privacy_violated
             else privacy_violated)
      end
  end.

Definition privacy_detection_llm (fuel : nat) (zip : zip_file)
  : option (result (list (string * list string))) :=
  let conversations := load_conversations_from_zip zip in
  let conversation_ids := keys conversations in
  match privacy_prompts conversations with
  | Raise e => Some (Raise e)
  | Ok batch_input =>
      match batch_loop batch_input fuel 0 0 [] with
      | None => None
      | Some outputs => Some (privacy_attribute conversation_ids 0 outputs [])
      end
  end.

End PrivacyLLM.

(** ** The batches and their answers *)

Lemma firstn_plus {A : Type} (a b : nat) (l : list A) :
  firstn (a + b) l = (firstn a l ++ firstn b (skipn a l))%list.
Proof.
  revert l. induction a as [|a IH]; intro l; [reflexivity|].
  destruct l as [|x l]; simpl.
  - now rewrite firstn_nil.
  - now rewrite IH.
Qed.

Lemma skipn_plus {A : Type} (a b : nat) (l : list A) :
  skipn a (skipn b l) = skipn (b + a) l.
Proof.
  revert l. induction b as [|b IH]; intro l; [reflexivity|].
  destruct l as [|x l]; simpl; [now rewrite skipn_nil | apply IH].
Qed.

Section BatchingFacts.

Context {Out : Type} {llm : StructuredLLM Out}.

Variable batch_input : list string.

(** What the model would answer to a prompt. *)
Variable judge : string -> Out.

(** From its call [from] on the model answers every batch it is sent, one
    output for each prompt, unless it raises a [RateLimitError]. *)
Definition answers_from (from : nat) : Prop :=
  forall call prompts,
    (from <= call)%nat ->
    batch call prompts = RateLimitError
    \/ batch call prompts = Replied (map judge prompts).

(** From its call [lifted] on the model raises no [RateLimitError]. *)
Definition limit_lifted_at (lifted : nat) : Prop :=
  forall call prompts, (lifted <= call)%nat -> batch call prompts <> RateLimitError.

Lemma loop_answered (lifted from : nat) :
  answers_from from ->
  limit_lifted_at lifted ->
  forall fuel call i outputs,
    (from <= call)%nat ->
    ((lifted - call) + (length batch_input - i) < fuel)%nat ->
    batch_loop batch_input fuel call i outputs
    = Some (outputs ++ map judge (skipn i batch_input))%list.
Proof.
  intros Hans Hlift. induction fuel as [|fuel IH]; intros call i outputs Hfrom Hfuel;
    [lia|].
  cbn [batch_loop]. destruct (i <? length batch_input)%nat eqn:Ei.
  - apply Nat.ltb_lt in Ei.
    destruct (Hans call (firstn batch_size (skipn i batch_input)) Hfrom) as [E | E];
      rewrite E.
    + assert (call < lifted)%nat.
      { destruct (Nat.lt_ge_cases call lifted) as [H | H]; [exact H|].
        exfalso. exact (Hlift call _ H E). }
      apply IH; lia.
    + rewrite IH by (unfold batch_size; lia).
      rewrite <- app_assoc, <- map_app. f_equal. f_equal. f_equal.
      rewrite <- (skipn_plus batch_size i). apply firstn_skipn.
  - apply Nat.ltb_ge in Ei. rewrite skipn_all2 by exact Ei.
    now rewrite app_nil_r.
Qed.

Lemma loop_first_batches (b : nat) :
  forall fuel call i outputs,
    (forall c prompts, (call <= c < call + b)%nat ->
                       batch c prompts = Replied (map judge prompts)) ->
    (b = 0%nat \/ i + batch_size * (b - 1) < length batch_input)%nat ->
    batch_loop batch_input (b + fuel) call i outputs
    = batch_loop batch_input fuel (call + b) (i + batch_size * b)
        (outputs ++ map judge (firstn (batch_size * b) (skipn i batch_input)))%list.
Proof.
  induction b as [|b IH]; intros fuel call i outputs Hans Hlen.
  - rewrite Nat.mul_0_r, !Nat.add_0_r. cbn [firstn map]. now rewrite app_nil_r.
  - cbn [Nat.add batch_loop].
    assert (Ei : (i <? length batch_input)%nat = true).
    { apply Nat.ltb_lt. destruct Hlen as [H | H]; [discriminate | lia]. }
    rewrite Ei, Hans by lia.
    rewrite IH.
    + replace (S call + b)%nat with (call + S b)%nat by lia.
      replace (i + batch_size + batch_size * b)%nat
        with (i + batch_size * S b)%nat by lia.
      f_equal. rewrite <- app_assoc, <- map_app. f_equal. f_equal.
      replace (batch_size * S b)%nat with (batch_size + batch_size * b)%nat by lia.
      rewrite firstn_plus, skipn_plus. reflexivity.
    + intros c prompts Hc. apply Hans. lia.
    + destruct b as [|b]; [now left|]. right.
      destruct Hlen as [H | H]; [discriminate|].
      replace (S (S b) - 1)%nat with (S b) in H by lia.
      replace (S b - 1)%nat with b by lia. lia.
Qed.

(** X19: the batching loop of the two detections with the model.  When the
    model answers every batch, one output for each prompt, after rate limit
    errors that cease at some call, the loop ends and the outputs are the
    answers to the prompts, one for each and in their order: a batch that
    met a rate limit is sent again and is neither lost nor answered twice. *)
Theorem batches_are_answered_in_order (lifted : nat) :
  answers_from 0 ->
  limit_lifted_at lifted ->
  exists enough,
    forall fuel, (enough <= fuel)%nat ->
      batch_loop batch_input fuel 0 0 [] = Some (map judge batch_input).
Proof.
  intros Hans Hlift. exists (S (lifted + length batch_input)). intros fuel Hfuel.
  rewrite (loop_answered lifted 0 Hans Hlift) by lia.
  reflexivity.
Qed.

Lemma loop_failed_batch (b lifted : nat) :
  (batch_size * b < length batch_input)%nat ->
  (forall c prompts, (c < b)%nat -> batch c prompts = Replied (map judge prompts)) ->
  (forall prompts, batch b prompts = OtherException) ->
  answers_from (S b) ->
  limit_lifted_at lifted ->
  forall fuel, (b + S (S (lifted + length batch_input)) <= fuel)%nat ->
    batch_loop batch_input fuel 0 0 []
    = Some (map judge (firstn (batch_size * b) batch_input
                       ++ skipn (batch_size * b + batch_size) batch_input)%list).
Proof.
  intros Hb Hfirst Hfail Hans Hlift fuel Hfuel.
  replace fuel with (b + S (fuel - b - 1))%nat by lia.
  rewrite loop_first_batches.
  - cbn [Nat.add skipn app batch_loop].
    assert (Ei : (batch_size * b <? length batch_input)%nat = true)
      by now apply Nat.ltb_lt.
    rewrite Ei, Hfail.
    rewrite (loop_answered lifted (S b) Hans Hlift) by lia.
    now rewrite <- map_app.
  - intros c prompts Hc. apply Hfirst. lia.
  - destruct b as [|b']; [now left|]. right.
    replace (S b' - 1)%nat with b' by lia. lia.
Qed.

(** X20: a batch that raises another exception is given up, and nothing
    marks its place.  When the calls before call [b] are answered, call [b]
    raises, and the later ones are answered, the loop ends and the outputs
    are the answers to the prompts without those of batch [b]: from
    position [5 * b] on, the output at a position is the answer to the
    prompt five positions further. *)
Theorem failed_batch_leaves_no_gap (b lifted : nat) :
  (batch_size * b < length batch_input)%nat ->
  (forall c prompts, (c < b)%nat -> batch c prompts = Replied (map judge prompts)) ->
  (forall prompts, batch b prompts = OtherException) ->
  answers_from (S b) ->
  limit_lifted_at lifted ->
  exists enough,
    forall fuel, (enough <= fuel)%nat ->
      batch_loop batch_input fuel 0 0 []
      = Some (map judge (firstn (batch_size * b) batch_input
                         ++ skipn (batch_size * b + batch_size) batch_input)%list)
      /\ forall j,
           nth_error (firstn (batch_size * b) batch_input
                      ++ skipn (batch_size * b + batch_size) batch_input)%list
                     (batch_size * b + j)
           = nth_error batch_input (batch_size * b + batch_size + j).
Proof.
  intros Hb Hfirst Hfail Hans Hlift.
  exists (b + S (S (lifted + length batch_input)))%nat. intros fuel Hfuel.
  split.
  - now apply (loop_failed_batch b lifted).
  - intro j. rewrite nth_error_app2; rewrite length_firstn, Nat.min_l by lia; [|lia].
    replace (batch_size * b + j - batch_size * b)%nat with j by lia.
    rewrite nth_error_skipn. reflexivity.
Qed.

End BatchingFacts.

(** ** Whose verdict is recorded *)

(** The row that an output gives when it is recorded under a call id. *)
Definition llm_row (pair : string * PrivacyResult) : list (string * list string) :=
  if agent_violated_privacy (snd pair) && negb (verification_attempted (snd pair))
  then [(fst pair, sensitive_info_shared (snd pair))]
  else [].

Lemma skipn_nth {A : Type} (l : list A) (n : nat) (x : A) :
  nth_error l n = Some x -> skipn n l = x :: skipn (S n) l.
Proof.
  revert l. induction n as [|n IH]; intros [|y l] H; try discriminate.
  - injection H as ->. reflexivity.
  - simpl in H. apply IH in H. exact H.
Qed.

Lemma NoDup_skipn {A : Type} (l : list A) (n : nat) : NoDup l -> NoDup (skipn n l).
Proof.
  revert l. induction n as [|n IH]; intros [|y l] H; simpl; auto.
  inversion H; subst. now apply IH.
Qed.

Section PrivacyLLMFacts.

Context {llm : StructuredLLM PrivacyResult}.

Variable privacy_fill_prompt : string -> string.

Lemma privacy_attribute_spec (conversation_ids : list string) :
  NoDup conversation_ids ->
  forall outputs idx privacy_violated,
    (idx + length outputs <= length conversation_ids)%nat ->
    (forall k, In k (keys privacy_violated) -> ~ In k (skipn idx conversation_ids)) ->
    privacy_attribute conversation_ids idx outputs privacy_violated
    = Ok (privacy_violated
          ++ flat_map llm_row (combine (skipn idx conversation_ids) outputs))%list.
Proof.
  intros Hnd. induction outputs as [|output rest IH]; intros idx d Hlen Hfresh.
  - cbn [privacy_attribute]. rewrite combine_nil. cbn. now rewrite app_nil_r.
  - cbn [privacy_attribute]. cbn [length] in Hlen.
    destruct (nth_error conversation_ids idx) as [id|] eqn:Eid.
    2:{ apply nth_error_None in Eid. lia. }
    pose proof (skipn_nth _ _ _ Eid) as Hskip.
    pose proof (NoDup_skipn conversation_ids idx Hnd) as Hnd'.
    rewrite Hskip in Hnd' |- *. inversion Hnd' as [|? ? Hid _]; subst.
    cbn [combine flat_map]. unfold llm_row at 1. cbn [fst snd].
    destruct (agent_violated_privacy output && negb (verification_attempted output)).
    + rewrite dict_set_fresh.
      * rewrite IH; [now rewrite <- app_assoc | lia |].
        intros k Hk. unfold keys in Hk. rewrite map_app, in_app_iff in Hk.
        destruct Hk as [Hk | [<- | []]]; [|exact Hid].
        intro Hin. apply (Hfresh k Hk). rewrite Hskip. now right.
      * intro Hin. apply (Hfresh id Hin). rewrite Hskip. now left.
    + rewrite IH; [reflexivity | lia |].
      intros k Hk Hin. apply (Hfresh k Hk). rewrite Hskip. now right.
Qed.

Lemma privacy_prompts_length (items : list (string * Conversation))
      (prompts : list string) :
  privacy_prompts privacy_fill_prompt items = Ok prompts ->
  length prompts = length items.
Proof.
  revert prompts. induction items as [|[id c] rest IH]; intros prompts H; simpl in H.
  - injection H as <-. reflexivity.
  - destruct (clean_conversation c); [|discriminate].
    destruct (privacy_prompts privacy_fill_prompt rest) as [ps|]; [|discriminate].
    injection H as <-. simpl. now rewrite (IH ps).
Qed.

Lemma loaded_keys_NoDup (zip : zip_file) :
  NoDup (keys (load_conversations_from_zip zip)).
Proof.
  destruct zip as [|members]; simpl; [constructor|].
  apply load_members_NoDup. constructor.
Qed.

(** X21: [privacy_detection_llm] when the model answers.  If every loaded
    conversation can be cleaned and the model answers every batch, one
    output for each prompt, after rate limit errors that cease, the
    detection ends and its frame has a row for a call id exactly when the
    answer to the prompt of that call reports a violation and no
    verification: each verdict is recorded under the id of its own call. *)
Theorem llm_verdicts_go_with_their_calls
        (zip : zip_file) (prompts : list string)
        (judge : string -> PrivacyResult) (lifted : nat) :
  privacy_prompts privacy_fill_prompt (load_conversations_from_zip zip) = Ok prompts ->
  answers_from judge 0 ->
  limit_lifted_at lifted ->
  length prompts = length (load_conversations_from_zip zip) /\
  exists enough,
    forall fuel, (enough <= fuel)%nat ->
      privacy_detection_llm privacy_fill_prompt fuel zip
      = Some (Ok (flat_map llm_row
                    (combine (keys (load_conversations_from_zip zip))
                             (map judge prompts)))).
Proof.
  intros Hprompts Hans Hlift.
  pose proof (privacy_prompts_length _ _ Hprompts) as Hlen.
  split; [exact Hlen|].
  exists (S (lifted + length prompts)). intros fuel Hfuel.
  unfold privacy_detection_llm. cbv zeta. rewrite Hprompts.
  rewrite (loop_answered prompts judge lifted 0 Hans Hlift) by lia.
  cbn [app skipn].
  rewrite privacy_attribute_spec.
  - reflexivity.
  - apply loaded_keys_NoDup.
  - unfold keys. rewrite !length_map. lia.
  - intros k [].
Qed.

(** X22: [privacy_detection_llm] after a batch that failed.  If the calls
    before call [b] are answered, call [b] raises an exception other than a
    rate limit, and the later calls are answered, the detection ends without
    an error, and the outputs are recorded under the call ids in order from
    the first: from position [5 * b] on, a call id gets the verdict on the
    call five positions further, and the last calls get none. *)
Theorem failed_batch_shifts_the_verdicts
        (zip : zip_file) (prompts : list string)
        (judge : string -> PrivacyResult) (b lifted : nat) :
  privacy_prompts privacy_fill_prompt (load_conversations_from_zip zip) = Ok prompts ->
  (batch_size * b < length prompts)%nat ->
  (forall c ps, (c < b)%nat -> batch c ps = Replied (map judge ps)) ->
  (forall ps, batch b ps = OtherException) ->
  answers_from judge (S b) ->
  limit_lifted_at lifted ->
  exists enough,
    forall fuel, (enough <= fuel)%nat ->
      privacy_detection_llm privacy_fill_prompt fuel zip
      = Some (Ok (flat_map llm_row
                    (combine (keys (load_conversations_from_zip zip))
                       (map judge
                          (firstn (batch_size * b) prompts
                           ++ skipn (batch_size * b + batch_size) prompts)%list)))).
Proof.
  intros Hprompts Hb Hfirst Hfail Hans Hlift.
  pose proof (privacy_prompts_length _ _ Hprompts) as Hlen.
  exists (b + S (S (lifted + length prompts)))%nat. intros fuel Hfuel.
  unfold privacy_detection_llm. cbv zeta. rewrite Hprompts.
  rewrite (loop_failed_batch prompts judge b lifted Hb Hfirst Hfail Hans Hlift)
    by exact Hfuel.
  rewrite privacy_attribute_spec.
  - reflexivity.
  - apply loaded_keys_NoDup.
  - unfold keys. rewrite !length_map, length_app, length_firstn, length_skipn. lia.
  - intros k [].
Qed.

Lemma privacy_prompts_raise (items : list (string * Conversation))
      (k : string) (c : Conversation) (e0 : exception) :
  In (k, c) items ->
  clean_conversation c = Raise e0 ->
  exists e, privacy_prompts privacy_fill_prompt items = Raise e.
Proof.
  intros Hin Hc. induction items as [|[k' c'] rest IH]; [destruct Hin|].
  cbn [privacy_prompts].
  destruct (clean_conversation c') as [cleaned|e'] eqn:E'; [|now exists e'].
  destruct Hin as [H | H]; [injection H as _ ->; congruence|].
  destruct (IH H) as (e & ->). now exists e.
Qed.

(** X25: a [.json] member of the archive that is not JSON, before which
    every [.json] member could be read and whose call id no later [.json]
    member has, makes [privacy_detection_llm] raise while it builds the
    prompts, whatever the model would answer and however much fuel the loop
    is given: no prompt reaches the model and no frame is returned. *)
Theorem invalid_json_member_fails_llm_detection
        (before after : list (string * member_content)) (name : string) :
  readable before ->
  endswith name ".json" = true ->
  not_rewritten (call_id_of name) after ->
  exists e,
    forall fuel,
      privacy_detection_llm privacy_fill_prompt fuel
        (Archive (before ++ (name, JSONDecodeError) :: after))
      = Some (Raise e).
Proof.
  intros Hr E Hn.
  assert (Hin : In (call_id_of name, ErrorRecord ("Invalid JSON: " ++ name))
                   (load_conversations_from_zip
                      (Archive (before ++ (name, JSONDecodeError) :: after)))).
  { simpl. rewrite load_members_app by exact Hr.
    cbn [load_members]. rewrite E.
    apply load_members_keeps; [exact Hn | apply dict_set_here]. }
  destruct (privacy_prompts_raise _ _ _ TypeError Hin eq_refl) as (e & He).
  exists e. intro fuel. unfold privacy_detection_llm. cbv zeta. now rewrite He.
Qed.

End PrivacyLLMFacts.

(** ** The properties at sample archives *)

(** A small engine: a pattern [\bword\b] matches the texts that hold [word],
    whatever the case of their letters, and a pattern that begins with [\$]
    those that hold a dollar sign. *)
Definition literal_of (pattern : string) : string :=
  if String.eqb (substring 0 2 pattern) "\$" then "$"
  else substring 2 (String.length pattern - 4) pattern.

Definition literal_engine : Regex :=
  {| findall := fun pattern text =>
       if contains (literal_of pattern) (lower text)
       then [literal_of pattern] else [];
     search := fun pattern text => contains (literal_of pattern) (lower text) |}.

(** [list(set(l))] in the order of first occurrence. *)
Definition first_seen : SetOrder :=
  {| listing := nodup string_dec;
     listing_NoDup := NoDup_nodup string_dec;
     listing_In := fun l x => nodup_In string_dec l x |}.

(** A model that meets a rate limit on its first [lifted] calls and answers
    afterwards, and one that answers except at call [b], where it fails. *)
Definition rate_limited {Out : Type} (lifted : nat) (judge : string -> Out)
  : StructuredLLM Out :=
  {| batch := fun call prompts =>
       if (call <? lifted)%nat then RateLimitError
       else Replied (map judge prompts) |}.

Definition failing_at {Out : Type} (b : nat) (judge : string -> Out)
  : StructuredLLM Out :=
  {| batch := fun call prompts =>
       if (call =? b)%nat then OtherException
       else Replied (map judge prompts) |}.

Definition disclosure : Utterance :=
  mkUtterance (Some "Agent") (Some "Your balance is $500").
Definition verification : Utterance :=
  mkUtterance (Some "Agent") (Some "What is your DOB?").
Definition complaint : Utterance :=
  mkUtterance (Some "Customer") (Some "Damn it").

Definition sample_archive : zip_file :=
  Archive [("calls/c1.json", Parsed [disclosure; complaint]);
           ("readme.txt", OtherError);
           ("calls/c2.json", Parsed [disclosure; verification])].

Definition six_calls : zip_file :=
  Archive [("c1.json", Parsed [complaint]); ("c2.json", Parsed [complaint]);
           ("c3.json", Parsed [complaint]); ("c4.json", Parsed [complaint]);
           ("c5.json", Parsed [complaint]); ("c6.json", Parsed [disclosure])].

Definition sample_prompt (cleaned : string) : string := "Conversation: " ++ cleaned.

Definition sample_judge (prompt : string) : PrivacyResult :=
  mkPrivacyResult (contains "$" prompt) ["balance"] false [].

Definition twelve_prompts : list string :=
  ["p0"; "p1"; "p2"; "p3"; "p4"; "p5"; "p6"; "p7"; "p8"; "p9"; "p10"; "p11"].

Lemma rate_limited_answers {Out : Type} (lifted : nat) (judge : string -> Out) :
  answers_from (llm := rate_limited lifted judge) judge 0.
Proof.
  intros call prompts _. simpl. destruct (call <? lifted)%nat; [left | right]; reflexivity.
Defined.

Lemma rate_limited_lifted {Out : Type} (lifted : nat) (judge : string -> Out) :
  limit_lifted_at (llm := rate_limited lifted judge) lifted.
Proof.
  intros call prompts H. simpl. apply Nat.ltb_ge in H. rewrite H. discriminate.
Defined.

Lemma failing_at_before {Out : Type} (b : nat) (judge : string -> Out) :
  forall c prompts, (c < b)%nat ->
    batch (StructuredLLM := failing_at b judge) c prompts = Replied (map judge prompts).
Proof.
  intros c prompts H. simpl.
  destruct (Nat.eqb_spec c b) as [E | _]; [lia | reflexivity].
Defined.

Lemma failing_at_there {Out : Type} (b : nat) (judge : string -> Out) :
  forall prompts, batch (StructuredLLM := failing_at b judge) b prompts = OtherException.
Proof. intro prompts. simpl. now rewrite Nat.eqb_refl. Defined.

Lemma failing_at_after {Out : Type} (b : nat) (judge : string -> Out) :
  answers_from (llm := failing_at b judge) judge (S b).
Proof.
  intros call prompts H. right. simpl.
  destruct (Nat.eqb_spec call b) as [E | _]; [lia | reflexivity].
Defined.

Lemma failing_at_no_limit {Out : Type} (b : nat) (judge : string -> Out) :
  limit_lifted_at (llm := failing_at b judge) 0.
Proof. intros call prompts _. simpl. destruct (call =? b)%nat; discriminate. Defined.

Lemma nothing_unreadable (name : string) (utterances : list Utterance) :
  readable [(name, Parsed utterances)].
Proof. intros n [H | []]. discriminate H. Defined.

Lemma nothing_rewritten (key : string) : not_rewritten key [].
Proof. intros name content []. Defined.

Lemma privacy_verdict_ignores_order_witness :
  exists r r',
    detect_privacy_violation (re := literal_engine) (set := first_seen)
      (Turns [disclosure; verification]) = Ok r /\
    detect_privacy_violation (re := literal_engine) (set := first_seen)
      (Turns [verification; disclosure]) = Ok r' /\
    agent_violated_privacy r = agent_violated_privacy r' /\
    verification_attempted r = verification_attempted r' /\
    (forall x, In x (sensitive_info_shared r) <-> In x (sensitive_info_shared r')) /\
    (forall m, In m (verification_methods r) <-> In m (verification_methods r')).
Proof.
  apply (privacy_verdict_ignores_order (re := literal_engine) (set := first_seen)
           [disclosure; verification] [verification; disclosure]).
  apply perm_swap.
Defined.

Lemma unreadable_member_ends_loading_witness :
  load_conversations_from_zip
    (Archive ([("c1.json", Parsed [disclosure])]
              ++ ("c2.json", OtherError) :: [("c3.json", Parsed [complaint])]))
  = load_conversations_from_zip (Archive [("c1.json", Parsed [disclosure])]).
Proof.
  apply (unreadable_member_ends_loading
           [("c1.json", Parsed [disclosure])] [("c3.json", Parsed [complaint])]
           "c2.json").
  reflexivity.
Defined.

Lemma readable_member_is_stored_witness :
  In (call_id_of "calls/c2.json", ErrorRecord "Invalid JSON: calls/c2.json")
     (load_conversations_from_zip
        (Archive ([("calls/c1.json", Parsed [disclosure])]
                  ++ ("calls/c2.json", JSONDecodeError) :: []))).
Proof.
  apply (readable_member_is_stored
           [("calls/c1.json", Parsed [disclosure])] [] "calls/c2.json"
           JSONDecodeError).
  - apply nothing_unreadable.
  - reflexivity.
  - reflexivity.
  - apply nothing_rewritten.
Defined.

Lemma invalid_json_member_fails_pattern_detection_witness :
  profanity_detection_pattern (re := literal_engine) (set := first_seen)
    (Archive ([("calls/c1.json", Parsed [disclosure])]
              ++ ("calls/c2.json", JSONDecodeError) :: []))
  = Raise AttributeError /\
  privacy_detection_pattern (re := literal_engine) (set := first_seen)
    (Archive ([("calls/c1.json", Parsed [disclosure])]
              ++ ("calls/c2.json", JSONDecodeError) :: []))
  = Raise AttributeError.
Proof.
  apply (invalid_json_member_fails_pattern_detection
           (re := literal_engine) (set := first_seen)
           [("calls/c1.json", Parsed [disclosure])] [] "calls/c2.json").
  - apply nothing_unreadable.
  - reflexivity.
  - apply nothing_rewritten.
Defined.

Lemma privacy_rows_are_the_violations_witness :
  [("c1", ["$"])]
  = flat_map (violation_row (re := literal_engine) (set := first_seen))
      (load_conversations_from_zip sample_archive) /\
  NoDup (keys [("c1", ["$"])]) /\
  (length [("c1", ["$"])] <= length (load_conversations_from_zip sample_archive))%nat /\
  (forall id info,
      In (id, info) [("c1", ["$"])] <->
      exists utterances r,
        In (id, Turns utterances) (load_conversations_from_zip sample_archive) /\
        detect_privacy_violation (re := literal_engine) (set := first_seen)
          (Turns utterances) = Ok r /\
        agent_violated_privacy r = true /\
        info = sensitive_info_shared r).
Proof.
  apply (privacy_rows_are_the_violations (re := literal_engine) (set := first_seen)
           sample_archive).
  reflexivity.
Defined.

Lemma profanity_rows_are_the_flagged_calls_witness :
  [] = flat_map (agent_row (re := literal_engine) (set := first_seen))
         (load_conversations_from_zip sample_archive) /\
  [("c1", ["damn"])]
  = flat_map (customer_row (re := literal_engine) (set := first_seen))
      (load_conversations_from_zip sample_archive) /\
  NoDup (keys (@nil (string * list string))) /\
  NoDup (keys [("c1", ["damn"])]) /\
  (length (@nil (string * list string))
   <= length (load_conversations_from_zip sample_archive))%nat /\
  (length [("c1", ["damn"])] <= length (load_conversations_from_zip sample_archive))%nat /\
  (forall id usage,
      In (id, usage) [] <->
      exists utterances r,
        In (id, Turns utterances) (load_conversations_from_zip sample_archive) /\
        detect_profanity (re := literal_engine) (set := first_seen)
          (Turns utterances) = Ok r /\
        agent_has_profanity r = true /\
        usage = agent_profanity_usage r).
Proof.
  apply (profanity_rows_are_the_flagged_calls
           (re := literal_engine) (set := first_seen) sample_archive).
  reflexivity.
Defined.

Lemma batches_are_answered_in_order_witness :
  exists enough,
    forall fuel, (enough <= fuel)%nat ->
      batch_loop (llm := rate_limited 2 String.length) twelve_prompts fuel 0 0 []
      = Some (map String.length twelve_prompts).
Proof.
  apply (batches_are_answered_in_order (llm := rate_limited 2 String.length)
           twelve_prompts String.length 2).
  - apply rate_limited_answers.
  - apply rate_limited_lifted.
Defined.

Lemma failed_batch_leaves_no_gap_witness :
  exists enough,
    forall fuel, (enough <= fuel)%nat ->
      batch_loop (llm := failing_at 1 String.length) twelve_prompts fuel 0 0 []
      = Some (map String.length
                (firstn (batch_size * 1) twelve_prompts
                 ++ skipn (batch_size * 1 + batch_size) twelve_prompts)%list)
      /\ forall j,
           nth_error (firstn (batch_size * 1) twelve_prompts
                      ++ skipn (batch_size * 1 + batch_size) twelve_prompts)%list
                     (batch_size * 1 + j)
           = nth_error twelve_prompts (batch_size * 1 + batch_size + j).
Proof.
  apply (failed_batch_leaves_no_gap (llm := failing_at 1 String.length)
           twelve_prompts String.length 1 0).
  - vm_compute. lia.
  - apply failing_at_before.
  - apply failing_at_there.
  - apply failing_at_after.
  - apply failing_at_no_limit.
Defined.

Lemma llm_verdicts_go_with_their_calls_witness :
  exists prompts,
    privacy_prompts sample_prompt (load_conversations_from_zip sample_archive)
    = Ok prompts /\
    length prompts = length (load_conversations_from_zip sample_archive) /\
    exists enough,
      forall fuel, (enough <= fuel)%nat ->
        privacy_detection_llm (llm := rate_limited 2 sample_judge)
          sample_prompt fuel sample_archive
        = Some (Ok (flat_map llm_row
                      (combine (keys (load_conversations_from_zip sample_archive))
                               (map sample_judge prompts)))).
Proof.
  eexists. split; [reflexivity|].
  apply (llm_verdicts_go_with_their_calls (llm := rate_limited 2 sample_judge)
           sample_prompt sample_archive _ sample_judge 2).
  - reflexivity.
  - apply rate_limited_answers.
  - apply rate_limited_lifted.
Defined.

Lemma failed_batch_shifts_the_verdicts_witness :
  exists prompts,
    privacy_prompts sample_prompt (load_conversations_from_zip six_calls)
    = Ok prompts /\
    exists enough,
      forall fuel, (enough <= fuel)%nat ->
        privacy_detection_llm (llm := failing_at 0 sample_judge)
          sample_prompt fuel six_calls
        = Some (Ok (flat_map llm_row
                      (combine (keys (load_conversations_from_zip six_calls))
                         (map sample_judge
                            (firstn (batch_size * 0) prompts
                             ++ skipn (batch_size * 0 + batch_size) prompts)%list)))).
Proof.
  eexists. split; [reflexivity|].
  apply (failed_batch_shifts_the_verdicts (llm := failing_at 0 sample_judge)
           sample_prompt six_calls _ sample_judge 0 0).
  - reflexivity.
  - vm_compute. lia.
  - apply failing_at_before.
  - apply failing_at_there.
  - apply failing_at_after.
  - apply failing_at_no_limit.
Defined.

Lemma invalid_json_member_fails_llm_detection_witness :
  exists e,
    forall fuel,
      privacy_detection_llm (llm := rate_limited 0 sample_judge) sample_prompt fuel
        (Archive ([("calls/c1.json", Parsed [disclosure])]
                  ++ ("calls/c2.json", JSONDecodeError) :: []))
      = Some (Raise e).
Proof.
  apply (invalid_json_member_fails_llm_detection
           (llm := rate_limited 0 sample_judge) sample_prompt
           [("calls/c1.json", Parsed [disclosure])] [] "calls/c2.json").
  - apply nothing_unreadable.
  - reflexivity.
  - apply nothing_rewritten.
Defined.

(** With the sample model, the verdict on the sixth call of [six_calls], the
    only one with a disclosure, is recorded under the id of the first after
    the first batch has failed. *)
Example shifted_verdict :
  privacy_detection_llm (llm := failing_at 0 sample_judge) sample_prompt 3 six_calls
  = Some (Ok [("c1", ["balance"])]).
Proof. reflexivity. Qed.

End Main.

(** * The timeline figure ([create_timeline_visualization]) *)

(** One [go.Scatter] trace: the corners of its rectangle, its name, the text
    shown on it, whether it has a legend entry, its legend group and the
    subplot row it is added to.  The attributes of style (fill, colours,
    line, mode, hover template) do not enter what follows and are left out.
    The characters of a text are those of the [string]. *)
Record Trace : Type := mkTrace {
  tr_x : list Q;
  tr_y : list Q;
  tr_name : string;
  tr_text : option string;
  tr_showlegend : bool;
  tr_legendgroup : string;
  tr_row : nat
}.

(** The figure: its traces in the order they were added, and the range set
    on the x axes of both subplots. *)
Record Figure : Type := mkFigure {
  traces : list Trace;
  xaxis_range : npfloat * npfloat
}.

(** The corners [[start, end, end, start, start]]. *)
Definition rectangle_x (from to : Q) : list Q := [from; to; to; from; from].

(** [text[:50] + "..." if len(text) > 50 else text] *)
Definition hover_text (t : string) : string :=
  if (50 <? String.length t)%nat
  then (String.substring 0 50 t ++ "...")%string
  else t.

(** [frame.iterrows()]: the rows with their index labels, which are their
    positions in [timeline_data]. *)
Definition iterrows (frame_rows : list Row) : list (nat * Row) :=
  combine (seq 0 (length frame_rows)) frame_rows.

(** The traces of the segments of one speaker; [first] is
    [segments.index[0]]. *)
Definition speaker_traces (who group : string) (y : list Q)
           (labelled : list (nat * Row)) : list Trace :=
  let segments :=
    filter (fun ir => String.eqb (row_speaker (snd ir)) who) labelled in
  match segments with
  | [] => []
  | (first, _) :: _ =>
      map (fun ir =>
             {| tr_x := rectangle_x (start_time (snd ir)) (end_time (snd ir));
                tr_y := y;
                tr_name := if Nat.eqb (fst ir) first then who else ""%string;
                tr_text := Some (hover_text (row_text (snd ir)));
                tr_showlegend := Nat.eqb (fst ir) first;
                tr_legendgroup := group;
                tr_row := 1 |})
          segments
  end.

(** The traces of [enumerate(events)]. *)
Definition event_traces {A : Type} (from to : A -> Q) (name group : string)
           (y : list Q) (events : list A) : list Trace :=
  map (fun ie =>
         {| tr_x := rectangle_x (from (snd ie)) (to (snd ie));
            tr_y := y;
            tr_name := if Nat.eqb (fst ie) 0 then name else ""%string;
            tr_text := None;
            tr_showlegend := Nat.eqb (fst ie) 0;
            tr_legendgroup := group;
            tr_row := 2 |})
      (combine (seq 0 (length events)) events).

Section Visualization.

Context {kind : SortKind}.

Definition create_timeline_visualization (analyzer : CallAnalyzer) : result Figure :=
  let df := timeline_data analyzer in
  overlaps <- detect_overlaps analyzer;;
  silences <- detect_silences analyzer;;
  starts <- column "start_time" start_time df;;
  let call_start := Series_min starts in
  ends <- column "end_time" end_time df;;
  let call_end := Series_max ends in
  who <- column "speaker" row_speaker df;;
  let labelled := iterrows (rows df) in
  Ok {| traces :=
          speaker_traces "Agent" "agent" [0.1; 0.1; 0.45; 0.45; 0.1] labelled
          ++ speaker_traces "Customer" "customer" [0.55; 0.55; 0.9; 0.9; 0.55] labelled
          ++ event_traces o_start_time o_end_time "Overlap" "overlap"
               [0.6; 0.6; 1; 1; 0.6] overlaps
          ++ event_traces s_start_time s_end_time "Silence" "silence"
               [0; 0; 0.4; 0.4; 0] silences;
        xaxis_range := (call_start, call_end) |}.

End Visualization.

Lemma speaker_traces_x (who group : string) (y : list Q) (frame_rows : list Row)
      (t : Trace) :
  In t (speaker_traces who group y (iterrows frame_rows)) ->
  exists r, In r frame_rows /\ tr_x t = rectangle_x (start_time r) (end_time r).
Proof.
  unfold speaker_traces, iterrows. cbv zeta.
  destruct (filter _ _) as [|[first r0] rest] eqn:E; [intros []|].
  intro Hin. apply in_map_iff in Hin. destruct Hin as ([i r] & <- & Hir).
  rewrite <- E in Hir. apply filter_In in Hir. destruct Hir as [Hir _].
  apply in_combine_r in Hir. exists r. split; [exact Hir | reflexivity].
Qed.

Lemma event_traces_x {A : Type} (from to : A -> Q) (name group : string)
      (y : list Q) (events : list A) (t : Trace) :
  In t (event_traces from to name group y events) ->
  exists e, In e events /\ tr_x t = rectangle_x (from e) (to e).
Proof.
  unfold event_traces. intro Hin. apply in_map_iff in Hin.
  destruct Hin as ([i e] & <- & Hie). apply in_combine_r in Hie.
  exists e. split; [exact Hie | reflexivity].
Qed.

Lemma rectangle_within (from to lo hi x : Q) :
  lo <= from -> from <= hi -> lo <= to -> to <= hi ->
  In x (rectangle_x from to) -> lo <= x /\ x <= hi.
Proof.
  intros H1 H2 H3 H4 Hin. unfold rectangle_x in Hin. simpl in Hin.
  destruct Hin as [<- | [<- | [<- | [<- | [<- | []]]]]]; split; assumption.
Qed.

(** What a trace draws: its corners, its band on the y axis, the text shown
    on it, its legend group and the row of its subplot. *)
Definition drawing : Type := (list Q * list Q * option string * string * nat)%type.

Definition drawn (t : Trace) : drawing :=
  (tr_x t, tr_y t, tr_text t, tr_legendgroup t, tr_row t).

Lemma labelled_rows (p : Row -> bool) (l : list Row) (from : nat) :
  map snd (filter (fun ir => p (snd ir)) (combine (seq from (length l)) l))
  = filter p l.
Proof.
  revert from. induction l as [|r l IH]; intro from; [reflexivity|].
  cbn [length seq combine filter snd].
  destruct (p r); cbn [map snd]; now rewrite IH.
Qed.

Lemma enumerated {A : Type} (l : list A) (from : nat) :
  map snd (combine (seq from (length l)) l) = l.
Proof.
  revert from. induction l as [|x l IH]; intro from; [reflexivity|].
  cbn [length seq combine map snd]. now rewrite IH.
Qed.

Lemma rows_of_speaker (who : string) (conversation : list Segment) :
  filter (fun r => String.eqb (row_speaker r) who) (map timeline_row conversation)
  = map timeline_row (filter (spoken_by who) conversation).
Proof.
  induction conversation as [|s rest IH]; [reflexivity|].
  cbn [map filter]. unfold spoken_by at 1. cbn [timeline_row row_speaker].
  destruct (String.eqb (speaker s) who); cbn [map]; now rewrite IH.
Qed.

Lemma speaker_traces_rows (who group : string) (y : list Q) (frame_rows : list Row) :
  map drawn (speaker_traces who group y (iterrows frame_rows))
  = map (fun r => ([start_time r; end_time r; end_time r; start_time r;
                    start_time r], y,
                   Some (hover_text (row_text r)), group, 1%nat))
        (filter (fun r => String.eqb (row_speaker r) who) frame_rows).
Proof.
  rewrite <- (labelled_rows (fun r => String.eqb (row_speaker r) who) frame_rows 0).
  unfold speaker_traces, iterrows. cbv zeta.
  destruct (filter _ _) as [|[first r] rest]; [reflexivity|].
  rewrite !map_map. reflexivity.
Qed.

Lemma speaker_traces_drawn (who group : string) (y : list Q)
      (conversation : list Segment) :
  map drawn (speaker_traces who group y (iterrows (map timeline_row conversation)))
  = map (fun s => ([stime s; etime s; etime s; stime s; stime s], y,
                   Some (hover_text (text s)), group, 1%nat))
        (filter (spoken_by who) conversation).
Proof.
  rewrite speaker_traces_rows, rows_of_speaker, map_map. reflexivity.
Qed.

Lemma event_traces_drawn {A : Type} (from to : A -> Q) (name group : string)
      (y : list Q) (events : list A) :
  map drawn (event_traces from to name group y events)
  = map (fun e => ([from e; to e; to e; from e; from e], y, None, group, 2%nat))
        events.
Proof.
  unfold event_traces. rewrite map_map.
  transitivity
    (map (fun e => ([from e; to e; to e; from e; from e], y, @None string, group,
                    2%nat))
       (map snd (combine (seq 0 (length events)) events))).
  - rewrite map_map. reflexivity.
  - now rewrite enumerated.
Qed.

(** The traces of one legend group, and what it is for a list of traces to
    carry its legend entry on its first trace only. *)
Definition in_group (group : string) (t : Trace) : bool :=
  String.eqb (tr_legendgroup t) group.

Definition unnamed (t : Trace) : Prop :=
  tr_showlegend t = false /\ tr_name t = ""%string.

Definition headed_by (name : string) (l : list Trace) : Prop :=
  match l with
  | [] => True
  | t :: rest => tr_showlegend t = true /\ tr_name t = name /\ Forall unnamed rest
  end.

Lemma labels_ascending {A : Type} (l : list A) (from : nat) :
  StronglySorted (fun a b : nat * A => (fst a < fst b)%nat)
    (combine (seq from (length l)) l).
Proof.
  revert from. induction l as [|x l IH]; intro from; [constructor|].
  cbn [length seq combine]. constructor; [apply IH|].
  apply Forall_forall. intros [i y] Hin. apply in_combine_l in Hin.
  apply in_seq in Hin. cbn [fst]. lia.
Qed.

Lemma filter_ascending {A : Type} (lt : A -> A -> Prop) (p : A -> bool) (l : list A) :
  StronglySorted lt l -> StronglySorted lt (filter p l).
Proof.
  induction 1 as [|x l Hs IH Hx]; [constructor|].
  cbn [filter]. destruct (p x); [|exact IH].
  constructor; [exact IH|].
  apply Forall_forall. intros y Hy. apply filter_In in Hy.
  rewrite Forall_forall in Hx. now apply Hx.
Qed.

Lemma speaker_traces_headed (who group : string) (y : list Q) (frame_rows : list Row) :
  headed_by who (speaker_traces who group y (iterrows frame_rows)).
Proof.
  unfold speaker_traces, iterrows. cbv zeta.
  pose proof (filter_ascending _
                (fun ir : nat * Row => String.eqb (row_speaker (snd ir)) who) _
                (labels_ascending frame_rows 0)) as Hs.
  destruct (filter _ _) as [|[first r] rest]; [exact I|].
  cbn [map headed_by tr_showlegend tr_name fst].
  rewrite Nat.eqb_refl. split; [reflexivity|]. split; [reflexivity|].
  apply StronglySorted_inv in Hs. destruct Hs as [_ Hlt].
  rewrite Forall_forall in Hlt. apply Forall_forall.
  intros t Ht. apply in_map_iff in Ht. destruct Ht as (ir & <- & Hir).
  specialize (Hlt ir Hir). cbn [fst] in Hlt.
  unfold unnamed. cbn [tr_showlegend tr_name].
  assert (E : Nat.eqb (fst ir) first = false) by (apply Nat.eqb_neq; lia).
  rewrite E. split; reflexivity.
Qed.

Lemma event_traces_headed {A : Type} (from to : A -> Q) (name group : string)
      (y : list Q) (events : list A) :
  headed_by name (event_traces from to name group y events).
Proof.
  unfold event_traces.
  pose proof (labels_ascending events 0) as Hs.
  destruct events as [|e rest]; [exact I|].
  cbn [length seq combine] in Hs |- *.
  cbn [map headed_by tr_showlegend tr_name fst Nat.eqb].
  split; [reflexivity|]. split; [reflexivity|].
  apply StronglySorted_inv in Hs. destruct Hs as [_ Hlt].
  rewrite Forall_forall in Hlt. apply Forall_forall.
  intros t Ht. apply in_map_iff in Ht. destruct Ht as (ie & <- & Hie).
  specialize (Hlt ie Hie). cbn [fst] in Hlt.
  unfold unnamed. cbn [tr_showlegend tr_name].
  assert (E : Nat.eqb (fst ie) 0 = false) by (apply Nat.eqb_neq; lia).
  rewrite E. split; reflexivity.
Qed.

Lemma speaker_traces_group (who group : string) (y : list Q)
      (labelled : list (nat * Row)) (t : Trace) :
  In t (speaker_traces who group y labelled) -> tr_legendgroup t = group.
Proof.
  unfold speaker_traces. cbv zeta.
  destruct (filter _ _) as [|[first r] rest]; [intros []|].
  intro Ht. apply in_map_iff in Ht. destruct Ht as (ir & <- & _). reflexivity.
Qed.

Lemma event_traces_group {A : Type} (from to : A -> Q) (name group : string)
      (y : list Q) (events : list A) (t : Trace) :
  In t (event_traces from to name group y events) -> tr_legendgroup t = group.
Proof.
  unfold event_traces. intro Ht. apply in_map_iff in Ht.
  destruct Ht as (ie & <- & _). reflexivity.
Qed.

Lemma filter_one_group (own group : string) (l : list Trace) :
  (forall t, In t l -> tr_legendgroup t = own) ->
  filter (in_group group) l = if String.eqb own group then l else [].
Proof.
  intro Hall. induction l as [|t l IH].
  - now destruct (String.eqb own group).
  - cbn [filter]. unfold in_group at 1. rewrite (Hall t (or_introl eq_refl)).
    rewrite IH by (intros t' Ht'; apply Hall; now right).
    now destruct (String.eqb own group).
Qed.

Section VisualizationFacts.

Context {kind : SortKind}.

Lemma visualization_found (conversation : list Segment) (self : CallAnalyzer)
      (found_overlaps : list Overlap) (found_silences : list Silence) :
  conversation <> [] ->
  CallAnalyzer_init conversation = Ok self ->
  detect_overlaps self = Ok found_overlaps ->
  detect_silences self = Ok found_silences ->
  create_timeline_visualization self
  = Ok {| traces :=
            speaker_traces "Agent" "agent" [0.1; 0.1; 0.45; 0.45; 0.1]
              (iterrows (map timeline_row conversation))
            ++ speaker_traces "Customer" "customer" [0.55; 0.55; 0.9; 0.9; 0.55]
                 (iterrows (map timeline_row conversation))
            ++ event_traces o_start_time o_end_time "Overlap" "overlap"
                 [0.6; 0.6; 1; 1; 0.6] found_overlaps
            ++ event_traces s_start_time s_end_time "Silence" "silence"
                 [0; 0; 0.4; 0.4; 0] found_silences;
          xaxis_range := (Series_min (map stime conversation),
                          Series_max (map etime conversation)) |}.
Proof.
  intros Hne Hinit Ho Hs.
  unfold create_timeline_visualization. cbv zeta. rewrite Ho, Hs. cbn [bind].
  injection Hinit as <-. cbn [timeline_data].
  destruct conversation as [|s rest]; [congruence|].
  change (column "start_time" start_time (_create_timeline (s :: rest)))
    with (Ok (map start_time (map timeline_row (s :: rest)))).
  change (column "end_time" end_time (_create_timeline (s :: rest)))
    with (Ok (map end_time (map timeline_row (s :: rest)))).
  change (column "speaker" row_speaker (_create_timeline (s :: rest)))
    with (Ok (map row_speaker (map timeline_row (s :: rest)))).
  cbn [bind]. rewrite !map_map. reflexivity.
Qed.

(** X23: on a call with at least one segment [create_timeline_visualization]
    returns a figure whose traces are, in this order: for each segment of the
    agent the rectangle from its start to its end in the band 0.1 to 0.45 of
    the first subplot, in the group "agent" and with its text, cut after 50
    characters and followed by three dots when it is longer; for each segment
    of the customer the like in the band 0.55 to 0.9 and the group
    "customer"; for each overlap detected the rectangle
    from its start to its end in the band 0.6 to 1 of the second subplot, in
    the group "overlap"; and for each silence detected the like in the band
    0 to 0.4 and the group "silence".  A segment of any other speaker is not
    drawn.  The x axes range from the least start to the greatest end, and
    when no segment ends before it starts every corner of every rectangle
    lies within that range. *)
Theorem figure_draws_every_event
        (conversation : list Segment) (self : CallAnalyzer) :
  conversation <> [] ->
  CallAnalyzer_init conversation = Ok self ->
  exists fig found_overlaps found_silences call_start call_end,
    create_timeline_visualization self = Ok fig /\
    detect_overlaps self = Ok found_overlaps /\
    detect_silences self = Ok found_silences /\
    xaxis_range fig = (Fin call_start, Fin call_end) /\
    is_min call_start (map stime conversation) /\
    is_max call_end (map etime conversation) /\
    map drawn (traces fig)
    = map (fun s => ([stime s; etime s; etime s; stime s; stime s],
                     [0.1; 0.1; 0.45; 0.45; 0.1],
                     Some (if (50 <? String.length (text s))%nat
                           then (String.substring 0 50 (text s) ++ "...")%string
                           else text s),
                     "agent"%string, 1%nat))
          (filter (spoken_by "Agent") conversation)
      ++ map (fun s => ([stime s; etime s; etime s; stime s; stime s],
                        [0.55; 0.55; 0.9; 0.9; 0.55],
                        Some (if (50 <? String.length (text s))%nat
                              then (String.substring 0 50 (text s) ++ "...")%string
                              else text s),
                        "customer"%string, 1%nat))
             (filter (spoken_by "Customer") conversation)
      ++ map (fun o => ([o_start_time o; o_end_time o; o_end_time o;
                         o_start_time o; o_start_time o],
                        [0.6; 0.6; 1; 1; 0.6], None, "overlap"%string, 2%nat))
             found_overlaps
      ++ map (fun s => ([s_start_time s; s_end_time s; s_end_time s;
                         s_start_time s; s_start_time s],
                        [0; 0; 0.4; 0.4; 0], None, "silence"%string, 2%nat))
             found_silences /\
    (ends_after_start conversation ->
     forall t x, In t (traces fig) -> In x (tr_x t) ->
                 call_start <= x /\ x <= call_end).
Proof.
  intros Hne Hinit.
  pose proof (detect_overlaps_found conversation self Hne Hinit) as Ho.
  pose proof (detect_silences_found conversation self Hne Hinit) as Hs.
  pose proof (visualization_found conversation self _ _ Hne Hinit Ho Hs) as Hfig.
  destruct (Series_min_found (map stime conversation)) as (cs & Ecs & Hcs).
  { intro H. apply map_eq_nil in H. contradiction. }
  destruct (Series_max_found (map etime conversation)) as (ce & Ece & Hce).
  { intro H. apply map_eq_nil in H. contradiction. }
  rewrite Ecs, Ece in Hfig.
  eexists. eexists. eexists. exists cs, ce.
  split; [exact Hfig|]. split; [exact Ho|]. split; [exact Hs|].
  cbn [xaxis_range traces]. split; [reflexivity|].
  split; [exact Hcs|]. split; [exact Hce|]. split.
  - rewrite !(map_app drawn), !speaker_traces_drawn, !event_traces_drawn.
    reflexivity.
  - intros Hv t x Ht Hx.
    assert (Hseg : forall s, In s conversation ->
                     cs <= stime s /\ stime s <= etime s /\ etime s <= ce).
    { intros s Hin. destruct Hcs as [_ Hlo]. destruct Hce as [_ Hhi].
      split; [apply Hlo; now apply in_map|].
      split; [now apply Hv | apply Hhi; now apply in_map]. }
    assert (Hrow : forall r, In r (map timeline_row conversation) ->
                     cs <= start_time r /\ start_time r <= end_time r
                     /\ end_time r <= ce).
    { intros r Hr. apply in_map_iff in Hr. destruct Hr as (s & <- & Hin).
      exact (Hseg s Hin). }
    rewrite !in_app_iff in Ht. destruct Ht as [Ht | [Ht | [Ht | Ht]]].
    + apply speaker_traces_x in Ht. destruct Ht as (r & Hr & E). rewrite E in Hx.
      destruct (Hrow r Hr) as (H1 & H2 & H3).
      apply (rectangle_within _ _ _ _ _) with (5 := Hx); lra.
    + apply speaker_traces_x in Ht. destruct Ht as (r & Hr & E). rewrite E in Hx.
      destruct (Hrow r Hr) as (H1 & H2 & H3).
      apply (rectangle_within _ _ _ _ _) with (5 := Hx); lra.
    + apply event_traces_x in Ht. destruct Ht as (o & Hin & E). rewrite E in Hx.
      apply in_adjacent in Hin. destruct Hin as (c & n & Hc & Hin).
      destruct (consecutive_In _ _ _ Hc) as [Hc1 Hc2].
      apply sorted_rows_In in Hc1, Hc2.
      destruct Hc1 as (s1 & Hs1 & ->). destruct Hc2 as (s2 & Hs2 & ->).
      apply overlap_of_spec in Hin. destruct Hin as (_ & Hpos & ->).
      cbn in Hpos, Hx.
      pose proof (py_max_ub (stime s1) (stime s2)) as [Hm1 Hm2].
      pose proof (py_min_lb (etime s1) (etime s2)) as [Hn1 Hn2].
      destruct (Hseg s1 Hs1) as (A1 & A2 & A3).
      apply (rectangle_within _ _ _ _ _) with (5 := Hx); lra.
    + pose proof (detect_silences_valid conversation self Hne Hv Hinit) as Hs'.
      rewrite Hs in Hs'. injection Hs' as Es. rewrite Es in Ht.
      apply event_traces_x in Ht. destruct Ht as (s & Hin & E). rewrite E in Hx.
      apply in_gaps in Hin. destruct Hin as (a & b & Hc & Hlt & ->).
      destruct (consecutive_In _ _ _ Hc) as [Ha Hb].
      pose proof (merged_speech_well_formed conversation Hne Hv) as Hwf.
      rewrite Forall_forall in Hwf.
      pose proof (Hwf a Ha) as Hwa. pose proof (Hwf b Hb) as Hwb.
      unfold well_formed in Hwa, Hwb.
      destruct (merged_within_span conversation cs ce Hne Hcs Hce a Ha) as [A1 A2].
      destruct (merged_within_span conversation cs ce Hne Hcs Hce b Hb) as [B1 B2].
      cbn in Hx.
      apply (rectangle_within _ _ _ _ _) with (5 := Hx); lra.
Qed.

(** X24: in the figure of a call with at least one segment, the traces of
    each legend group are the rectangles of one kind (agent, customer,
    overlap or silence), and only the first trace of a group has a legend
    entry and a name; the others are unnamed and hidden from the legend. *)
Theorem one_legend_entry_for_each_group
        (conversation : list Segment) (self : CallAnalyzer) (group : string) :
  conversation <> [] ->
  CallAnalyzer_init conversation = Ok self ->
  exists fig name,
    create_timeline_visualization self = Ok fig /\
    headed_by name (filter (in_group group) (traces fig)) /\
    (filter (in_group group) (traces fig) <> [] ->
     (group = "agent" /\ name = "Agent") \/
     (group = "customer" /\ name = "Customer") \/
     (group = "overlap" /\ name = "Overlap") \/
     (group = "silence" /\ name = "Silence"))%string.
Proof.
  intros Hne Hinit.
  pose proof (detect_overlaps_found conversation self Hne Hinit) as Ho.
  pose proof (detect_silences_found conversation self Hne Hinit) as Hs.
  pose proof (visualization_found conversation self _ _ Hne Hinit Ho Hs) as Hfig.
  eexists. 
  assert (Hcases :
    forall A C O S : list Trace,
      (forall t, In t A -> tr_legendgroup t = "agent"%string) ->
      (forall t, In t C -> tr_legendgroup t = "customer"%string) ->
      (forall t, In t O -> tr_legendgroup t = "overlap"%string) ->
      (forall t, In t S -> tr_legendgroup t = "silence"%string) ->
      headed_by "Agent" A -> headed_by "Customer" C ->
      headed_by "Overlap" O -> headed_by "Silence" S ->
      exists name,
        headed_by name (filter (in_group group) (A ++ C ++ O ++ S)) /\
        (filter (in_group group) (A ++ C ++ O ++ S) <> [] ->
         (group = "agent" /\ name = "Agent") \/
         (group = "customer" /\ name = "Customer") \/
         (group = "overlap" /\ name = "Overlap") \/
         (group = "silence" /\ name = "Silence"))%string).
  { intros A C O S HA HC HO HS HhA HhC HhO HhS.
    rewrite !filter_app.
    rewrite (filter_one_group _ group A HA), (filter_one_group _ group C HC),
      (filter_one_group _ group O HO), (filter_one_group _ group S HS).
    destruct (String.eqb_spec "agent" group) as [<-|Na].
    - exists "Agent"%string. cbn. rewrite app_nil_r. split; [exact HhA|]. auto.
    - destruct (String.eqb_spec "customer" group) as [<-|Nc].
      + exists "Customer"%string. cbn. rewrite app_nil_r. split; [exact HhC|]. auto.
      + destruct (String.eqb_spec "overlap" group) as [<-|No].
        * exists "Overlap"%string. cbn. rewrite app_nil_r.
          split; [exact HhO|]. auto.
        * destruct (String.eqb_spec "silence" group) as [<-|Ns].
          -- exists "Silence"%string. cbn. split; [exact HhS|]. auto.
          -- exists ""%string. cbn. split; [exact I|]. congruence. }
  match type of Hfig with
  | _ = Ok {| traces := ?A ++ ?C ++ ?O ++ ?S; xaxis_range := _ |} =>
      destruct (Hcases A C O S) as (name & Hh & Hg)
  end.
  - intros t. apply speaker_traces_group.
  - intros t. apply speaker_traces_group.
  - intros t. apply event_traces_group.
  - intros t. apply event_traces_group.
  - apply speaker_traces_headed.
  - apply speaker_traces_headed.
  - apply event_traces_headed.
  - apply event_traces_headed.
  - exists name. split; [exact Hfig|]. cbn [traces]. split; assumption.
Qed.

End VisualizationFacts.

(** * The further properties at the scenarios *)


Lemma scenario_C_starts : is_min 0 (map stime scenario_C).
Proof. split; [simpl; auto | intros y [<- | [<- | []]]; simpl; lra]. Defined.

Lemma scenario_C_ends : is_max 10 (map etime scenario_C).
Proof. split; [simpl; auto | intros y [<- | [<- | []]]; simpl; lra]. Defined.

Lemma reported_overlaps_are_shared_speech_witness :
  o_start_time (mkOverlap 4 6 2 ["Agent"; "Customer"]%string)
  < o_end_time (mkOverlap 4 6 2 ["Agent"; "Customer"]%string) /\
  o_duration (mkOverlap 4 6 2 ["Agent"; "Customer"]%string)
  = o_end_time (mkOverlap 4 6 2 ["Agent"; "Customer"]%string)
    - o_start_time (mkOverlap 4 6 2 ["Agent"; "Customer"]%string) /\
  exists s1 s2,
    In s1 scenario_B /\ In s2 scenario_B /\
    contributes (sorted_rows (kind := stable_kind) scenario_B)
      (timeline_row s1) (timeline_row s2)
      (mkOverlap 4 6 2 ["Agent"; "Customer"]%string) /\
    speakers (mkOverlap 4 6 2 ["Agent"; "Customer"]%string)
    = [speaker s1; speaker s2] /\
    stime s1 <= stime s2 /\
    forall t, o_start_time (mkOverlap 4 6 2 ["Agent"; "Customer"]%string) <= t ->
              t <= o_end_time (mkOverlap 4 6 2 ["Agent"; "Customer"]%string) ->
              inside (segment_interval s1) t /\ inside (segment_interval s2) t.
Proof.
  apply (reported_overlaps_are_shared_speech (kind := stable_kind) scenario_B
           (analyzer_of scenario_B)
           [mkOverlap 4 6 2 ["Agent"; "Customer"]%string]).
  - reflexivity.
  - reflexivity.
  - simpl. auto.
Defined.

Lemma fewer_overlaps_than_segments_witness :
  exists m,
    calculate_metrics (kind := stable_kind) (dtype := int64) (analyzer_of scenario_B)
    = Ok m /\
    detect_overlaps (kind := stable_kind) (analyzer_of scenario_B) = Ok (overlaps m) /\
    num_overlaps m = length (overlaps m) /\
    (num_overlaps m < length scenario_B)%nat.
Proof.
  eexists. split; [reflexivity|].
  apply (fewer_overlaps_than_segments (kind := stable_kind) (dtype := int64)
           scenario_B (analyzer_of scenario_B)); reflexivity.
Defined.

Lemma silences_have_positive_duration_witness :
  s_start_time (mkSilence 3 7 4) < s_end_time (mkSilence 3 7 4) /\
  s_duration (mkSilence 3 7 4)
  = s_end_time (mkSilence 3 7 4) - s_start_time (mkSilence 3 7 4) /\
  0 < s_duration (mkSilence 3 7 4).
Proof.
  apply (silences_have_positive_duration (kind := stable_kind) scenario_C
           (analyzer_of scenario_C) [mkSilence 3 7 4]).
  - reflexivity.
  - reflexivity.
  - simpl. auto.
Defined.

Lemma silences_are_where_nobody_speaks_witness :
  detect_silences (kind := stable_kind) (analyzer_of scenario_C)
  = Ok [mkSilence 3 7 4] /\
  forall t,
    silent [mkSilence 3 7 4] t <->
    (0 <= t /\ t <= 10 /\ ~ speaking (map segment_interval scenario_C) t).
Proof.
  split; [reflexivity|].
  apply (silences_are_where_nobody_speaks (kind := stable_kind) scenario_C
           (analyzer_of scenario_C)).
  - exact scenario_C_ends_after_start.
  - reflexivity.
  - reflexivity.
  - exact scenario_C_starts.
  - exact scenario_C_ends.
Defined.

Lemma scenario_C_whole_seconds : whole_seconds scenario_C.
Proof.
  intros s [<- | [<- | []]]; [exists 0%Z, 3%Z | exists 7%Z, 10%Z];
    (split; [lia|]); (split; [reflexivity|]); split; reflexivity.
Defined.

Lemma silence_percentage_in_range_witness :
  exists m,
    calculate_metrics (kind := stable_kind) (dtype := int64) (analyzer_of scenario_C)
    = Ok m /\
    total_duration m = Fin 10 /\
    exists t,
      total_silence_time m = Fin t /\
      t == Qsum (map s_duration (silences m)) /\
      0 <= t /\ t <= 10 /\
      exists p, silence_percentage m = Fin p /\ 0 <= p /\ p <= 100.
Proof.
  eexists. split; [reflexivity|]. split; [reflexivity|].
  apply (silence_percentage_in_range (kind := stable_kind) (dtype := int64)
           scenario_C (analyzer_of scenario_C)).
  - exact scenario_C_ends_after_start.
  - exact scenario_C_whole_seconds.
  - reflexivity.
  - reflexivity.
  - reflexivity.
  - lra.
Defined.

(** The metrics of scenario C in int64: the silence of 4 seconds is 40% of
    the 10 seconds of the call. *)
Example scenario_C_metrics :
  exists m,
    calculate_metrics (kind := stable_kind) (dtype := int64) (analyzer_of scenario_C)
    = Ok m /\
    total_silence_time m = Fin 4 /\
    silence_percentage m = Fin 40.
Proof.
  eexists. split; [reflexivity|]. vm_compute. repeat split.
Qed.


(** A call with two segments of the agent, an overlap and a silence. *)
Definition mixed_call : list Segment :=
  [mkSegment "Agent" "Hello" 0 6; mkSegment "Customer" "Hi" 4 10;
   mkSegment "Agent" "Bye" 12 15].

Lemma figure_draws_every_event_witness :
  exists fig found_overlaps found_silences call_start call_end,
    create_timeline_visualization (kind := stable_kind) (analyzer_of mixed_call)
    = Ok fig /\
    detect_overlaps (kind := stable_kind) (analyzer_of mixed_call) = Ok found_overlaps /\
    detect_silences (kind := stable_kind) (analyzer_of mixed_call) = Ok found_silences /\
    xaxis_range fig = (Fin call_start, Fin call_end) /\
    is_min call_start (map stime mixed_call) /\
    is_max call_end (map etime mixed_call) /\
    map drawn (traces fig)
    = map (fun s => ([stime s; etime s; etime s; stime s; stime s],
                     [0.1; 0.1; 0.45; 0.45; 0.1],
                     Some (if (50 <? String.length (text s))%nat
                           then (String.substring 0 50 (text s) ++ "...")%string
                           else text s),
                     "agent"%string, 1%nat))
          (filter (spoken_by "Agent") mixed_call)
      ++ map (fun s => ([stime s; etime s; etime s; stime s; stime s],
                        [0.55; 0.55; 0.9; 0.9; 0.55],
                        Some (if (50 <? String.length (text s))%nat
                              then (String.substring 0 50 (text s) ++ "...")%string
                              else text s),
                        "customer"%string, 1%nat))
             (filter (spoken_by "Customer") mixed_call)
      ++ map (fun o => ([o_start_time o; o_end_time o; o_end_time o;
                         o_start_time o; o_start_time o],
                        [0.6; 0.6; 1; 1; 0.6], None, "overlap"%string, 2%nat))
             found_overlaps
      ++ map (fun s => ([s_start_time s; s_end_time s; s_end_time s;
                         s_start_time s; s_start_time s],
                        [0; 0; 0.4; 0.4; 0], None, "silence"%string, 2%nat))
             found_silences /\
    (ends_after_start mixed_call ->
     forall t x, In t (traces fig) -> In x (tr_x t) ->
                 call_start <= x /\ x <= call_end).
Proof.
  apply (figure_draws_every_event (kind := stable_kind) mixed_call
           (analyzer_of mixed_call)).
  - discriminate.
  - reflexivity.
Defined.

Lemma one_legend_entry_for_each_group_witness :
  exists fig name,
    create_timeline_visualization (kind := stable_kind) (analyzer_of mixed_call)
    = Ok fig /\
    headed_by name (filter (in_group "agent") (traces fig)) /\
    (filter (in_group "agent") (traces fig) <> [] ->
     ("agent" = "agent" /\ name = "Agent") \/
     ("agent" = "customer" /\ name = "Customer") \/
     ("agent" = "overlap" /\ name = "Overlap") \/
     ("agent" = "silence" /\ name = "Silence"))%string.
Proof.
  apply (one_legend_entry_for_each_group (kind := stable_kind) mixed_call
           (analyzer_of mixed_call) "agent").
  - discriminate.
  - reflexivity.
Defined.

(** The figure of [mixed_call]: five traces, the two of the agent in one
    legend group, of which the first alone has a name and a legend entry. *)
Example mixed_call_figure :
  exists fig,
    create_timeline_visualization (kind := stable_kind) (analyzer_of mixed_call)
    = Ok fig /\
    map (fun t => (tr_legendgroup t, tr_name t, tr_showlegend t, tr_x t)) (traces fig)
    = [("agent", "Agent", true, [0; 6; 6; 0; 0]);
       ("agent", "", false, [12; 15; 15; 12; 12]);
       ("customer", "Customer", true, [4; 10; 10; 4; 4]);
       ("overlap", "Overlap", true, [4; 6; 6; 4; 4]);
       ("silence", "Silence", true, [10; 12; 12; 10; 10])]%string.
Proof. eexists. split; reflexivity. Qed.
